(** * Huffman file compressor: a shallow embedding of [compressor/Main.py]

    The development follows the Python source function by function.
    Python values are represented as follows.

    - A [str] is the list of its Unicode code points ([pystr]); a
      character is a [str] of length one, as in Python.
    - A [str] over the alphabet ['0'], ['1'] (codes, the encoded text, the
      padded bit string) is a list of booleans ([bits]), [true] standing
      for ['1'].  Every such string of the program is built from the
      literals ["0"], ["1"] and from ["{0:08b}".format].
    - [bytes] and [bytearray] are lists of integers in [0, 256).
    - A [dict] is an association list in insertion order ([dict]).
    - Exceptions are values of [exn]; a computation that may raise returns
      an [outcome].  The methods that touch the object's fields or the
      file system run in the state monad [M] over [World]. *)

From Stdlib Require Import ZArith Lia.
From Stdlib Require DecimalPos DecimalZ.
From stdpp Require Import base numbers option list strings gmap.

(** ** Python values *)

Abbreviation pystr := (list Z).
Abbreviation bits := (list bool).
Abbreviation bytes := (list Z).

Inductive exn :=
| IndexError                (* list indexing, as in self.heap[0] *)
| IndexError_pop            (* list.pop() on an empty list *)
| KeyError
| AttributeError
| ValueError_int            (* int(s, 2) on an empty literal *)
| ValueError_integrity      (* ValueError("File integrity check failed") *)
| FileNotFoundError
| UnicodeDecodeError
| UnicodeEncodeError
| JSONDecodeError
| ZeroDivisionError.

(** [Unmodelled] marks an input on which Python continues with a value
    that lies outside this embedding (a JSON document that is not an
    object of integers); it is never the result of an exception. *)
Inductive outcome (A : Type) :=
| Ret (a : A)
| Raise (e : exn)
| Unmodelled.
Arguments Ret {A} a.
Arguments Raise {A} e.
Arguments Unmodelled {A}.

Global Instance outcome_ret : MRet outcome := @Ret.
Global Instance outcome_bind : MBind outcome := λ A B f m,
  match m with
  | Ret a => f a
  | Raise e => Raise e
  | Unmodelled => Unmodelled
  end.

Global Instance exn_eq_dec : EqDecision exn.
Proof. solve_decision. Defined.

(** [str(e)] where the operation that raises fixes the text of the
    exception; [None] where the text depends on the operands (the key, the
    path, the position of the offending byte) or on the implementation of
    the library. *)
Definition message (e : exn) : option string :=
  match e with
  | IndexError => Some "list index out of range"%string
  | ValueError_int => Some "invalid literal for int() with base 2: ''"%string
  | ValueError_integrity => Some "File integrity check failed"%string
  | ZeroDivisionError => Some "division by zero"%string
  | IndexError_pop | KeyError | AttributeError | FileNotFoundError
  | UnicodeDecodeError | UnicodeEncodeError | JSONDecodeError => None
  end.

(** ** Dictionaries, in insertion order *)

Module PyDict.
Section dict.
Context {K V : Type} `{EqDecision K}.

Fixpoint get (d : list (K * V)) (k : K) : option V :=
  match d with
  | [] => None
  | (k', v) :: d' => if decide (k = k') then Some v else get d' k
  end.

(** [d[k]], raising [KeyError] on a missing key. *)
Definition getitem (d : list (K * V)) (k : K) : outcome V :=
  match get d k with
  | Some v => Ret v
  | None => Raise KeyError
  end.

(** [d[k] = v]: an existing key keeps its position. *)
Fixpoint set (d : list (K * V)) (k : K) (v : V) : list (K * V) :=
  match d with
  | [] => [(k, v)]
  | (k', v') :: d' =>
      if decide (k = k') then (k', v) :: d' else (k', v') :: set d' k v
  end.

Definition keys (d : list (K * V)) : list K := d.*1.
End dict.
End PyDict.
Abbreviation dict K V := (list (K * V)).

(** ** class HuffmanNode

    A node is created either as [HuffmanNode(key, frequency[key])], whose
    [left] and [right] stay [None], or as [HuffmanNode(None, f)] whose two
    children are assigned at once in [_merge_nodes]. *)

Inductive HuffmanNode :=
| Leaf (char : pystr) (freq : Z)
| Internal (freq : Z) (left right : HuffmanNode).

Module Node.
Definition char (n : HuffmanNode) : option pystr :=
  match n with Leaf c _ => Some c | Internal _ _ _ => None end.
Definition freq (n : HuffmanNode) : Z :=
  match n with Leaf _ f => f | Internal f _ _ => f end.
Definition left (n : HuffmanNode) : option HuffmanNode :=
  match n with Leaf _ _ => None | Internal _ l _ => Some l end.
Definition right (n : HuffmanNode) : option HuffmanNode :=
  match n with Leaf _ _ => None | Internal _ _ r => Some r end.
(** [__lt__]: nodes are ordered by frequency alone. *)
Definition __lt__ (self other : HuffmanNode) : bool :=
  (freq self <? freq other)%Z.
End Node.

(** ** The [heapq] module (CPython's list-based binary heap) *)

Module heapq.
Section heapq.
Context {A : Type} (lt : A → A → bool).

(** The [while pos > startpos] loop of [_siftdown]; [pos] decreases at
    every turn, so [pos] turns of fuel are enough. *)
Fixpoint _siftdown_loop (fuel : nat) (heap : list A) (startpos pos : nat)
    (newitem : A) : list A :=
  match fuel with
  | 0 => <[pos := newitem]> heap
  | S fuel' =>
      if decide (startpos < pos) then
        let parentpos := (pos - 1) / 2 in
        match heap !! parentpos with
        | Some parent =>
            if lt newitem parent then
              _siftdown_loop fuel' (<[pos := parent]> heap) startpos parentpos newitem
            else <[pos := newitem]> heap
        | None => heap
        end
      else <[pos := newitem]> heap
  end.

Definition _siftdown (heap : list A) (startpos pos : nat) : list A :=
  match heap !! pos with
  | Some newitem => _siftdown_loop pos heap startpos pos newitem
  | None => heap
  end.

(** The [while childpos < endpos] loop of [_siftup]; it returns the heap
    and the position of the hole. *)
Fixpoint _siftup_loop (fuel : nat) (heap : list A) (endpos pos : nat)
    : list A * nat :=
  match fuel with
  | 0 => (heap, pos)
  | S fuel' =>
      let childpos := 2 * pos + 1 in
      if decide (childpos < endpos) then
        let rightpos := childpos + 1 in
        let childpos :=
          match heap !! childpos, heap !! rightpos with
          | Some c, Some r =>
              if bool_decide (rightpos < endpos) && negb (lt c r)
              then rightpos else childpos
          | _, _ => childpos
          end in
        match heap !! childpos with
        | Some c => _siftup_loop fuel' (<[pos := c]> heap) endpos childpos
        | None => (heap, pos)
        end
      else (heap, pos)
  end.

Definition _siftup (heap : list A) (pos : nat) : list A :=
  let endpos := length heap in
  let startpos := pos in
  match heap !! pos with
  | Some newitem =>
      let '(heap, pos) := _siftup_loop endpos heap endpos pos in
      _siftdown_loop pos (<[pos := newitem]> heap) startpos pos newitem
  | None => heap
  end.

Definition heappush (heap : list A) (item : A) : list A :=
  let heap := heap ++ [item] in
  _siftdown heap 0 (length heap - 1).

(** [heappop] returns the popped item and the heap left behind. *)
Definition heappop (heap : list A) : outcome (A * list A) :=
  match last heap with
  | None => Raise IndexError_pop
  | Some lastelt =>
      let heap := removelast heap in
      match heap with
      | returnitem :: _ => Ret (returnitem, _siftup (<[0 := lastelt]> heap) 0)
      | [] => Ret (lastelt, heap)
      end
  end.
End heapq.
End heapq.

(** ** class HuffmanCompressor: fields *)

Record HuffmanCompressor := mkCompressor {
  heap : list HuffmanNode;
  codes : dict pystr bits;
  reverse_mapping : dict bits pystr
}.

(** [__init__], and the "reset state" blocks of both public methods. *)
Definition __init__ : HuffmanCompressor := mkCompressor [] [] [].

Definition _make_frequency_dict (text : pystr) : dict pystr Z :=
  foldl (λ frequency character,
           PyDict.set frequency [character]
             (default 0%Z (PyDict.get frequency [character]) + 1)%Z)
        [] text.

Definition _build_heap (frequency : dict pystr Z) (self : HuffmanCompressor)
    : HuffmanCompressor :=
  mkCompressor
    (foldl (λ h kv, heapq.heappush Node.__lt__ h (Leaf kv.1 kv.2))
           (heap self) frequency)
    (codes self) (reverse_mapping self).

(** The [while len(self.heap) > 1] loop; the heap loses one node at every
    turn, so [len(self.heap)] turns of fuel are enough. *)
Fixpoint _merge_nodes_loop (fuel : nat) (h : list HuffmanNode)
    : outcome (list HuffmanNode) :=
  match fuel with
  | 0 => Ret h
  | S fuel' =>
      if decide (1 < length h) then
        p1 ← heapq.heappop Node.__lt__ h;
        p2 ← heapq.heappop Node.__lt__ p1.2;
        let node1 := p1.1 in
        let node2 := p2.1 in
        let merged := Internal (Node.freq node1 + Node.freq node2) node1 node2 in
        _merge_nodes_loop fuel' (heapq.heappush Node.__lt__ p2.2 merged)
      else Ret h
  end.

Definition _merge_nodes (self : HuffmanCompressor) : outcome HuffmanCompressor :=
  h ← _merge_nodes_loop (length (heap self)) (heap self);
  Ret (mkCompressor h (codes self) (reverse_mapping self)).

(** [_make_codes_helper]: the [root is None] test can only succeed on a
    child of a leaf, which is never visited. *)
Fixpoint _make_codes_helper (root : HuffmanNode) (current_code : bits)
    (self : HuffmanCompressor) : HuffmanCompressor :=
  match root with
  | Leaf c _ =>
      mkCompressor (heap self)
        (PyDict.set (codes self) c current_code)
        (PyDict.set (reverse_mapping self) current_code c)
  | Internal _ l r =>
      _make_codes_helper r (current_code ++ [true])
        (_make_codes_helper l (current_code ++ [false]) self)
  end.

Fixpoint _get_encoded_text_loop (text : pystr) (self : HuffmanCompressor)
    (encoded_text : bits) : outcome bits :=
  match text with
  | [] => Ret encoded_text
  | character :: text' =>
      code ← PyDict.getitem (codes self) [character];
      _get_encoded_text_loop text' self (encoded_text ++ code)
  end.

Definition _get_encoded_text (text : pystr) (self : HuffmanCompressor)
    : outcome bits :=
  _get_encoded_text_loop text self [].

(** ** Bit strings *)

Fixpoint pos_bits (p : positive) : bits :=
  match p with
  | xH => [true]
  | xO q => pos_bits q ++ [false]
  | xI q => pos_bits q ++ [true]
  end.

(** ["{0:08b}".format(n)] for [n >= 0]: the binary digits of [n], padded
    with zeros on the left to width 8 (wider when [n >= 256]). *)
Definition format_08b (n : Z) : bits :=
  let digits := match n with Zpos p => pos_bits p | _ => [false] end in
  replicate (8 - length digits) false ++ digits.

(** [int(s, 2)] on a non-empty string of binary digits. *)
Definition int2 (s : bits) : outcome Z :=
  match s with
  | [] => Raise ValueError_int
  | _ => Ret (foldl (λ acc (b : bool), 2 * acc + (if b then 1 else 0))%Z 0%Z s)
  end.

Definition _pad_encoded_text (encoded_text : bits) : bits :=
  let extra_padding := 8 - length encoded_text `mod` 8 in
  let encoded_text := encoded_text ++ replicate extra_padding false in
  let padded_info := format_08b (Z.of_nat extra_padding) in
  padded_info ++ encoded_text.

(** [range(0, n, 8)] *)
Definition range8 (n : nat) : list nat :=
  (λ k, 8 * k) <$> seq 0 ((n + 7) / 8).

(** [s[i:j]] for [0 <= i <= j] *)
Definition slice {A} (s : list A) (i j : nat) : list A :=
  take (j - i) (drop i s).

Fixpoint _get_byte_array_loop (padded_encoded_text : bits) (idx : list nat)
    (b : bytes) : outcome bytes :=
  match idx with
  | [] => Ret b
  | i :: idx' =>
      n ← int2 (slice padded_encoded_text i (i + 8));
      _get_byte_array_loop padded_encoded_text idx' (b ++ [n])
  end.

Definition _get_byte_array (padded_encoded_text : bits) : outcome bytes :=
  _get_byte_array_loop padded_encoded_text
    (range8 (length padded_encoded_text)) [].

(** [s[:-k]] for an integer [k >= 0]: [s[:-0]] is [s[:0]], the empty string. *)
Definition slice_to_neg {A} (s : list A) (k : Z) : list A :=
  if decide (k = 0%Z) then [] else take (length s - Z.to_nat k) s.

Fixpoint _decode_text_loop (encoded_text : bits) (root current : HuffmanNode)
    (decoded_text : pystr) : outcome pystr :=
  match encoded_text with
  | [] => Ret decoded_text
  | bit :: rest =>
      match (if bit then Node.right current else Node.left current) with
      | None => Raise AttributeError
      | Some current =>
          match Node.char current with
          | Some c => _decode_text_loop rest root root (decoded_text ++ c)
          | None => _decode_text_loop rest root current decoded_text
          end
      end
  end.

Definition _decode_text (encoded_text : bits) (root : HuffmanNode)
    : outcome pystr :=
  _decode_text_loop encoded_text root root [].

(** ** Text encoding: [str.encode('utf-8')] and [bytes.decode('utf-8')] *)

Definition utf8_encode_char (c : Z) : outcome bytes :=
  (if decide (0 ≤ c < 0x80) then Ret [c]
   else if decide (0x80 ≤ c < 0x800) then
     Ret [0xC0 + c / 64; 0x80 + c mod 64]
   else if decide (0xD800 ≤ c ≤ 0xDFFF) then Raise UnicodeEncodeError
   else if decide (0x800 ≤ c < 0x10000) then
     Ret [0xE0 + c / 4096; 0x80 + (c / 64) mod 64; 0x80 + c mod 64]
   else if decide (0x10000 ≤ c ≤ 0x10FFFF) then
     Ret [0xF0 + c / 262144; 0x80 + (c / 4096) mod 64;
          0x80 + (c / 64) mod 64; 0x80 + c mod 64]
   else Raise UnicodeEncodeError)%Z.

Fixpoint utf8_encode (s : pystr) : outcome bytes :=
  match s with
  | [] => Ret []
  | c :: s' =>
      b ← utf8_encode_char c;
      bs ← utf8_encode s';
      Ret (b ++ bs)
  end.

Definition is_cont (b : Z) : Prop := (0x80 ≤ b ≤ 0xBF)%Z.

Global Instance is_cont_dec b : Decision (is_cont b).
Proof. unfold is_cont. apply _. Defined.

(** The strict decoder: shortest forms only, no surrogates, nothing above
    U+10FFFF. *)
Fixpoint utf8_decode (bs : bytes) : outcome pystr :=
  match bs with
  | [] => Ret []
  | b0 :: r0 =>
      (if decide (0 ≤ b0 < 0x80) then
         s ← utf8_decode r0; Ret (b0 :: s)
       else if decide (0xC2 ≤ b0 ≤ 0xDF) then
         match r0 with
         | b1 :: r1 =>
             if decide (is_cont b1) then
               s ← utf8_decode r1;
               Ret (((b0 - 0xC0) * 64 + (b1 - 0x80)) :: s)
             else Raise UnicodeDecodeError
         | _ => Raise UnicodeDecodeError
         end
       else if decide (0xE0 ≤ b0 ≤ 0xEF) then
         match r0 with
         | b1 :: b2 :: r2 =>
             let lo := if decide (b0 = 0xE0) then 0xA0 else 0x80 in
             let hi := if decide (b0 = 0xED) then 0x9F else 0xBF in
             if decide (lo ≤ b1 ≤ hi ∧ is_cont b2) then
               s ← utf8_decode r2;
               Ret (((b0 - 0xE0) * 4096 + (b1 - 0x80) * 64 + (b2 - 0x80)) :: s)
             else Raise UnicodeDecodeError
         | _ => Raise UnicodeDecodeError
         end
       else if decide (0xF0 ≤ b0 ≤ 0xF4) then
         match r0 with
         | b1 :: b2 :: b3 :: r3 =>
             let lo := if decide (b0 = 0xF0) then 0x90 else 0x80 in
             let hi := if decide (b0 = 0xF4) then 0x8F else 0xBF in
             if decide (lo ≤ b1 ≤ hi ∧ is_cont b2 ∧ is_cont b3) then
               s ← utf8_decode r3;
               Ret (((b0 - 0xF0) * 262144 + (b1 - 0x80) * 4096
                     + (b2 - 0x80) * 64 + (b3 - 0x80)) :: s)
             else Raise UnicodeDecodeError
         | _ => Raise UnicodeDecodeError
         end
       else Raise UnicodeDecodeError)%Z
  end.

(** Universal newlines on reading in text mode: ["\r\n"] and ["\r"] become
    ["\n"]. *)
Fixpoint universal_newlines (s : pystr) : pystr :=
  match s with
  | [] => []
  | c :: rest =>
      if decide (c = 13%Z) then
        match rest with
        | c' :: rest' =>
            if decide (c' = 10%Z) then 10%Z :: universal_newlines rest'
            else 10%Z :: universal_newlines rest
        | [] => [10%Z]
        end
      else c :: universal_newlines rest
  end.

(** [str.isspace] on one character, as used by [str.strip()]. *)
Definition isspace (c : Z) : bool :=
  bool_decide (9 ≤ c ≤ 13 ∨ 28 ≤ c ≤ 32 ∨ c = 0x85 ∨ c = 0xA0 ∨ c = 0x1680
               ∨ 0x2000 ≤ c ≤ 0x200A ∨ c = 0x2028 ∨ c = 0x2029
               ∨ c = 0x202F ∨ c = 0x205F ∨ c = 0x3000)%Z.

Fixpoint lstrip (s : pystr) : pystr :=
  match s with
  | c :: s' => if isspace c then lstrip s' else s
  | [] => []
  end.

Definition strip (s : pystr) : pystr := reverse (lstrip (reverse (lstrip s))).

(** ** [hashlib.sha256] (FIPS 180-4) *)

Module SHA256.
Local Open Scope Z_scope.

Definition w32 (x : Z) : Z := x mod 2 ^ 32.
Definition rotr (n x : Z) : Z :=
  w32 (Z.lor (Z.shiftr x n) (Z.shiftl x (32 - n))).
Definition Ch (x y z : Z) : Z :=
  Z.lxor (Z.land x y) (Z.land (w32 (Z.lnot x)) z).
Definition Maj (x y z : Z) : Z :=
  Z.lxor (Z.lxor (Z.land x y) (Z.land x z)) (Z.land y z).
Definition Sigma0 (x : Z) : Z := Z.lxor (Z.lxor (rotr 2 x) (rotr 13 x)) (rotr 22 x).
Definition Sigma1 (x : Z) : Z := Z.lxor (Z.lxor (rotr 6 x) (rotr 11 x)) (rotr 25 x).
Definition sigma0 (x : Z) : Z := Z.lxor (Z.lxor (rotr 7 x) (rotr 18 x)) (Z.shiftr x 3).
Definition sigma1 (x : Z) : Z := Z.lxor (Z.lxor (rotr 17 x) (rotr 19 x)) (Z.shiftr x 10).

(** The round constants: the first 32 bits of the fractional parts of the
    cube roots of the first 64 primes. *)
Definition K : list Z :=
  [1116352408; 1899447441; 3049323471; 3921009573; 961987163;
   1508970993; 2453635748; 2870763221; 3624381080; 310598401;
   607225278; 1426881987; 1925078388; 2162078206; 2614888103;
   3248222580; 3835390401; 4022224774; 264347078; 604807628;
   770255983; 1249150122; 1555081692; 1996064986; 2554220882;
   2821834349; 2952996808; 3210313671; 3336571891; 3584528711;
   113926993; 338241895; 666307205; 773529912; 1294757372;
   1396182291; 1695183700; 1986661051; 2177026350; 2456956037;
   2730485921; 2820302411; 3259730800; 3345764771; 3516065817;
   3600352804; 4094571909; 275423344; 430227734; 506948616;
   659060556; 883997877; 958139571; 1322822218; 1537002063;
   1747873779; 1955562222; 2024104815; 2227730452; 2361852424;
   2428436474; 2756734187; 3204031479; 3329325298].

(** The initial hash value: the same for the square roots of the first 8
    primes. *)
Definition H0 : list Z :=
  [1779033703; 3144134277; 1013904242; 2773480762;
   1359893119; 2600822924; 528734635; 1541459225].

(** Big-endian bytes of [x], [n] of them. *)
Fixpoint be_bytes (n : nat) (x : Z) : bytes :=
  match n with
  | O => []
  | S n' => be_bytes n' (x / 256) ++ [x mod 256]
  end.

Definition be_word (bs : bytes) : Z := foldl (λ acc b, acc * 256 + b) 0 bs.

Definition pad (msg : bytes) : bytes :=
  let len := Z.of_nat (length msg) in
  msg ++ [0x80] ++ replicate (Z.to_nat ((55 - len) mod 64)) 0
      ++ be_bytes 8 (8 * len).

(** The message schedule, most recent word first. *)
Fixpoint schedule (n : nat) (ws : list Z) : list Z :=
  match n with
  | O => ws
  | S n' =>
      let w := w32 (sigma1 (ws !!! 1%nat) + ws !!! 6%nat
                    + sigma0 (ws !!! 14%nat) + ws !!! 15%nat) in
      schedule n' (w :: ws)
  end.

Definition round (st : list Z) (kw : Z * Z) : list Z :=
  match st with
  | [a; b; c; d; e; f; g; h] =>
      let t1 := h + Sigma1 e + Ch e f g + kw.1 + kw.2 in
      let t2 := Sigma0 a + Maj a b c in
      [w32 (t1 + t2); a; b; c; w32 (d + t1); e; f; g]
  | _ => st
  end.

Definition block_words (block : bytes) : list Z :=
  (λ i, be_word (take 4 (drop (4 * i) block))) <$> seq 0 16.

Definition compress (hs : list Z) (block : bytes) : list Z :=
  let ws := reverse (schedule 48 (reverse (block_words block))) in
  let st := foldl round hs (zip K ws) in
  zip_with (λ x y, w32 (x + y)) hs st.

Definition digest (msg : bytes) : bytes :=
  let p := pad msg in
  let blocks := (λ i, take 64 (drop (64 * i) p)) <$> seq 0 (length p / 64) in
  foldl compress H0 blocks ≫= be_bytes 4.

Definition hex_digit (d : Z) : Z := if decide (d < 10) then 48 + d else 87 + d.

Definition hexdigest (msg : bytes) : pystr :=
  digest msg ≫= (λ b, [hex_digit (b / 16); hex_digit (b mod 16)]).
End SHA256.

(** ** The [json] module, on dictionaries from strings to integers

    [json.dumps(d)] with the default [ensure_ascii=True] and the default
    separators [", "] and [": "]. *)

Module json.
Local Open Scope Z_scope.

Definition hex_char (d : Z) : Z := if decide (d < 10) then 48 + d else 87 + d.

(** ['{0:04x}'.format(n)] for [0 <= n < 0x10000] *)
Definition hex4 (n : Z) : pystr :=
  [hex_char (n / 4096); hex_char ((n / 256) mod 16);
   hex_char ((n / 16) mod 16); hex_char (n mod 16)].

Definition u_escape (n : Z) : pystr := [92; 117] ++ hex4 n.

(** The replacement of one character by [py_encode_basestring_ascii]. *)
Definition escape_char (c : Z) : pystr :=
  if decide (c = 92) then [92; 92]
  else if decide (c = 34) then [92; 34]
  else if decide (c = 8) then [92; 98]
  else if decide (c = 12) then [92; 102]
  else if decide (c = 10) then [92; 110]
  else if decide (c = 13) then [92; 114]
  else if decide (c = 9) then [92; 116]
  else if decide (32 ≤ c ≤ 126) then [c]
  else if decide (c < 0x10000) then u_escape c
  else
    let n := c - 0x10000 in
    u_escape (0xd800 + n / 1024) ++ u_escape (0xdc00 + n mod 1024).

Definition encode_basestring_ascii (s : pystr) : pystr :=
  [34] ++ (s ≫= escape_char) ++ [34].

Fixpoint uint_chars (u : Decimal.uint) : pystr :=
  match u with
  | Decimal.Nil => []
  | Decimal.D0 u => 48 :: uint_chars u
  | Decimal.D1 u => 49 :: uint_chars u
  | Decimal.D2 u => 50 :: uint_chars u
  | Decimal.D3 u => 51 :: uint_chars u
  | Decimal.D4 u => 52 :: uint_chars u
  | Decimal.D5 u => 53 :: uint_chars u
  | Decimal.D6 u => 54 :: uint_chars u
  | Decimal.D7 u => 55 :: uint_chars u
  | Decimal.D8 u => 56 :: uint_chars u
  | Decimal.D9 u => 57 :: uint_chars u
  end.

(** [int.__repr__] *)
Definition int_repr (z : Z) : pystr :=
  match Z.to_int z with
  | Decimal.Pos u => uint_chars u
  | Decimal.Neg u => 45 :: uint_chars u
  end.

Definition dumps_item (kv : pystr * Z) : pystr :=
  encode_basestring_ascii kv.1 ++ [58; 32] ++ int_repr kv.2.

Fixpoint dumps_items (d : list (pystr * Z)) : pystr :=
  match d with
  | [] => []
  | [kv] => dumps_item kv
  | kv :: d' => dumps_item kv ++ [44; 32] ++ dumps_items d'
  end.

Definition dumps (d : dict pystr Z) : pystr :=
  [123] ++ dumps_items d ++ [125].

(** [json.loads] on the same fragment: an object whose values are
    integer literals, with arbitrary strings as keys and with JSON
    whitespace between the tokens.  A document with another kind of
    value is [Unmodelled]. *)

Definition is_ws (c : Z) : bool :=
  bool_decide (c = 32 ∨ c = 9 ∨ c = 10 ∨ c = 13).

Fixpoint skip_ws (s : pystr) : pystr :=
  match s with
  | c :: s' => if is_ws c then skip_ws s' else s
  | [] => []
  end.

Definition hex_val (c : Z) : option Z :=
  if decide (48 ≤ c ≤ 57) then Some (c - 48)
  else if decide (97 ≤ c ≤ 102) then Some (c - 87)
  else if decide (65 ≤ c ≤ 70) then Some (c - 55)
  else None.

Definition parse_hex4 (h1 h2 h3 h4 : Z) : option Z :=
  d1 ← hex_val h1; d2 ← hex_val h2; d3 ← hex_val h3; d4 ← hex_val h4;
  Some (((d1 * 16 + d2) * 16 + d3) * 16 + d4).

Definition unescape (esc : Z) : option Z :=
  if decide (esc = 34) then Some 34
  else if decide (esc = 92) then Some 92
  else if decide (esc = 47) then Some 47
  else if decide (esc = 98) then Some 8
  else if decide (esc = 102) then Some 12
  else if decide (esc = 110) then Some 10
  else if decide (esc = 114) then Some 13
  else if decide (esc = 116) then Some 9
  else None.

(** [scanstring], entered after the opening quote: the decoded string
    and the input after the closing quote. *)
Fixpoint scanstring (s : pystr) (acc : pystr) : outcome (pystr * pystr) :=
  match s with
  | [] => Raise JSONDecodeError
  | c :: rest =>
      if decide (c = 34) then Ret (acc, rest)
      else if decide (c = 92) then
        match rest with
        | [] => Raise JSONDecodeError
        | esc :: rest1 =>
            if decide (esc = 117) then
              match rest1 with
              | h1 :: h2 :: h3 :: h4 :: rest2 =>
                  match parse_hex4 h1 h2 h3 h4 with
                  | None => Raise JSONDecodeError
                  | Some uni =>
                      if decide (0xd800 ≤ uni ≤ 0xdbff) then
                        match rest2 with
                        | b :: u :: g1 :: g2 :: g3 :: g4 :: rest3 =>
                            if decide (b = 92 ∧ u = 117) then
                              match parse_hex4 g1 g2 g3 g4 with
                              | None => Raise JSONDecodeError
                              | Some uni2 =>
                                  if decide (0xdc00 ≤ uni2 ≤ 0xdfff) then
                                    scanstring rest3
                                      (acc ++ [0x10000 + (uni - 0xd800) * 1024
                                               + (uni2 - 0xdc00)])
                                  else scanstring rest2 (acc ++ [uni])
                              end
                            else scanstring rest2 (acc ++ [uni])
                        | _ => scanstring rest2 (acc ++ [uni])
                        end
                      else scanstring rest2 (acc ++ [uni])
                  end
              | _ => Raise JSONDecodeError
              end
            else
              match unescape esc with
              | Some ch => scanstring rest1 (acc ++ [ch])
              | None => Raise JSONDecodeError
              end
        end
      else if decide (c < 32) then Raise JSONDecodeError
      else scanstring rest (acc ++ [c])
  end.

Definition digit_of (c : Z) : option (Decimal.uint → Decimal.uint) :=
  if decide (c = 48) then Some Decimal.D0
  else if decide (c = 49) then Some Decimal.D1
  else if decide (c = 50) then Some Decimal.D2
  else if decide (c = 51) then Some Decimal.D3
  else if decide (c = 52) then Some Decimal.D4
  else if decide (c = 53) then Some Decimal.D5
  else if decide (c = 54) then Some Decimal.D6
  else if decide (c = 55) then Some Decimal.D7
  else if decide (c = 56) then Some Decimal.D8
  else if decide (c = 57) then Some Decimal.D9
  else None.

(** The longest run of decimal digits at the head of [s]. *)
Fixpoint scan_digits (s : pystr) : Decimal.uint * pystr :=
  match s with
  | c :: s' =>
      match digit_of c with
      | Some d => let '(u, r) := scan_digits s' in (d u, r)
      | None => (Decimal.Nil, s)
      end
  | [] => (Decimal.Nil, [])
  end.

(** The digits matched by [0|[1-9][0-9]*]. *)
Definition scan_intpart (s : pystr) : outcome (Decimal.uint * pystr) :=
  match s with
  | c :: s' =>
      if decide (c = 48) then Ret (Decimal.D0 Decimal.Nil, s')
      else match digit_of c with
           | Some _ => Ret (scan_digits s)
           | None => Raise JSONDecodeError
           end
  | [] => Raise JSONDecodeError
  end.

(** Characters that begin a JSON value other than an integer. *)
Definition starts_other_value (c : Z) : bool :=
  bool_decide (c = 34 ∨ c = 91 ∨ c = 123 ∨ c = 116 ∨ c = 102 ∨ c = 110
               ∨ c = 78 ∨ c = 73).

(** An integer value; a fraction or an exponent makes it a float. *)
Definition scan_int (s : pystr) : outcome (Z * pystr) :=
  match s with
  | [] => Raise JSONDecodeError
  | c :: s' =>
      if starts_other_value c
         || bool_decide (c = 45 ∧ head s' = Some 73) then Unmodelled
      else
        p ← (if decide (c = 45) then
               p ← scan_intpart s'; Ret (Decimal.Neg p.1, p.2)
             else
               p ← scan_intpart s; Ret (Decimal.Pos p.1, p.2));
        match p.2 with
        | d :: _ =>
            if bool_decide (d = 46 ∨ d = 101 ∨ d = 69) then Unmodelled
            else Ret (Z.of_int p.1, p.2)
        | [] => Ret (Z.of_int p.1, p.2)
        end
  end.

(** The members of an object, entered at the opening quote of a key.
    Every member consumes input, so a fuel of [length s] never runs
    out. *)
Fixpoint scan_members (fuel : nat) (s : pystr) (pairs : list (pystr * Z))
    : outcome (list (pystr * Z) * pystr) :=
  match fuel with
  | O => Raise JSONDecodeError
  | S fuel' =>
      match s with
      | c :: s1 =>
          if decide (c = 34) then
            k ← scanstring s1 [];
            match skip_ws k.2 with
            | c2 :: s2 =>
                if decide (c2 = 58) then
                  v ← scan_int (skip_ws s2);
                  let pairs := pairs ++ [(k.1, v.1)] in
                  match skip_ws v.2 with
                  | c3 :: s3 =>
                      if decide (c3 = 125) then Ret (pairs, s3)
                      else if decide (c3 = 44) then
                        scan_members fuel' (skip_ws s3) pairs
                      else Raise JSONDecodeError
                  | [] => Raise JSONDecodeError
                  end
                else Raise JSONDecodeError
            | [] => Raise JSONDecodeError
            end
          else Raise JSONDecodeError
      | [] => Raise JSONDecodeError
      end
  end.

(** [dict(pairs)]: a repeated key keeps its first position and takes its
    last value. *)
Definition dict_of_pairs (pairs : list (pystr * Z)) : dict pystr Z :=
  foldl (λ d kv, PyDict.set d kv.1 kv.2) [] pairs.

Definition loads (s : pystr) : outcome (dict pystr Z) :=
  match skip_ws s with
  | [] => Raise JSONDecodeError
  | c :: s1 =>
      if decide (c = 123) then
        r ← match skip_ws s1 with
            | c1 :: s2 =>
                if decide (c1 = 125) then Ret ([], s2)
                else scan_members (length s1) (skip_ws s1) []
            | [] => Raise JSONDecodeError
            end;
        match skip_ws r.2 with
        | [] => Ret (dict_of_pairs r.1)
        | _ :: _ => Raise JSONDecodeError
        end
      else if starts_other_value c || bool_decide (c = 45 ∨ 48 ≤ c ≤ 57)
      then Unmodelled
      else Raise JSONDecodeError
  end.
End json.

(** ** Files

    The file system maps a path to the bytes stored there.  Opening a file
    for writing always succeeds and truncates it. *)

Record World := mkWorld {
  self : HuffmanCompressor;
  fs : gmap string bytes
}.

Definition M (A : Type) : Type := World → outcome A * World.

Global Instance M_ret : MRet M := λ A a w, (Ret a, w).
Global Instance M_bind : MBind M := λ A B f m w,
  match m w with
  | (Ret a, w') => f a w'
  | (Raise e, w') => (Raise e, w')
  | (Unmodelled, w') => (Unmodelled, w')
  end.

Definition lift {A} (o : outcome A) : M A := λ w, (o, w).
Definition raise {A} (e : exn) : M A := lift (Raise e).
Definition get_self : M HuffmanCompressor := λ w, (Ret (self w), w).
Definition put_self (s : HuffmanCompressor) : M unit :=
  λ w, (Ret (), mkWorld s (fs w)).
Definition modify_self (f : HuffmanCompressor → HuffmanCompressor) : M unit :=
  λ w, (Ret (), mkWorld (f (self w)) (fs w)).

(** [open(path, 'rb').read()] *)
Definition read_bytes (files : gmap string bytes) (path : string)
    : outcome bytes :=
  match files !! path with
  | Some data => Ret data
  | None => Raise FileNotFoundError
  end.

(** [open(path, 'r', encoding='utf-8').read()] *)
Definition read_text (files : gmap string bytes) (path : string)
    : outcome pystr :=
  data ← read_bytes files path;
  s ← utf8_decode data;
  Ret (universal_newlines s).

(** [open(path, 'w')] and [open(path, 'wb')] *)
Definition open_w (path : string) : M unit :=
  λ w, (Ret (), mkWorld (self w) (<[path := []]> (fs w))).

(** [output.write(data)] on a binary file *)
Definition file_write (path : string) (data : bytes) : M unit :=
  λ w, (Ret (), mkWorld (self w)
                  (<[path := default [] (fs w !! path) ++ data]> (fs w))).

(** [output.write(text)] on a text file opened with [encoding='utf-8']
    (on a platform whose line separator is ["\n"]) *)
Definition file_write_text (path : string) (text : pystr) : M unit :=
  data ← lift (utf8_encode text);
  file_write path data.

Definition readline (data : bytes) : bytes * bytes :=
  (fix go (data : bytes) : bytes * bytes :=
     match data with
     | [] => ([], [])
     | b :: rest =>
         if decide (b = 10%Z) then ([b], rest)
         else let '(l, r) := go rest in (b :: l, r)
     end) data.

(** [s.replace(old, new)] for a non-empty [old]: [skip] counts the
    characters of a match that are still to be dropped. *)
Fixpoint str_replace_from (skip : nat) (s old new : string) : string :=
  match s with
  | EmptyString => EmptyString
  | String c s' =>
      match skip with
      | S k => str_replace_from k s' old new
      | O =>
          if String.prefix old s
          then new +:+ str_replace_from (String.length old - 1) s' old new
          else String c (str_replace_from 0 s' old new)
      end
  end.

Definition str_replace (s old new : string) : string :=
  str_replace_from 0 s old new.

(** [self.heap[0]] *)
Definition heap_root (s : HuffmanCompressor) : outcome HuffmanNode :=
  match heap s with
  | root :: _ => Ret root
  | [] => Raise IndexError
  end.

(** ** The two public methods *)

Definition compress_file (path : string) (output_path : option string)
    : M string :=
  (* Read file *)
  text ← (λ w, (read_text (fs w) path, w));
  (* Compute file hash for verification *)
  data ← lift (utf8_encode text);
  let file_hash := SHA256.hexdigest data in
  (* Reset compression state *)
  _ ← put_self (mkCompressor [] [] []);
  (* Create frequency dictionary *)
  let frequency := _make_frequency_dict text in
  (* Build Huffman tree *)
  _ ← modify_self (_build_heap frequency);
  s ← get_self;
  s ← lift (_merge_nodes s);
  _ ← put_self s;
  (* Generate Huffman codes *)
  root ← lift (heap_root s);
  _ ← modify_self (_make_codes_helper root []);
  (* Encode text *)
  s ← get_self;
  encoded_text ← lift (_get_encoded_text text s);
  let padded_encoded_text := _pad_encoded_text encoded_text in
  (* Convert to bytes *)
  byte_array ← lift (_get_byte_array padded_encoded_text);
  (* Determine output path *)
  let output_path := default (path +:+ ".huffman") output_path in
  (* Write compressed file with metadata *)
  _ ← open_w output_path;
  hash_bytes ← lift (utf8_encode file_hash);
  _ ← file_write output_path (hash_bytes ++ [10%Z]);
  let freq_json := json.dumps frequency in
  json_bytes ← lift (utf8_encode freq_json);
  _ ← file_write output_path (json_bytes ++ [10%Z]);
  _ ← file_write output_path byte_array;
  (* Compression ratio: 1 - compressed_size / original_size *)
  let original_size := length data in
  if decide (original_size = 0) then raise ZeroDivisionError
  else mret output_path.

Definition decompress_file (path : string) (output_path : option string)
    : M string :=
  (* Read compressed file *)
  data ← (λ w, (read_bytes (fs w) path, w));
  let '(line1, data) := readline data in
  s1 ← lift (utf8_decode line1);
  let file_hash := strip s1 in
  let '(line2, data) := readline data in
  s2 ← lift (utf8_decode line2);
  let freq_json := strip s2 in
  frequency ← lift (json.loads freq_json);
  let byte_array := data in
  (* Reset decompression state *)
  _ ← put_self (mkCompressor [] [] []);
  (* Rebuild Huffman tree *)
  _ ← modify_self (_build_heap frequency);
  s ← get_self;
  s ← lift (_merge_nodes s);
  _ ← put_self s;
  root ← lift (heap_root s);
  _ ← modify_self (_make_codes_helper root []);
  (* Convert bytes to bit string *)
  let bit_string := byte_array ≫= format_08b in
  (* Remove padding information *)
  let padded_info := take 8 bit_string in
  extra_padding ← lift (int2 padded_info);
  let bit_string := drop 8 bit_string in
  let encoded_text := slice_to_neg bit_string extra_padding in
  (* Decode text *)
  decompressed_text ← lift (_decode_text encoded_text root);
  (* Verify integrity *)
  decoded_bytes ← lift (utf8_encode decompressed_text);
  let current_hash := SHA256.hexdigest decoded_bytes in
  if decide (current_hash ≠ file_hash) then raise ValueError_integrity
  else
    (* Determine output path *)
    let output_path :=
      default (str_replace path ".huffman" ".decompressed") output_path in
    (* Write decompressed file *)
    _ ← open_w output_path;
    _ ← file_write_text output_path decompressed_text;
    mret output_path.

(** ** [main]

    The compressor is local to [main]; [files] are the files of the
    working directory.  [printed] lists the lines that [main] prints
    itself: the two reports of success and the report of the exception
    caught ([except Exception] catches every exception of [exn]).  The
    lines printed inside the two methods are left out, as they are in the
    methods. *)

Inductive printed :=
| Compressed_file_saved_as (compressed_file : string)
| Decompressed_file_saved_as (decompressed_file : string)
| An_error_occurred (e : exn).

Definition main (files : gmap string bytes)
    : outcome (list printed) * gmap string bytes :=
  let compressor := __init__ in
  match compress_file "example.txt" None (mkWorld compressor files) with
  | (Ret compressed_file, w) =>
      match decompress_file compressed_file None w with
      | (Ret decompressed_file, w') =>
          (Ret [Compressed_file_saved_as compressed_file;
                Decompressed_file_saved_as decompressed_file], fs w')
      | (Raise e, w') =>
          (Ret [Compressed_file_saved_as compressed_file; An_error_occurred e],
           fs w')
      | (Unmodelled, w') => (Unmodelled, fs w')
      end
  | (Raise e, w) => (Ret [An_error_occurred e], fs w)
  | (Unmodelled, w) => (Unmodelled, fs w)
  end.

(** * Vocabulary of the properties *)

(** ** Trees and code tables *)

(** The (symbol, frequency) pairs at the leaves, from left to right. *)
Fixpoint leaves (t : HuffmanNode) : list (pystr * Z) :=
  match t with
  | Leaf c f => [(c, f)]
  | Internal _ l r => leaves l ++ leaves r
  end.

(** The nodes of a tree. *)
Fixpoint subtrees (t : HuffmanNode) : list HuffmanNode :=
  t :: match t with
       | Leaf _ _ => []
       | Internal _ l r => subtrees l ++ subtrees r
       end.

(** Lines 124-128 and 184-186: the root left in [self.heap[0]] after
    [_build_heap] and [_merge_nodes] on a fresh heap. *)
Definition build_tree (frequency : dict pystr Z) : outcome HuffmanNode :=
  s ← _merge_nodes (_build_heap frequency (mkCompressor [] [] []));
  heap_root s.

(** Lines 124-129 and 184-187: the code table left in [self.codes]. *)
Definition code_table (frequency : dict pystr Z) : outcome (dict pystr bits) :=
  root ← build_tree frequency;
  Ret (codes (_make_codes_helper root [] (mkCompressor [root] [] []))).

(** The (symbol, code) pairs assigned by [_make_codes_helper], in the
    order of the traversal. *)
Fixpoint paths (t : HuffmanNode) (code : bits) : list (pystr * bits) :=
  match t with
  | Leaf c _ => [(c, code)]
  | Internal _ l r => paths l (code ++ [false]) ++ paths r (code ++ [true])
  end.

(** No code is a prefix of the code of another symbol. *)
Definition prefix_free (d : list (pystr * bits)) : Prop :=
  ∀ k1 c1 k2 c2, (k1, c1) ∈ d → (k2, c2) ∈ d → k1 ≠ k2 →
    ¬ c1 `prefix_of` c2 ∧ ¬ c2 `prefix_of` c1.

(** The concatenation of the codes of the characters of [text]. *)
Fixpoint encoding (table : dict pystr bits) (text : pystr) : option bits :=
  match text with
  | [] => Some []
  | c :: text' =>
      code ← PyDict.get table [c];
      rest ← encoding table text';
      Some (code ++ rest)
  end.

(** The lengths of the codes of the symbols [keys], in that order. *)
Definition code_lengths (table : dict pystr bits) (keys : list pystr)
    : list (option nat) :=
  (λ k, length <$> PyDict.get table k) <$> keys.

(** At every internal node the left child is not more frequent than the
    right child. *)
Fixpoint lighter_left (t : HuffmanNode) : Prop :=
  match t with
  | Leaf _ _ => True
  | Internal _ l r =>
      (Node.freq l ≤ Node.freq r)%Z ∧ lighter_left l ∧ lighter_left r
  end.

(** The length of the code of [k], 0 when [k] has no code. *)
Definition code_length (table : dict pystr bits) (k : pystr) : Z :=
  Z.of_nat (length (default [] (PyDict.get table k))).

(** The number denoted by a string of binary digits. *)
Definition bits_val (s : bits) : Z :=
  foldl (λ acc (b : bool), 2 * acc + (if b then 1 else 0))%Z 0%Z s.

(** ** Characters *)

(** A code point of a Python [str], and a Unicode scalar value (what
    decoding UTF-8 can produce). *)
Definition code_point (c : Z) : Prop := (0 ≤ c ≤ 0x10FFFF)%Z.

Definition scalar (c : Z) : Prop := (0 ≤ c < 0xD800 ∨ 0xE000 ≤ c ≤ 0x10FFFF)%Z.

Definition printable (c : Z) : Prop := (32 ≤ c ≤ 126)%Z.

Definition is_digit (c : Z) : Prop := (48 ≤ c ≤ 57)%Z.

Definition is_hex (c : Z) : Prop := (48 ≤ c ≤ 57 ∨ 97 ≤ c ≤ 102)%Z.

(** What follows a value inside a JSON object: a comma or the closing
    brace. *)
Definition delimited (rest : pystr) : Prop :=
  ∃ c r, rest = c :: r ∧ (c = 44 ∨ c = 125)%Z.

(** The frequency tables that the compressor writes: distinct keys made
    of Unicode scalar values. *)
Definition wf_table (d : dict pystr Z) : Prop :=
  NoDup d.*1 ∧ Forall (Forall scalar) d.*1.

(** ** Texts and paths *)

(** The body of the loop of [_make_frequency_dict]. *)
Definition count_step (frequency : dict pystr Z) (character : Z) : dict pystr Z :=
  PyDict.set frequency [character]
    (default 0%Z (PyDict.get frequency [character]) + 1)%Z.

(** The characters of a text, each once, in the order of their first
    occurrence. *)
Fixpoint first_occurrences (text : pystr) : list Z :=
  match text with
  | [] => []
  | c :: text' => c :: filter (λ x, x ≠ c) (first_occurrences text')
  end.

(** [text.count(c)] for a character [c]. *)
Definition str_count (c : Z) (text : pystr) : Z :=
  Z.of_nat (length (filter (λ x, x = c) text)).

(** [old in s] *)
Fixpoint str_contains (s old : string) : bool :=
  String.prefix old s ||
  match s with
  | EmptyString => false
  | String _ s' => str_contains s' old
  end.

(** ** [decompress_file] in three stages

    Lines 167-176 (reading the container), lines 184-199 (rebuilding the
    tree and decoding) and lines 201-204 (verification). *)

Definition parse_container (data : bytes)
    : outcome (pystr * dict pystr Z * bytes) :=
  let '(line1, data) := readline data in
  s1 ← utf8_decode line1;
  let '(line2, data) := readline data in
  s2 ← utf8_decode line2;
  frequency ← json.loads (strip s2);
  Ret (strip s1, frequency, data).

Definition decode_payload (frequency : dict pystr Z) (byte_array : bytes)
    : outcome pystr :=
  root ← build_tree frequency;
  let bit_string := byte_array ≫= format_08b in
  extra_padding ← int2 (take 8 bit_string);
  _decode_text (slice_to_neg (drop 8 bit_string) extra_padding) root.

(** The decoded text and its UTF-8 encoding, when the recomputed hash
    equals [file_hash]. *)
Definition verify (file_hash : pystr) (decompressed_text : pystr)
    : outcome (pystr * bytes) :=
  decoded_bytes ← utf8_encode decompressed_text;
  if decide (SHA256.hexdigest decoded_bytes ≠ file_hash)
  then Raise ValueError_integrity
  else Ret (decompressed_text, decoded_bytes).

Definition decompress (files : gmap string bytes) (path : string)
    : outcome (pystr * bytes) :=
  data ← read_bytes files path;
  c ← parse_container data;
  text ← decode_payload c.1.2 c.2;
  verify c.1.1 text.

(** Lines 207-208: the path of the decompressed file. *)
Definition decompressed_path (path : string) (output_path : option string)
    : string :=
  default (str_replace path ".huffman" ".decompressed") output_path.

(** ** Corrupted containers *)

(** Bit [k] of byte [j] flipped, for [k < 8]: bit 0 is the lowest bit of
    the byte. *)
Definition flip_bit (data : bytes) (j k : nat) : bytes :=
  alter (λ b, Z.lxor b (2 ^ Z.of_nat k)) j data.

(** The length of the two header lines of a container. *)
Definition header_length (data : bytes) : nat :=
  let '(line1, rest) := readline data in
  let '(line2, _) := readline rest in
  length line1 + length line2.

(** ** The heap order *)

(** [c] is a child of [p] in the implicit binary tree of a heap list. *)
Definition edge (p c : nat) : Prop := c = 2 * p + 1 ∨ c = 2 * p + 2.

(** The min-heap property of [heapq]: no element is smaller than its
    parent. *)
Definition heap_ordered {A} (key : A → Z) (h : list A) : Prop :=
  ∀ p c x y, edge p c → h !! p = Some x → h !! c = Some y → (key x ≤ key y)%Z.

(** The order holds on every edge that does not end at [pos]. *)
Definition ordered_except {A} (key : A → Z) (h : list A) (pos : nat) : Prop :=
  ∀ p c x y, edge p c → c ≠ pos →
    h !! p = Some x → h !! c = Some y → (key x ≤ key y)%Z.

(** The order holds on every edge that does not touch [pos]. *)
Definition ordered_away {A} (key : A → Z) (h : list A) (pos : nat) : Prop :=
  ∀ p c x y, edge p c → c ≠ pos → p ≠ pos →
    h !! p = Some x → h !! c = Some y → (key x ≤ key y)%Z.

(** The parent of [pos] is not larger than the children of [pos]. *)
Definition ordered_across {A} (key : A → Z) (h : list A) (pos : nat) : Prop :=
  ∀ g c x y, edge g pos → edge pos c →
    h !! g = Some x → h !! c = Some y → (key x ≤ key y)%Z.

(** ** The cost of a tree *)

(** The sum of the leaf frequencies. *)
Fixpoint weight (t : HuffmanNode) : Z :=
  match t with
  | Leaf _ f => f
  | Internal _ l r => (weight l + weight r)%Z
  end.

(** The leaves of [t] with their depths, the root being at depth [d]. *)
Fixpoint leaf_depths (d : nat) (t : HuffmanNode) : list (Z * nat) :=
  match t with
  | Leaf _ f => [(f, d)]
  | Internal _ l r => leaf_depths (S d) l ++ leaf_depths (S d) r
  end.

(** The sum of frequency times depth over a list of leaves. *)
Definition dot (l : list (Z * nat)) : Z :=
  foldr (λ p acc, p.1 * Z.of_nat p.2 + acc)%Z 0%Z l.

(** The weighted sum of the leaf depths of a tree: the length of the
    encoded text when the frequencies are those of the text. *)
Definition cost (t : HuffmanNode) : Z := dot (leaf_depths 0 t).

Definition sum_cost (h : list HuffmanNode) : Z :=
  foldr (λ t acc, cost t + acc)%Z 0%Z h.

(** The frequency stored in every internal node is the sum of the
    frequencies stored in its children. *)
Fixpoint consistent (t : HuffmanNode) : Prop :=
  match t with
  | Leaf _ _ => True
  | Internal f l r =>
      f = (Node.freq l + Node.freq r)%Z ∧ consistent l ∧ consistent r
  end.

Fixpoint height (t : HuffmanNode) : nat :=
  match t with
  | Leaf _ _ => 0
  | Internal _ l r => S (height l `max` height r)
  end.

(** The tree [t] with the frequencies [ws] at its leaves, from left to
    right. *)
Fixpoint relabel (t : HuffmanNode) (ws : list Z) : HuffmanNode :=
  match t with
  | Leaf c _ => Leaf c (default 0%Z (head ws))
  | Internal f l r =>
      Internal f (relabel l (take (length (leaves l)) ws))
                 (relabel r (drop (length (leaves l)) ws))
  end.

(** ** Example inputs *)

(** A file system with one file, and a fresh compressor. *)
Definition example_world (text : bytes) : World :=
  mkWorld __init__ {[ "example.txt"%string := text ]}.

Definition empty_world : World :=
  mkWorld __init__ {[ "empty.txt"%string := [] ]}.

(** The texts ["aaabbc"], ["zzzz"] and ["ab"]. *)
Definition aaabbc : pystr := [97; 97; 97; 98; 98; 99]%Z.

Definition zzzz : pystr := [122; 122; 122; 122]%Z.

Definition ab : pystr := [97; 98]%Z.

(** The world after [compress_file('example.txt')] on a file holding
    [text], and the container written there. *)
Definition compressed_world (text : bytes) : World :=
  (compress_file "example.txt" None (example_world text)).2.

Definition compressed_container (text : bytes) : bytes :=
  default [] (fs (compressed_world text) !! "example.txt.huffman"%string).

(** The container of ["ab"] with the lowest bit of its last byte, a
    padding bit, flipped. *)
Definition flipped_world : World :=
  mkWorld __init__
    {[ "example.txt.huffman"%string :=
         flip_bit (compressed_container ab)
                  (length (compressed_container ab) - 1) 0 ]}.

(** The reference distribution {a:5, b:9, c:12, d:13, e:16, f:45}. *)
Definition reference_table : dict pystr Z :=
  [([97], 5); ([98], 9); ([99], 12); ([100], 13); ([101], 16); ([102], 45)]%Z.

(** * Properties *)

(** ** Lists updated in place *)

Section list_update.
Context {A : Type}.
Implicit Types l : list A.

Lemma insert_Permutation l i x :
  i < length l → <[i:=x]> l ≡ₚ x :: delete i l.
Proof.
  intros Hi. rewrite insert_take_drop by done. rewrite delete_take_drop.
  by rewrite <- Permutation_middle.
Qed.

Lemma delete_insert_same l i x : delete i (<[i:=x]> l) = delete i l.
Proof.
  revert i. induction l as [|a l IH]; intros [|i]; simpl; try done.
  by rewrite IH.
Qed.

(** Moving the hole of a sift from [i] to [j]. *)
Lemma insert_hole_move l i j p x :
  l !! j = Some p → i ≠ j → i < length l →
  <[j:=x]> (<[i:=p]> l) ≡ₚ <[i:=x]> l.
Proof.
  intros Hj Hij Hi.
  assert (Hjl : j < length l) by (by eapply lookup_lt_Some).
  rewrite (insert_Permutation (<[i:=p]> l) j x) by (by rewrite length_insert).
  rewrite (insert_Permutation l i x) by done.
  apply Permutation_skip.
  assert (H1 : <[i:=p]> l ≡ₚ p :: delete j (<[i:=p]> l)).
  { apply delete_Permutation. by rewrite list_lookup_insert_ne. }
  assert (H2 : <[i:=p]> l ≡ₚ p :: delete i l) by (by apply insert_Permutation).
  rewrite H1 in H2. by apply Permutation_cons_inv in H2.
Qed.
End list_update.

(** ** [heapq] keeps the elements of the heap *)

Section heapq_perm.
Context {A : Type} (lt : A → A → bool).
Implicit Types heap : list A.

Lemma _siftdown_loop_perm fuel heap startpos pos newitem :
  pos < length heap →
  heapq._siftdown_loop lt fuel heap startpos pos newitem
    ≡ₚ <[pos:=newitem]> heap.
Proof.
  revert heap pos.
  induction fuel as [|fuel IH]; intros heap pos Hpos;
    cbn [heapq._siftdown_loop].
  { done. }
  case_decide as Hlt; [|done].
  assert (Hpp : (pos - 1) / 2 < pos).
  { apply Nat.Div0.div_lt_upper_bound. lia. }
  destruct (heap !! ((pos - 1) / 2)) as [parent|] eqn:Hparent.
  - destruct (lt newitem parent); [|done].
    rewrite IH by (rewrite length_insert; lia).
    apply insert_hole_move; [done|lia|done].
  - apply lookup_ge_None in Hparent. lia.
Qed.

Lemma _siftdown_perm heap startpos pos :
  heapq._siftdown lt heap startpos pos ≡ₚ heap.
Proof.
  unfold heapq._siftdown. destruct (heap !! pos) as [newitem|] eqn:Hpos; [|done].
  rewrite _siftdown_loop_perm by (by eapply lookup_lt_Some).
  by rewrite list_insert_id.
Qed.

Lemma _siftup_loop_perm fuel heap endpos pos :
  pos < length heap → endpos ≤ length heap →
  let r := heapq._siftup_loop lt fuel heap endpos pos in
  r.2 < length r.1 ∧ length r.1 = length heap ∧ pos ≤ r.2 ∧
  ∀ x, <[r.2:=x]> r.1 ≡ₚ <[pos:=x]> heap.
Proof.
  revert heap pos.
  induction fuel as [|fuel IH]; intros heap pos Hpos Hend;
    cbn [heapq._siftup_loop].
  { done. }
  case_decide as Hchild; [|done].
  set (childpos := match heap !! (2 * pos + 1), heap !! (2 * pos + 1 + 1) with
                   | Some c, Some r =>
                       if bool_decide (2 * pos + 1 + 1 < endpos) && negb (lt c r)
                       then 2 * pos + 1 + 1 else 2 * pos + 1
                   | _, _ => 2 * pos + 1
                   end).
  assert (Hc : pos < childpos ∧ childpos < length heap).
  { unfold childpos.
    destruct (heap !! (2 * pos + 1)) as [c|]; [|lia].
    destruct (heap !! (2 * pos + 1 + 1)) as [r|] eqn:Hr; [|lia].
    apply lookup_lt_Some in Hr.
    destruct (bool_decide _ && negb _); lia. }
  fold childpos.
  destruct (heap !! childpos) as [c|] eqn:Hcl; simpl.
  - destruct (IH (<[pos:=c]> heap) childpos) as (H1 & H2 & H3 & H4).
    { rewrite length_insert; lia. }
    { rewrite length_insert; lia. }
    split_and!; [done|by rewrite H2, length_insert|lia|].
    intros x. rewrite H4. apply insert_hole_move; [done|lia|done].
  - apply lookup_ge_None in Hcl. lia.
Qed.

Lemma _siftup_perm heap pos : heapq._siftup lt heap pos ≡ₚ heap.
Proof.
  unfold heapq._siftup.
  destruct (heap !! pos) as [newitem|] eqn:Hpos; [|done].
  pose proof (lookup_lt_Some _ _ _ Hpos) as Hlt.
  pose proof (_siftup_loop_perm (length heap) heap (length heap) pos Hlt
                (Nat.le_refl _)) as H.
  destruct (heapq._siftup_loop lt (length heap) heap (length heap) pos)
    as [h p]; simpl in H.
  destruct H as (H1 & H2 & H3 & H4).
  rewrite _siftdown_loop_perm by (by rewrite length_insert).
  rewrite list_insert_insert_eq, H4. by rewrite list_insert_id.
Qed.

Lemma heappush_perm heap item : heapq.heappush lt heap item ≡ₚ item :: heap.
Proof.
  unfold heapq.heappush. rewrite _siftdown_perm.
  by rewrite Permutation_app_comm.
Qed.

Lemma heappush_length heap item :
  length (heapq.heappush lt heap item) = S (length heap).
Proof. by rewrite heappush_perm. Qed.

Lemma heappop_perm heap item heap' :
  heapq.heappop lt heap = Ret (item, heap') → heap ≡ₚ item :: heap'.
Proof.
  unfold heapq.heappop. destruct (last heap) as [lastelt|] eqn:Hlast; [|done].
  apply last_Some in Hlast as [l' ->].
  rewrite removelast_last.
  destruct l' as [|returnitem l']; intros [= <- <-]; [done|].
  rewrite _siftup_perm. simpl. apply Permutation_skip.
  by rewrite <- Permutation_cons_append.
Qed.

Lemma heappop_nonempty heap :
  heap ≠ [] → ∃ item heap', heapq.heappop lt heap = Ret (item, heap').
Proof.
  intros Hne. unfold heapq.heappop.
  destruct (last heap) as [lastelt|] eqn:Hlast.
  - destruct (removelast heap); eauto.
  - apply last_None in Hlast. done.
Qed.

Lemma heappop_length heap item heap' :
  heapq.heappop lt heap = Ret (item, heap') → length heap = S (length heap').
Proof. intros H%heappop_perm. by rewrite H. Qed.
End heapq_perm.

(** ** The tree built from a frequency table *)

Lemma leaves_nonempty t : 0 < length (leaves t).
Proof.
  induction t as [c f|f l IHl r IHr]; simpl; [lia|].
  rewrite length_app. lia.
Qed.

Lemma leaves_internal t :
  1 < length (leaves t) → ∃ f l r, t = Internal f l r.
Proof. destruct t as [c f|f l r]; simpl; [lia|eauto]. Qed.

Lemma forest_leaves_length (h : list HuffmanNode) :
  length h ≤ length (h ≫= leaves).
Proof.
  induction h as [|t h IH]; [done|].
  rewrite bind_cons, length_app. pose proof (leaves_nonempty t). simpl. lia.
Qed.

Lemma _build_heap_perm frequency s :
  heap (_build_heap frequency s)
    ≡ₚ ((λ kv, Leaf kv.1 kv.2) <$> frequency) ++ heap s.
Proof.
  unfold _build_heap; simpl. generalize (heap s) as h.
  induction frequency as [|kv d IH]; intros h; simpl; [done|].
  rewrite IH, heappush_perm. by rewrite <- Permutation_middle.
Qed.

Lemma _build_heap_leaves frequency :
  heap (_build_heap frequency (mkCompressor [] [] [])) ≫= leaves ≡ₚ frequency.
Proof.
  rewrite _build_heap_perm. simpl. rewrite app_nil_r.
  induction frequency as [|[k v] d IH]; [done|].
  rewrite fmap_cons, bind_cons. simpl. by rewrite IH.
Qed.

Lemma _merge_nodes_loop_root fuel (h : list HuffmanNode) :
  length h ≤ fuel → h ≠ [] →
  ∃ root, _merge_nodes_loop fuel h = Ret [root] ∧ leaves root ≡ₚ h ≫= leaves.
Proof.
  revert h. induction fuel as [|fuel IH]; intros h Hlen Hne.
  { destruct h; [done|simpl in Hlen; lia]. }
  cbn [_merge_nodes_loop]. case_decide as Hlt.
  - destruct (heappop_nonempty Node.__lt__ h Hne) as (node1 & h1 & Hpop1).
    pose proof (heappop_length _ _ _ _ Hpop1) as Hl1.
    assert (Hne1 : h1 ≠ []) by (intros ->; simpl in Hl1; lia).
    destruct (heappop_nonempty Node.__lt__ h1 Hne1) as (node2 & h2 & Hpop2).
    pose proof (heappop_length _ _ _ _ Hpop2) as Hl2.
    rewrite Hpop1. cbn [mbind outcome_bind fst snd]. rewrite Hpop2.
    cbn [mbind outcome_bind fst snd].
    set (merged := Internal _ node1 node2).
    destruct (IH (heapq.heappush Node.__lt__ h2 merged)) as (root & Hr & Hleaves).
    { rewrite heappush_length. lia. }
    { intros Hnil. apply (f_equal length) in Hnil.
      rewrite heappush_length in Hnil. done. }
    exists root. split; [done|].
    rewrite Hleaves, heappush_perm, bind_cons.
    apply heappop_perm in Hpop1, Hpop2.
    rewrite Hpop1, Hpop2, !bind_cons. simpl. by rewrite (assoc_L (++)).
  - destruct h as [|root [|]]; [done| |simpl in Hlt; lia].
    exists root. split; [done|]. rewrite bind_cons. simpl. by rewrite app_nil_r.
Qed.

(** A non-empty table yields a tree whose leaves are the entries of the
    table. *)
Lemma build_tree_leaves frequency :
  frequency ≠ [] →
  ∃ root, build_tree frequency = Ret root ∧ leaves root ≡ₚ frequency.
Proof.
  intros Hne. unfold build_tree, _merge_nodes.
  set (s := _build_heap frequency _).
  destruct (_merge_nodes_loop_root (length (heap s)) (heap s)) as (root & Hr & Hl).
  { done. }
  { intros Hnil. pose proof (_build_heap_leaves frequency) as H.
    fold s in H. rewrite Hnil in H. simpl in H.
    apply Permutation_nil_l in H. done. }
  exists root. rewrite Hr. split; [done|].
  rewrite Hl. apply _build_heap_leaves.
Qed.

Lemma build_tree_empty : build_tree [] = Raise IndexError.
Proof. reflexivity. Qed.

(** ** Dictionaries *)

Section dict_facts.
Context {K V : Type} `{EqDecision K}.
Implicit Types d : list (K * V).

Lemma dict_set_fresh d k v : k ∉ d.*1 → PyDict.set d k v = d ++ [(k, v)].
Proof.
  induction d as [|[k' v'] d IH]; simpl; [done|].
  intros Hk. apply not_elem_of_cons in Hk as [Hne Hk].
  rewrite decide_False by done. by rewrite IH.
Qed.

Lemma dict_set_keys d k v :
  (PyDict.set d k v).*1 = if decide (k ∈ d.*1) then d.*1 else d.*1 ++ [k].
Proof.
  induction d as [|[k' v'] d IH]; csimpl; [done|].
  destruct (decide (k = k')) as [->|Hne]; csimpl.
  - rewrite decide_True by left. done.
  - rewrite IH. destruct (decide (k ∈ d.*1)) as [Hin|Hnin].
    + rewrite decide_True by (by right). done.
    + rewrite decide_False; [done|]. by intros [?|?]%elem_of_cons.
Qed.

Lemma dict_set_NoDup d k v : NoDup d.*1 → NoDup (PyDict.set d k v).*1.
Proof.
  intros Hd. rewrite dict_set_keys. case_decide; [done|].
  apply NoDup_app. split_and!; [done| |apply NoDup_singleton].
  intros x Hx ->%list_elem_of_singleton. done.
Qed.

Lemma dict_get_set d k v k' :
  PyDict.get (PyDict.set d k v) k' =
    if decide (k' = k) then Some v else PyDict.get d k'.
Proof.
  induction d as [|[k0 v0] d IH]; simpl.
  - by destruct (decide (k' = k)).
  - destruct (decide (k = k0)) as [->|Hne]; simpl.
    + by destruct (decide (k' = k0)).
    + rewrite IH. destruct (decide (k' = k0)) as [->|]; [|done].
      by rewrite decide_False.
Qed.

Lemma dict_get_Some d k v : PyDict.get d k = Some v → (k, v) ∈ d.
Proof.
  induction d as [|[k' v'] d IH]; simpl; [done|].
  case_decide as Hk.
  - intros [= ->]. subst. left.
  - intros H. right. auto.
Qed.

Lemma dict_get_None d k : PyDict.get d k = None ↔ k ∉ d.*1.
Proof.
  induction d as [|[k' v'] d IH]; simpl.
  - split; [intros _; apply not_elem_of_nil|done].
  - case_decide as Hk.
    + subst. split; [done|]. intros []. left.
    + rewrite IH, not_elem_of_cons. tauto.
Qed.

Lemma dict_get_elem d k v :
  NoDup d.*1 → (k, v) ∈ d → PyDict.get d k = Some v.
Proof.
  induction d as [|[k' v'] d IH]; simpl.
  - intros _ []%elem_of_nil.
  - intros [Hk' Hd]%NoDup_cons [[= -> ->]|Hin]%elem_of_cons.
    + by rewrite decide_True.
    + rewrite decide_False; [auto|].
      intros ->. apply Hk'. apply list_elem_of_fmap. by exists (k', v).
Qed.

(** Assigning distinct fresh keys appends them in order. *)
Lemma dict_set_all d (l : list (K * V)) :
  NoDup (d.*1 ++ l.*1) →
  foldl (λ d kv, PyDict.set d kv.1 kv.2) d l = d ++ l.
Proof.
  revert d. induction l as [|[k v] l IH]; intros d Hnd; simpl.
  - by rewrite app_nil_r.
  - assert (Hk : k ∉ d.*1).
    { apply NoDup_app in Hnd as (_ & Hnd & _). intros Hk.
      apply (Hnd k Hk). left. }
    rewrite dict_set_fresh by done. rewrite IH.
    + by rewrite <- (assoc_L (++)).
    + rewrite fmap_app. simpl. by rewrite <- (assoc_L (++)).
Qed.
End dict_facts.

(** ** The code table *)

Lemma _make_codes_helper_codes root code s :
  codes (_make_codes_helper root code s)
    = foldl (λ d kv, PyDict.set d kv.1 kv.2) (codes s) (paths root code).
Proof.
  revert code s. induction root as [c f|f l IHl r IHr]; intros code s; simpl.
  - done.
  - by rewrite IHr, IHl, foldl_app.
Qed.

Lemma _make_codes_helper_reverse_mapping root code s :
  reverse_mapping (_make_codes_helper root code s)
    = foldl (λ d kv, PyDict.set d kv.2 kv.1) (reverse_mapping s) (paths root code).
Proof.
  revert code s. induction root as [c f|f l IHl r IHr]; intros code s; simpl.
  - done.
  - by rewrite IHr, IHl, foldl_app.
Qed.

Lemma _make_codes_helper_heap root code s :
  heap (_make_codes_helper root code s) = heap s.
Proof.
  revert code s. induction root as [c f|f l IHl r IHr]; intros code s; simpl.
  - done.
  - by rewrite IHr, IHl.
Qed.

Lemma paths_keys t code : (paths t code).*1 = (leaves t).*1.
Proof.
  revert code. induction t as [c f|f l IHl r IHr]; intros code; simpl; [done|].
  by rewrite !fmap_app, IHl, IHr.
Qed.

Lemma paths_shift t code :
  paths t code = (λ kv, (kv.1, code ++ kv.2)) <$> paths t [].
Proof.
  revert code. induction t as [c f|f l IHl r IHr]; intros code; simpl.
  - by rewrite app_nil_r.
  - rewrite (IHl (code ++ _)), (IHr (code ++ _)), (IHl [false]), (IHr [true]).
    rewrite fmap_app, <- !list_fmap_compose.
    f_equal; apply list_fmap_ext; intros i [k p] _; simpl;
      by rewrite <- (assoc_L (++)).
Qed.

Lemma paths_extend t code k p :
  (k, p) ∈ paths t code → ∃ q, p = code ++ q ∧ (k, q) ∈ paths t [].
Proof.
  rewrite paths_shift. intros ([k' q] & [= -> ->] & Hin)%list_elem_of_fmap.
  eauto.
Qed.

Lemma paths_prefix_free t code : prefix_free (paths t code).
Proof.
  revert code. induction t as [c f|f l IHl r IHr]; intros code.
  - intros k1 c1 k2 c2 [= -> ->]%list_elem_of_singleton
      [= -> ->]%list_elem_of_singleton. done.
  - assert (Hcross : ∀ k1 c1 k2 c2,
      (k1, c1) ∈ paths l (code ++ [false]) →
      (k2, c2) ∈ paths r (code ++ [true]) →
      ¬ c1 `prefix_of` c2 ∧ ¬ c2 `prefix_of` c1).
    { intros k1 c1 k2 c2 (q1 & -> & _)%paths_extend (q2 & -> & _)%paths_extend.
      rewrite <- !(assoc_L (++)). simpl.
      split; intros [z Hz]; rewrite <- !(assoc_L (++)) in Hz;
        apply app_inv_head in Hz; discriminate. }
    intros k1 c1 k2 c2. simpl.
    intros [H1|H1]%elem_of_app [H2|H2]%elem_of_app Hne.
    + by eapply IHl.
    + by eapply Hcross.
    + apply and_comm. by eapply Hcross.
    + by eapply IHr.
Qed.

(** ** Decoding inverts encoding *)

(** Walking the code of a leaf from an internal node emits the symbol of
    that leaf and returns to the root. *)
Lemma _decode_text_loop_code t c q root rest decoded :
  (c, q) ∈ paths t [] → Node.char t = None →
  _decode_text_loop (q ++ rest) root t decoded
    = _decode_text_loop rest root root (decoded ++ c).
Proof.
  revert q. induction t as [c' f|f l IHl r IHr]; intros q Hin Hchar; [done|].
  simpl in Hin.
  apply elem_of_app in Hin as [(q' & -> & Hin)%paths_extend
                              |(q' & -> & Hin)%paths_extend]; simpl.
  - destruct l as [c' f'|f' l1 l2].
    + apply list_elem_of_singleton in Hin as [= -> ->]. done.
    + by apply IHl.
  - destruct r as [c' f'|f' r1 r2].
    + apply list_elem_of_singleton in Hin as [= -> ->]. done.
    + by apply IHr.
Qed.

Lemma _get_encoded_text_loop_encoding text s encoded_text enc :
  encoding (codes s) text = Some enc →
  _get_encoded_text_loop text s encoded_text = Ret (encoded_text ++ enc).
Proof.
  revert encoded_text enc.
  induction text as [|c text IH]; intros encoded_text enc; simpl.
  - intros [= <-]. by rewrite app_nil_r.
  - unfold PyDict.getitem.
    destruct (PyDict.get (codes s) [c]) as [code|]; simpl; [|done].
    destruct (encoding (codes s) text) as [rest|]; simpl; [|done].
    intros [= <-]. rewrite (IH _ rest) by done. by rewrite (assoc_L (++)).
Qed.

Lemma encoding_total (table : dict pystr bits) text :
  (∀ c, c ∈ text → [c] ∈ table.*1) → is_Some (encoding table text).
Proof.
  induction text as [|c text IH]; intros Hall; simpl; [by eexists|].
  destruct (PyDict.get table [c]) as [code|] eqn:Hget; simpl.
  - destruct IH as [rest ->]; [|by eexists].
    intros c' Hc'. apply Hall. by right.
  - apply dict_get_None in Hget. destruct Hget. apply Hall. left.
Qed.

Lemma _decode_text_loop_encoding root text enc decoded :
  Node.char root = None →
  encoding (paths root []) text = Some enc →
  _decode_text_loop enc root root decoded = Ret (decoded ++ text).
Proof.
  intros Hroot. revert enc decoded.
  induction text as [|c text IH]; intros enc decoded; simpl.
  - intros [= <-]. by rewrite app_nil_r.
  - destruct (PyDict.get (paths root []) [c]) as [code|] eqn:Hget; simpl; [|done].
    destruct (encoding (paths root []) text) as [rest|]; simpl; [|done].
    intros [= <-]. apply dict_get_Some in Hget.
    rewrite (_decode_text_loop_code root [c] code) by done.
    rewrite (IH rest) by done. by rewrite <- (assoc_L (++)).
Qed.

(** ** The frequency table of a text *)

Lemma _make_frequency_dict_acc (text : pystr) (d : dict pystr Z) :
  let d' := foldl (λ frequency character,
                     PyDict.set frequency [character]
                       (default 0%Z (PyDict.get frequency [character]) + 1)%Z)
                  d text in
  (NoDup d.*1 → NoDup d'.*1) ∧
  (∀ k, k ∈ d'.*1 ↔ k ∈ d.*1 ∨ ∃ c, c ∈ text ∧ k = [c]).
Proof.
  revert d. induction text as [|c text IH]; intros d; simpl.
  - split; [done|]. intros k. split; [by left|].
    intros [?|(c & []%elem_of_nil & _)]. done.
  - destruct (IH (PyDict.set d [c]
                    (default 0%Z (PyDict.get d [c]) + 1)%Z)) as [IH1 IH2].
    split.
    + intros Hd. by apply IH1, dict_set_NoDup.
    + intros k. rewrite IH2, dict_set_keys. case_decide as Hc.
      * split.
        -- intros [?|(c' & Hc' & ->)]; [by left|]. right. exists c'.
           split; [by right|done].
        -- intros [?|(c' & [->|Hc']%elem_of_cons & ->)]; [by left|by left|].
           right. eauto.
      * rewrite elem_of_app, list_elem_of_singleton. split.
        -- intros [[?| ->]|(c' & Hc' & ->)]; [by left| |].
           ++ right. exists c. split; [left|done].
           ++ right. exists c'. split; [by right|done].
        -- intros [?|(c' & [->|Hc']%elem_of_cons & ->)].
           ++ by left; left.
           ++ by left; right.
           ++ right. eauto.
Qed.

Lemma _make_frequency_dict_NoDup text : NoDup (_make_frequency_dict text).*1.
Proof.
  apply (_make_frequency_dict_acc text []). simpl. apply NoDup_nil_2.
Qed.

Lemma _make_frequency_dict_keys text k :
  k ∈ (_make_frequency_dict text).*1 ↔ ∃ c, c ∈ text ∧ k = [c].
Proof.
  destruct (_make_frequency_dict_acc text []) as [_ H]. simpl in H.
  unfold _make_frequency_dict. rewrite H. split; [|by right].
  by intros [[]%elem_of_nil|?].
Qed.

Lemma _make_frequency_dict_nil text : _make_frequency_dict text = [] → text = [].
Proof.
  intros H. destruct text as [|c text]; [done|].
  assert (Hin : [c] ∈ (_make_frequency_dict (c :: text)).*1).
  { apply _make_frequency_dict_keys. exists c. split; [left|done]. }
  rewrite H in Hin. by apply elem_of_nil in Hin.
Qed.

(** ** Padding and packing *)

Lemma int2_bits_val s : s ≠ [] → int2 s = Ret (bits_val s).
Proof. by destruct s. Qed.

Lemma octet_inv (s : bits) :
  length s = 8 → ∃ b0 b1 b2 b3 b4 b5 b6 b7, s = [b0; b1; b2; b3; b4; b5; b6; b7].
Proof.
  intros H. do 8 (destruct s as [|? s]; [done|]). destruct s; [|done].
  by do 8 eexists.
Qed.

Lemma format_08b_bits_val (s : bits) :
  length s = 8 → format_08b (bits_val s) = s ∧ (0 ≤ bits_val s < 256)%Z.
Proof.
  intros (b0 & b1 & b2 & b3 & b4 & b5 & b6 & b7 & ->)%octet_inv.
  destruct b0, b1, b2, b3, b4, b5, b6, b7; by vm_compute.
Qed.

Lemma padding_count_range (n : nat) :
  let extra := 8 - n `mod` 8 in 1 ≤ extra ≤ 8 ∧ (n + extra) `mod` 8 = 0.
Proof.
  pose proof (Nat.mod_upper_bound n 8) as H. cbv zeta. split; [lia|].
  apply Nat.Div0.mod_divides. exists (n `div` 8 + 1).
  pose proof (Nat.div_mod_eq n 8). lia.
Qed.

Lemma format_08b_count (extra : nat) :
  1 ≤ extra ≤ 8 →
  length (format_08b (Z.of_nat extra)) = 8 ∧
  int2 (format_08b (Z.of_nat extra)) = Ret (Z.of_nat extra).
Proof.
  intros H. do 9 (destruct extra as [|extra]; [by (lia || vm_compute)|]). lia.
Qed.

Lemma _pad_encoded_text_spec (encoded_text : bits) :
  let extra := 8 - length encoded_text `mod` 8 in
  _pad_encoded_text encoded_text
    = format_08b (Z.of_nat extra) ++ encoded_text ++ replicate extra false.
Proof. done. Qed.

Lemma _pad_encoded_text_length (encoded_text : bits) :
  length (_pad_encoded_text encoded_text) `mod` 8 = 0.
Proof.
  unfold _pad_encoded_text.
  destruct (padding_count_range (length encoded_text)) as [Hr Hm].
  destruct (format_08b_count _ Hr) as [Hl _].
  rewrite !length_app, Hl, length_replicate.
  rewrite <- Nat.Div0.add_mod_idemp_r, Hm. done.
Qed.

(** Lines 193-196 applied to a padded bit string. *)
Lemma unpad_pad (encoded_text : bits) :
  let bit_string := _pad_encoded_text encoded_text in
  let extra := 8 - length encoded_text `mod` 8 in
  int2 (take 8 bit_string) = Ret (Z.of_nat extra) ∧
  slice_to_neg (drop 8 bit_string) (Z.of_nat extra) = encoded_text.
Proof.
  cbv zeta. unfold _pad_encoded_text.
  destruct (padding_count_range (length encoded_text)) as [Hr Hm].
  destruct (format_08b_count _ Hr) as [Hl Hint].
  set (extra := 8 - length encoded_text `mod` 8) in *.
  rewrite take_app_length', drop_app_length' by done.
  split; [done|].
  unfold slice_to_neg. rewrite decide_False by lia.
  rewrite Nat2Z.id, length_app, length_replicate.
  replace (length encoded_text + extra - extra) with (length encoded_text) by lia.
  by rewrite take_app_length.
Qed.

Lemma _get_byte_array_loop_shift (n : nat) (chunk rest : bits) idx b :
  length chunk = n →
  _get_byte_array_loop (chunk ++ rest) ((λ i, n + i) <$> idx) b
    = _get_byte_array_loop rest idx b.
Proof.
  intros <-. revert b. induction idx as [|i idx IH]; intros b; [done|].
  rewrite fmap_cons. cbn [_get_byte_array_loop].
  unfold slice.
  replace (length chunk + i + 8 - (length chunk + i)) with (i + 8 - i) by lia.
  rewrite drop_app_add' by done.
  destruct (int2 (take (i + 8 - i) (drop i rest))) as [x| |]; simpl; [|done..].
  apply IH.
Qed.

Lemma range8_add8 (n : nat) :
  range8 (8 + n) = 0 :: ((λ i, 8 + i) <$> range8 n).
Proof.
  unfold range8.
  replace ((8 + n + 7) `div` 8) with (S ((n + 7) `div` 8)).
  - rewrite <- cons_seq. rewrite fmap_cons. f_equal.
    rewrite <- fmap_S_seq, <- !list_fmap_compose.
    apply list_fmap_ext. intros i x _. simpl. lia.
  - replace (8 + n + 7) with (n + 7 + 1 * 8) by lia.
    rewrite Nat.div_add by done. lia.
Qed.

(** Packing a bit string of whole octets and expanding the bytes again
    gives the bit string back. *)
Lemma _get_byte_array_octets (k : nat) (s : bits) (b : bytes) :
  length s = 8 * k →
  ∃ bs, _get_byte_array_loop s (range8 (length s)) b = Ret (b ++ bs) ∧
        bs ≫= format_08b = s ∧ Forall (λ x, 0 ≤ x < 256)%Z bs.
Proof.
  revert s b. induction k as [|k IH]; intros s b Hlen.
  - destruct s; [|done]. exists []. by rewrite app_nil_r.
  - assert (Hchunk : length (take 8 s) = 8) by (rewrite length_take; lia).
    assert (Hrest : length (drop 8 s) = 8 * k) by (rewrite length_drop; lia).
    rewrite <- (take_drop 8 s).
    generalize dependent (drop 8 s). generalize dependent (take 8 s).
    clear s Hlen. intros chunk Hchunk rest Hrest.
    destruct (format_08b_bits_val _ Hchunk) as [Hfmt Hrange].
    rewrite length_app, Hchunk, range8_add8. cbn [_get_byte_array_loop].
    unfold slice at 1. rewrite drop_0. replace (0 + 8 - 0) with 8 by lia.
    rewrite take_app_length' by done.
    rewrite int2_bits_val by (intros Hnil; by rewrite Hnil in Hchunk).
    cbn [mbind outcome_bind].
    rewrite _get_byte_array_loop_shift by done.
    destruct (IH rest (b ++ [bits_val chunk]) Hrest)
      as (bs & Hbs & Hexp & Hall).
    exists (bits_val chunk :: bs). split_and!.
    + rewrite Hbs. by rewrite <- (assoc_L (++)).
    + by rewrite bind_cons, Hexp, Hfmt.
    + by constructor.
Qed.

Lemma _get_byte_array_pad (encoded_text : bits) :
  ∃ bs, _get_byte_array (_pad_encoded_text encoded_text) = Ret bs ∧
        bs ≫= format_08b = _pad_encoded_text encoded_text ∧
        Forall (λ x, 0 ≤ x < 256)%Z bs.
Proof.
  pose proof (_pad_encoded_text_length encoded_text) as Hm.
  apply Nat.Div0.mod_divides in Hm as [k Hk].
  destruct (_get_byte_array_octets k _ [] Hk) as (bs & H1 & H2 & H3).
  by exists bs.
Qed.

(** ** Characters *)

Lemma utf8_encode_ascii (s : pystr) :
  Forall (λ c, 0 ≤ c < 128)%Z s → utf8_encode s = Ret s.
Proof.
  induction 1 as [|c s Hc _ IH]; [done|].
  cbn [utf8_encode]. unfold utf8_encode_char.
  rewrite decide_True by lia. cbn [mbind outcome_bind]. by rewrite IH.
Qed.

Lemma utf8_decode_ascii (s : bytes) :
  Forall (λ c, 0 ≤ c < 128)%Z s → utf8_decode s = Ret s.
Proof.
  induction 1 as [|c s Hc _ IH]; [done|].
  cbn [utf8_decode]. rewrite decide_True by lia. by rewrite IH.
Qed.

Lemma utf8_encode_app (s1 s2 : pystr) b1 b2 :
  utf8_encode s1 = Ret b1 → utf8_encode s2 = Ret b2 →
  utf8_encode (s1 ++ s2) = Ret (b1 ++ b2).
Proof.
  revert b1. induction s1 as [|c s1 IH]; intros b1; simpl.
  - by intros [= <-].
  - destruct (utf8_encode_char c) as [b| |]; simpl; [|done..].
    destruct (utf8_encode s1) as [bs| |]; simpl; [|done..].
    intros [= <-] H2. rewrite (IH bs) by done. simpl.
    by rewrite (assoc_L (++)).
Qed.

Lemma utf8_encode_scalar (s : pystr) :
  Forall scalar s → ∃ b, utf8_encode s = Ret b.
Proof.
  induction 1 as [|c s Hc _ [b IH]]; [by eexists|].
  cbn [utf8_encode]. rewrite IH. unfold utf8_encode_char, scalar in *.
  repeat case_decide; try lia; by eexists.
Qed.

Lemma utf8_decode_scalar (bs : bytes) (s : pystr) :
  utf8_decode bs = Ret s → Forall scalar s.
Proof.
  remember (length bs) as n eqn:Hn. revert bs s Hn.
  induction n as [n IH] using lt_wf_ind. intros bs s -> Hdec.
  destruct bs as [|b0 r0]; [by injection Hdec as <-|].
  cbn [utf8_decode] in Hdec. unfold is_cont in Hdec.
  repeat (first
    [ done
    | match type of Hdec with
      | context [match ?r with [] => _ | _ :: _ => _ end] => is_var r; destruct r
      | context [decide ?P] => destruct (decide P)
      | context [utf8_decode ?r] => destruct (utf8_decode r) eqn:?
      end ]; cbn [mbind outcome_bind] in Hdec).
  all: injection Hdec as <-; constructor;
    [unfold scalar; repeat case_decide; lia|].
  all: eapply IH; [|reflexivity|eassumption]; simpl; lia.
Qed.

Lemma universal_newlines_scalar (s : pystr) :
  Forall scalar s → Forall scalar (universal_newlines s).
Proof.
  remember (length s) as n eqn:Hn. revert s Hn.
  induction n as [n IH] using lt_wf_ind. intros s -> Hs.
  destruct s as [|c rest]; [done|]. cbn [universal_newlines].
  apply Forall_cons in Hs as [Hc Hrest].
  assert (H10 : scalar 10) by (unfold scalar; lia).
  case_decide.
  - destruct rest as [|c' rest']; [by constructor|].
    apply Forall_cons in Hrest as [Hc' Hrest'].
    case_decide; constructor; try done.
    + eapply (IH (length rest')); [simpl; lia|done..].
    + eapply (IH (length (c' :: rest'))); [simpl; lia|done|by constructor].
  - constructor; [done|]. eapply (IH (length rest)); [simpl; lia|done..].
Qed.

Lemma read_text_scalar files path text :
  read_text files path = Ret text → Forall scalar text.
Proof.
  unfold read_text. destruct (read_bytes files path) as [data| |]; [|done..].
  simpl. destruct (utf8_decode data) as [s| |] eqn:Hs; [|done..].
  intros [= <-]. by eapply universal_newlines_scalar, utf8_decode_scalar.
Qed.

Lemma strip_line (s : pystr) :
  (∀ c, head s = Some c → isspace c = false) →
  (∀ c, last s = Some c → isspace c = false) →
  strip (s ++ [10%Z]) = s.
Proof.
  intros Hhead Hlast. unfold strip.
  destruct s as [|c s]; [done|].
  cbn [app lstrip]. rewrite (Hhead c) by done.
  change (c :: s ++ [10%Z]) with ((c :: s) ++ [10%Z]).
  rewrite reverse_snoc. cbn [lstrip].
  replace (isspace 10) with true by done.
  destruct (reverse (c :: s)) as [|c' s'] eqn:Hrev.
  { apply (f_equal reverse) in Hrev. by rewrite reverse_involutive in Hrev. }
  cbn [lstrip]. rewrite (Hlast c').
  - by rewrite <- Hrev, reverse_involutive.
  - rewrite <- (reverse_involutive (c :: s)), Hrev, reverse_cons.
    by rewrite last_snoc.
Qed.

Lemma readline_line (line rest : bytes) :
  10%Z ∉ line → readline (line ++ 10%Z :: rest) = (line ++ [10%Z], rest).
Proof.
  unfold readline. induction line as [|b line IH]; intros Hnin; simpl.
  - done.
  - apply not_elem_of_cons in Hnin as [Hb Hline].
    rewrite decide_False by done. by rewrite IH.
Qed.

(** ** [json.loads] inverts [json.dumps] *)

Section json_facts.
Local Open Scope Z_scope.

Local Ltac zlia := Z.to_euclidean_division_equations; lia.

Lemma hex_val_hex_char d :
  0 ≤ d < 16 → json.hex_val (json.hex_char d) = Some d.
Proof.
  intros Hd. unfold json.hex_val, json.hex_char.
  repeat case_decide; try lia; f_equal; lia.
Qed.

Lemma hex_char_printable d : 0 ≤ d < 16 → printable (json.hex_char d).
Proof. intros Hd. unfold printable, json.hex_char. case_decide; lia. Qed.

Lemma parse_hex4_hex4 n :
  0 ≤ n < 65536 →
  json.parse_hex4 (json.hex_char (n / 4096)) (json.hex_char ((n / 256) mod 16))
    (json.hex_char ((n / 16) mod 16)) (json.hex_char (n mod 16)) = Some n.
Proof.
  intros Hn. unfold json.parse_hex4.
  rewrite !hex_val_hex_char by zlia. simpl. f_equal. zlia.
Qed.

Lemma u_escape_printable n :
  0 ≤ n < 65536 → Forall printable (json.u_escape n).
Proof.
  intros Hn. unfold json.u_escape, json.hex4.
  repeat constructor; try (unfold printable; lia);
    apply hex_char_printable; zlia.
Qed.

Lemma escape_char_printable c :
  code_point c → Forall printable (json.escape_char c).
Proof.
  unfold code_point. intros Hc. unfold json.escape_char.
  repeat case_decide;
    try (repeat constructor; unfold printable; lia).
  - apply u_escape_printable. lia.
  - apply Forall_app. split; apply u_escape_printable; zlia.
Qed.

(** One escaped character is read back as that character. *)
Lemma scanstring_escape_char c tail acc :
  scalar c →
  json.scanstring (json.escape_char c ++ tail) acc
    = json.scanstring tail (acc ++ [c]).
Proof.
  unfold scalar. intros Hc. unfold json.escape_char.
  repeat case_decide; subst; try reflexivity.
  - cbn [app json.scanstring]. by rewrite !decide_False by lia.
  - unfold json.u_escape, json.hex4. cbn [app json.scanstring].
    rewrite (decide_False (P := 92 = 34)) by done.
    rewrite (decide_True (P := 92 = 92)) by done.
    rewrite (decide_True (P := 117 = 117)) by done.
    rewrite parse_hex4_hex4 by lia.
    by rewrite decide_False by lia.
  - unfold json.u_escape, json.hex4. cbn [app json.scanstring].
    rewrite (decide_False (P := 92 = 34)) by done.
    rewrite (decide_True (P := 92 = 92)) by done.
    rewrite (decide_True (P := 117 = 117)) by done.
    rewrite !parse_hex4_hex4 by zlia.
    rewrite decide_True by zlia.
    rewrite (decide_True (P := 92 = 92 ∧ 117 = 117)) by done.
    rewrite decide_True by zlia.
    do 3 f_equal. zlia.
Qed.

Lemma scanstring_encode k rest acc :
  Forall scalar k →
  json.scanstring ((k ≫= json.escape_char) ++ 34 :: rest) acc
    = Ret (acc ++ k, rest).
Proof.
  intros Hk. revert acc. induction Hk as [|c k Hc _ IH]; intros acc.
  - simpl. by rewrite app_nil_r.
  - rewrite bind_cons, <- (assoc_L (++)), scanstring_escape_char by done.
    rewrite IH. by rewrite <- (assoc_L (++)).
Qed.
(** *** Integers *)

Lemma digit_of_None c : ¬ is_digit c → json.digit_of c = None.
Proof.
  unfold is_digit, json.digit_of. intros Hc. repeat case_decide; (done || lia).
Qed.

Lemma uint_chars_digits u : Forall is_digit (json.uint_chars u).
Proof. induction u; constructor; (done || unfold is_digit; lia). Qed.

Lemma scan_digits_uint_chars u rest :
  (∀ c, head rest = Some c → ¬ is_digit c) →
  json.scan_digits (json.uint_chars u ++ rest) = (u, rest).
Proof.
  intros Hrest. induction u; cbn [json.uint_chars app json.scan_digits];
    try (rewrite IHu; reflexivity).
  destruct rest as [|c rest]; [done|]. cbn [json.scan_digits].
  rewrite digit_of_None; [done|]. by apply Hrest.
Qed.

Lemma nzhead_not_D0 u u' : Decimal.nzhead u ≠ Decimal.D0 u'.
Proof. induction u; (done || simpl; congruence). Qed.

Lemma to_uint_not_D0 p u : Pos.to_uint p ≠ Decimal.D0 u.
Proof.
  intros Hp.
  pose proof (DecimalPos.Unsigned.to_of (Pos.to_uint p)) as Hn.
  rewrite DecimalPos.Unsigned.of_to in Hn. simpl in Hn.
  rewrite Hp in Hn. unfold Decimal.unorm in Hn. simpl in Hn.
  destruct (Decimal.nzhead u) eqn:Hu;
    try (by eapply nzhead_not_D0; rewrite Hu; symmetry; apply Hn).
  injection Hn as Heq. apply (DecimalPos.Unsigned.to_uint_nonzero p).
  by rewrite Hp, <- Heq.
Qed.

(** The decimal digits of a positive number start with a non-zero
    digit. *)
Lemma to_uint_head p :
  ∃ c s, json.uint_chars (Pos.to_uint p) = c :: s ∧ 49 ≤ c ≤ 57.
Proof.
  pose proof (to_uint_not_D0 p) as H0.
  pose proof (DecimalPos.Unsigned.to_uint_nonnil p) as Hnil.
  destruct (Pos.to_uint p) as [|u|u|u|u|u|u|u|u|u|u];
    [done|by destruct (H0 u)|..]; cbn [json.uint_chars];
    do 2 eexists; (split; [reflexivity|lia]).
Qed.

Lemma scan_intpart_to_uint p rest :
  delimited rest →
  json.scan_intpart (json.uint_chars (Pos.to_uint p) ++ rest)
    = Ret (Pos.to_uint p, rest).
Proof.
  intros (d & r & -> & Hd).
  destruct (to_uint_head p) as (c & s & Hcs & Hc).
  pose proof (scan_digits_uint_chars (Pos.to_uint p) (d :: r)) as Hscan.
  rewrite Hcs in *. cbn [app json.scan_intpart].
  rewrite decide_False by lia.
  destruct (json.digit_of c) eqn:Hdig.
  - cbn [app] in Hscan. rewrite Hscan; [done|].
    intros c' [= <-]. unfold is_digit. lia.
  - unfold json.digit_of in Hdig. repeat case_decide; (done || lia).
Qed.

Lemma scan_int_repr v rest :
  delimited rest → json.scan_int (json.int_repr v ++ rest) = Ret (v, rest).
Proof.
  intros Hrest. pose proof Hrest as (d & r & -> & Hd).
  assert (Hfloat : bool_decide (d = 46 ∨ d = 101 ∨ d = 69) = false).
  { apply bool_decide_eq_false_2. lia. }
  unfold json.int_repr. destruct v as [|p|p]; cbn [Z.to_int].
  - cbn [json.uint_chars app json.scan_int json.scan_intpart].
    unfold json.starts_other_value.
    rewrite (bool_decide_eq_false_2 (48 = 34 ∨ _)) by lia.
    rewrite (bool_decide_eq_false_2 (48 = 45 ∧ _)) by lia.
    cbn [orb]. rewrite decide_False by lia. rewrite decide_True by done.
    cbn [mbind outcome_bind fst snd]. by rewrite Hfloat.
  - destruct (to_uint_head p) as (c & s & Hcs & Hc).
    pose proof (scan_intpart_to_uint p (d :: r) Hrest) as Hscan.
    rewrite Hcs in *. cbn [app json.scan_int].
    unfold json.starts_other_value.
    rewrite (bool_decide_eq_false_2 (c = 34 ∨ _)) by lia.
    rewrite (bool_decide_eq_false_2 (c = 45 ∧ _)) by lia.
    cbn [orb]. rewrite decide_False by lia.
    cbn [app] in Hscan. rewrite Hscan. cbn [mbind outcome_bind fst snd].
    rewrite Hfloat. do 2 f_equal.
    apply (DecimalZ.of_to (Z.pos p)).
  - destruct (to_uint_head p) as (c & s & Hcs & Hc).
    pose proof (scan_intpart_to_uint p (d :: r) Hrest) as Hscan.
    cbn [app json.scan_int].
    unfold json.starts_other_value.
    rewrite (bool_decide_eq_false_2 (45 = 34 ∨ _)) by lia.
    rewrite (bool_decide_eq_false_2 (45 = 45 ∧ _)).
    2:{ rewrite Hcs. simpl. intros [_ [= ->]]. lia. }
    cbn [orb]. rewrite decide_True by done.
    rewrite Hscan. cbn [mbind outcome_bind fst snd].
    rewrite Hfloat. do 2 f_equal.
    apply (DecimalZ.of_to (Z.neg p)).
Qed.

Lemma int_repr_printable v : Forall printable (json.int_repr v).
Proof.
  assert (Hd : ∀ u, Forall printable (json.uint_chars u)).
  { intros u. eapply Forall_impl; [apply uint_chars_digits|].
    unfold is_digit, printable. intros; lia. }
  unfold json.int_repr. destruct (Z.to_int v); [done|].
  constructor; [unfold printable; lia|done].
Qed.

Lemma int_repr_head v :
  ∃ c s, json.int_repr v = c :: s ∧ (c = 45 ∨ is_digit c).
Proof.
  unfold json.int_repr. destruct v as [|p|p]; cbn [Z.to_int].
  - do 2 eexists. split; [reflexivity|]. right. unfold is_digit. simpl. lia.
  - destruct (to_uint_head p) as (c & s & -> & Hc).
    do 2 eexists. split; [reflexivity|]. right. unfold is_digit. lia.
  - do 2 eexists. split; [reflexivity|]. by left.
Qed.
(** *** Objects *)

Lemma skip_ws_id c s : json.is_ws c = false → json.skip_ws (c :: s) = c :: s.
Proof. intros H. simpl. by rewrite H. Qed.

Lemma is_ws_false c : c ≠ 32 → c ≠ 9 → c ≠ 10 → c ≠ 13 → json.is_ws c = false.
Proof. intros. apply bool_decide_eq_false_2. lia. Qed.

Lemma skip_ws_int_repr v rest :
  json.skip_ws (json.int_repr v ++ rest) = json.int_repr v ++ rest.
Proof.
  destruct (int_repr_head v) as (c & s & -> & Hc).
  apply skip_ws_id, is_ws_false; unfold is_digit in Hc; lia.
Qed.

Lemma dumps_item_eq k v :
  json.dumps_item (k, v)
    = 34 :: (k ≫= json.escape_char) ++ 34 :: 58 :: 32 :: json.int_repr v.
Proof.
  unfold json.dumps_item, json.encode_basestring_ascii. simpl.
  by rewrite <- !(assoc_L (++)).
Qed.

Lemma dumps_items_cons kv d :
  d ≠ [] →
  json.dumps_items (kv :: d) = json.dumps_item kv ++ 44 :: 32 :: json.dumps_items d.
Proof. by destruct d. Qed.

Lemma dumps_items_head d :
  d ≠ [] → ∃ s, json.dumps_items d = 34 :: s.
Proof.
  destruct d as [|[k v] d]; [done|]. intros _.
  destruct d as [|kv' d]; cbn [json.dumps_items]; rewrite dumps_item_eq;
    by eexists.
Qed.

Lemma dumps_items_length d : (length d ≤ length (json.dumps_items d))%nat.
Proof.
  induction d as [|[k v] d IH]; [done|].
  destruct d as [|kv' d].
  - cbn [json.dumps_items]. rewrite dumps_item_eq. simpl. lia.
  - rewrite dumps_items_cons by done. rewrite dumps_item_eq.
    rewrite length_app. simpl in *. lia.
Qed.

(** One member [key: value], followed by a delimiter. *)
Lemma scan_member k v rest :
  Forall scalar k → delimited rest →
  ∃ s1, json.dumps_item (k, v) ++ rest = 34 :: s1 ∧
        json.scanstring s1 [] = Ret (k, 58 :: 32 :: json.int_repr v ++ rest) ∧
        json.scan_int (json.skip_ws (32 :: json.int_repr v ++ rest))
          = Ret (v, rest).
Proof.
  intros Hk Hrest. rewrite dumps_item_eq.
  exists (((k ≫= json.escape_char) ++ 34 :: 58 :: 32 :: json.int_repr v) ++ rest).
  split; [done|]. split.
  - rewrite <- (assoc_L (++)). cbn [app]. by rewrite scanstring_encode.
  - cbn [json.skip_ws]. replace (json.is_ws 32) with true by done.
    rewrite skip_ws_int_repr. by apply scan_int_repr.
Qed.

Lemma scan_members_dumps fuel (d : list (pystr * Z)) rest pairs :
  d ≠ [] → Forall (Forall scalar) d.*1 → (length d ≤ fuel)%nat →
  json.scan_members fuel (json.dumps_items d ++ 125 :: rest) pairs
    = Ret (pairs ++ d, rest).
Proof.
  revert fuel pairs. induction d as [|[k v] d IH]; intros fuel pairs Hne Hsc Hfuel.
  { done. }
  destruct fuel as [|fuel]; [simpl in Hfuel; lia|].
  apply Forall_cons in Hsc as [Hk Hd].
  destruct (decide (d = [])) as [->|Hd'].
  - cbn [json.dumps_items].
    destruct (scan_member k v (125 :: rest) Hk) as (s1 & Hs1 & Hkey & Hval).
    { by exists 125, rest; split; [|right]. }
    rewrite Hs1. cbn [json.scan_members]. rewrite decide_True by done.
    rewrite Hkey. cbn [mbind outcome_bind fst snd].
    rewrite skip_ws_id by done. rewrite decide_True by done.
    rewrite Hval. cbn [mbind outcome_bind fst snd].
    rewrite skip_ws_id by done. by rewrite decide_True by done.
  - rewrite dumps_items_cons by done.
    rewrite <- (assoc_L (++)). cbn [app].
    set (rest' := json.dumps_items d ++ 125 :: rest).
    destruct (scan_member k v (44 :: 32 :: rest') Hk) as (s1 & Hs1 & Hkey & Hval).
    { by exists 44, (32 :: rest'); split; [|left]. }
    rewrite Hs1. cbn [json.scan_members]. rewrite decide_True by done.
    rewrite Hkey. cbn [mbind outcome_bind fst snd].
    rewrite skip_ws_id by done. rewrite decide_True by done.
    rewrite Hval. cbn [mbind outcome_bind fst snd].
    rewrite skip_ws_id by done.
    rewrite decide_False by done. rewrite decide_True by done.
    assert (Hskip : json.skip_ws (32 :: rest') = rest').
    { cbn [json.skip_ws]. replace (json.is_ws 32) with true by done.
      unfold rest'. destruct (dumps_items_head d Hd') as [s ->].
      by apply skip_ws_id. }
    rewrite Hskip. unfold rest'. rewrite IH; [|done|done|simpl in Hfuel; lia].
    by rewrite <- (assoc_L (++)).
Qed.

Lemma dict_of_pairs_id (d : dict pystr Z) :
  NoDup d.*1 → json.dict_of_pairs d = d.
Proof. intros Hd. unfold json.dict_of_pairs. by rewrite dict_set_all. Qed.

Lemma loads_dumps (d : dict pystr Z) :
  wf_table d → json.loads (json.dumps d) = Ret d.
Proof.
  intros [Hnd Hsc]. unfold json.dumps, json.loads. cbn [app].
  rewrite skip_ws_id by done. rewrite decide_True by done.
  destruct (decide (d = [])) as [->|Hne].
  - reflexivity.
  - destruct (dumps_items_head d Hne) as [s Hs].
    pose proof (scan_members_dumps (length (json.dumps_items d ++ [125]))
                  d [] [] Hne Hsc) as Hscan.
    rewrite Hs in *. cbn [app] in *.
    rewrite skip_ws_id by done. rewrite decide_False by done.
    rewrite Hscan.
    + cbn [mbind outcome_bind fst snd json.skip_ws].
      by rewrite dict_of_pairs_id.
    + pose proof (dumps_items_length d) as Hl. rewrite Hs in Hl.
      simpl in *. rewrite length_app. simpl. lia.
Qed.

Lemma scalar_code_point c : scalar c → code_point c.
Proof. unfold scalar, code_point. lia. Qed.

Lemma dumps_printable (d : dict pystr Z) :
  Forall (Forall code_point) d.*1 → Forall printable (json.dumps d).
Proof.
  intros Hd. unfold json.dumps.
  assert (Hitem : ∀ k v, Forall code_point k →
            Forall printable (json.dumps_item (k, v))).
  { intros k v Hk. rewrite dumps_item_eq.
    constructor; [unfold printable; lia|].
    apply Forall_app. split.
    - apply Forall_bind. eapply Forall_impl; [exact Hk|].
      intros c Hc. by apply escape_char_printable.
    - repeat (constructor; [unfold printable; lia|]).
      apply int_repr_printable. }
  constructor; [unfold printable; lia|].
  apply Forall_app. split; [|by repeat constructor; unfold printable; lia].
  induction d as [|[k v] d IH]; [done|].
  apply Forall_cons in Hd as [Hk Hd].
  destruct (decide (d = [])) as [->|Hne]; [by apply Hitem|].
  rewrite dumps_items_cons by done.
  apply Forall_app. split; [by apply Hitem|].
  repeat (constructor; [unfold printable; lia|]). by apply IH.
Qed.
End json_facts.

(** ** The fuel of the loops is enough *)

Section heapq_fuel.
Context {A : Type} (lt : A → A → bool).
Implicit Types heap : list A.

(** More fuel than [pos] does not change [_siftdown]: the loop has left
    by then. *)
Lemma _siftdown_loop_fuel fuel fuel' heap startpos pos newitem :
  pos ≤ fuel → pos ≤ fuel' →
  heapq._siftdown_loop lt fuel heap startpos pos newitem
    = heapq._siftdown_loop lt fuel' heap startpos pos newitem.
Proof.
  revert fuel' heap pos.
  induction fuel as [|fuel IH]; intros fuel' heap pos Hf Hf'.
  - assert (pos = 0) as -> by lia. destruct fuel'; cbn; [done|].
    by rewrite decide_False by lia.
  - destruct fuel' as [|fuel'].
    + assert (pos = 0) as -> by lia. cbn. by rewrite decide_False by lia.
    + cbn [heapq._siftdown_loop]. case_decide as Hpos; [|done].
      destruct (heap !! ((pos - 1) / 2)) as [parent|]; [|done].
      destruct (lt newitem parent); [|done].
      assert ((pos - 1) / 2 < pos) by (apply Nat.Div0.div_lt_upper_bound; lia).
      apply IH; lia.
Qed.

(** More fuel than [endpos - pos] does not change [_siftup]. *)
Lemma _siftup_loop_fuel fuel fuel' heap endpos pos :
  endpos ≤ fuel + pos → endpos ≤ fuel' + pos →
  heapq._siftup_loop lt fuel heap endpos pos
    = heapq._siftup_loop lt fuel' heap endpos pos.
Proof.
  revert fuel' heap pos.
  induction fuel as [|fuel IH]; intros fuel' heap pos Hf Hf'.
  - destruct fuel'; cbn [heapq._siftup_loop]; [done|].
    by rewrite decide_False by lia.
  - destruct fuel' as [|fuel'].
    + cbn [heapq._siftup_loop]. by rewrite decide_False by lia.
    + cbn [heapq._siftup_loop]. case_decide as Hchild; [|done].
      set (childpos := match heap !! (2 * pos + 1), heap !! (2 * pos + 1 + 1) with
                       | Some c, Some r =>
                           if bool_decide (2 * pos + 1 + 1 < endpos) && negb (lt c r)
                           then 2 * pos + 1 + 1 else 2 * pos + 1
                       | _, _ => 2 * pos + 1
                       end).
      assert (Hc : pos < childpos).
      { unfold childpos. destruct (heap !! (2 * pos + 1)); [|lia].
        destruct (heap !! (2 * pos + 1 + 1)); [|lia].
        destruct (bool_decide _ && negb _); lia. }
      destruct (heap !! childpos) as [c|]; [|done].
      apply IH; lia.
Qed.
End heapq_fuel.

(** More fuel than the length of the heap does not change
    [_merge_nodes]. *)
Lemma _merge_nodes_loop_fuel fuel fuel' (h : list HuffmanNode) :
  length h ≤ fuel → length h ≤ fuel' →
  _merge_nodes_loop fuel h = _merge_nodes_loop fuel' h.
Proof.
  revert fuel' h. induction fuel as [|fuel IH]; intros fuel' h Hf Hf'.
  - destruct h; [|simpl in Hf; lia].
    destruct fuel'; cbn [_merge_nodes_loop]; [done|].
    by rewrite decide_False by (simpl; lia).
  - destruct fuel' as [|fuel'].
    + destruct h; [|simpl in Hf'; lia]. cbn [_merge_nodes_loop].
      by rewrite decide_False by (simpl; lia).
    + cbn [_merge_nodes_loop]. case_decide as Hlen; [|done].
      destruct (heapq.heappop Node.__lt__ h) as [[node1 h1]| |] eqn:Hpop1;
        cbn [mbind outcome_bind fst snd]; [|done..].
      destruct (heapq.heappop Node.__lt__ h1) as [[node2 h2]| |] eqn:Hpop2;
        cbn [mbind outcome_bind fst snd]; [|done..].
      apply heappop_length in Hpop1, Hpop2.
      apply IH; rewrite heappush_length; lia.
Qed.

(** *** The members of a JSON object *)

Lemma skip_ws_length s : length (json.skip_ws s) ≤ length s.
Proof.
  induction s as [|c s IH]; [done|]. cbn [json.skip_ws].
  destruct (json.is_ws c); simpl; lia.
Qed.

Lemma scanstring_length s acc k rest :
  json.scanstring s acc = Ret (k, rest) → length rest < length s.
Proof.
  remember (length s) as n eqn:Hn. revert s acc Hn.
  induction n as [n IH] using lt_wf_ind. intros s acc -> Hs.
  destruct s as [|c s]; [done|]. cbn [json.scanstring] in Hs.
  repeat (first
    [ done
    | match type of Hs with
      | Ret _ = Ret _ => injection Hs as <- <-; simpl; lia
      | json.scanstring ?r _ = Ret _ =>
          apply IH with (m := length r) in Hs; [simpl in *; lia|simpl; lia|done]
      | context [match ?r with [] => _ | _ :: _ => _ end] => is_var r; destruct r
      | context [decide ?P] => destruct (decide P)
      | context [json.parse_hex4 ?a ?b ?c ?d] => destruct (json.parse_hex4 a b c d)
      | context [json.unescape ?e] => destruct (json.unescape e)
      end ]).
Qed.

Lemma scan_digits_length s : length (json.scan_digits s).2 ≤ length s.
Proof.
  induction s as [|c s IH]; [done|]. cbn [json.scan_digits].
  destruct (json.digit_of c); [|done].
  destruct (json.scan_digits s). simpl in *. lia.
Qed.

Lemma scan_int_length s v rest :
  json.scan_int s = Ret (v, rest) → length rest ≤ length s.
Proof.
  assert (Hpart : ∀ s u r, json.scan_intpart s = Ret (u, r) →
            length r ≤ length s).
  { intros [|c s'] u r; [done|]. cbn [json.scan_intpart].
    case_decide; [intros [= <- <-]; simpl; lia|].
    pose proof (scan_digits_length (c :: s')) as Hl.
    destruct (json.scan_digits (c :: s')) as [u' r'].
    destruct (json.digit_of c); [|done]. by intros [= <- <-]. }
  destruct s as [|c s']; [done|]. cbn [json.scan_int].
  destruct (json.starts_other_value c || _); [done|].
  case_decide.
  - destruct (json.scan_intpart s') as [[u r]| |] eqn:Hu;
      cbn [mbind outcome_bind fst snd]; [|done..].
    apply Hpart in Hu.
    destruct r as [|d r']; [|destruct (bool_decide _)];
      (done || intros [= <- <-]; simpl in *; lia).
  - destruct (json.scan_intpart (c :: s')) as [[u r]| |] eqn:Hu;
      cbn [mbind outcome_bind fst snd]; [|done..].
    apply Hpart in Hu.
    destruct r as [|d r']; [|destruct (bool_decide _)];
      (done || intros [= <- <-]; simpl in *; lia).
Qed.

(** More fuel than the length of the input does not change
    [scan_members]. *)
Lemma scan_members_fuel fuel fuel' s pairs :
  length s ≤ fuel → length s ≤ fuel' →
  json.scan_members fuel s pairs = json.scan_members fuel' s pairs.
Proof.
  revert fuel' s pairs.
  induction fuel as [|fuel IH]; intros fuel' s pairs Hf Hf'.
  - destruct s; [|simpl in Hf; lia]. by destruct fuel'.
  - destruct fuel' as [|fuel']; [by destruct s; [|simpl in Hf'; lia]|].
    cbn [json.scan_members]. destruct s as [|c s1]; [done|].
    case_decide; [|done].
    destruct (json.scanstring s1 []) as [[k r]| |] eqn:Hk;
      cbn [mbind outcome_bind fst snd]; [|done..].
    apply scanstring_length in Hk.
    pose proof (skip_ws_length r) as Hr.
    destruct (json.skip_ws r) as [|c2 s2]; [done|].
    case_decide; [|done].
    pose proof (skip_ws_length s2) as Hs2.
    destruct (json.scan_int (json.skip_ws s2)) as [[v r']| |] eqn:Hv;
      cbn [mbind outcome_bind fst snd]; [|done..].
    apply scan_int_length in Hv.
    pose proof (skip_ws_length r') as Hr'.
    destruct (json.skip_ws r') as [|c3 s3]; [done|].
    case_decide; [done|]. case_decide; [|done].
    pose proof (skip_ws_length s3) as Hs3.
    apply IH; simpl in *; lia.
Qed.

(** ** The digest *)

Lemma be_bytes_range n x : Forall (λ b, 0 ≤ b < 256)%Z (SHA256.be_bytes n x).
Proof.
  revert x. induction n as [|n IH]; intros x; simpl; [done|].
  apply Forall_app. split; [apply IH|].
  repeat constructor; apply Z.mod_pos_bound; lia.
Qed.

Lemma hexdigest_hex msg : Forall is_hex (SHA256.hexdigest msg).
Proof.
  unfold SHA256.hexdigest, SHA256.digest.
  apply Forall_bind. apply Forall_bind.
  apply Forall_true. intros x.
  eapply Forall_impl; [apply be_bytes_range|]. intros b Hb. simpl in Hb.
  assert (H1 : (0 ≤ b / 16 < 16)%Z) by (Z.to_euclidean_division_equations; lia).
  assert (H2 : (0 ≤ b mod 16 < 16)%Z) by (Z.to_euclidean_division_equations; lia).
  unfold SHA256.hex_digit, is_hex.
  repeat (apply Forall_cons_2; [case_decide; lia|]). apply Forall_nil_2.
Qed.

(** ** Running the two methods *)

Lemma M_bind_Ret {A B} (m : M A) (f : A → M B) w a w' :
  m w = (Ret a, w') → (m ≫= f) w = f a w'.
Proof. intros H. unfold mbind, M_bind. by rewrite H. Qed.

Lemma M_bind_Raise {A B} (m : M A) (f : A → M B) w e w' :
  m w = (Raise e, w') → (m ≫= f) w = (Raise e, w').
Proof. intros H. unfold mbind, M_bind. by rewrite H. Qed.

Lemma _merge_nodes_root frequency root :
  build_tree frequency = Ret root →
  _merge_nodes (_build_heap frequency (mkCompressor [] [] []))
    = Ret (mkCompressor [root] [] []).
Proof.
  destruct frequency as [|kv d]; [done|].
  destruct (build_tree_leaves (kv :: d)) as (root' & Hb & _); [done|].
  rewrite Hb. intros [= ->]. revert Hb. unfold build_tree, _merge_nodes.
  set (s := _build_heap _ _).
  destruct (_merge_nodes_loop_root (length (heap s)) (heap s)) as (r & Hr & _).
  { done. }
  { intros Hnil. pose proof (_build_heap_leaves (kv :: d)) as H.
    fold s in H. rewrite Hnil in H. by apply Permutation_nil_l in H. }
  rewrite Hr. simpl. by intros [= ->].
Qed.

Lemma code_table_paths frequency root :
  NoDup frequency.*1 → build_tree frequency = Ret root →
  NoDup (paths root []).*1 ∧
  codes (_make_codes_helper root [] (mkCompressor [root] [] [])) = paths root [].
Proof.
  intros Hnd Hb.
  assert (Hne : frequency ≠ []) by (by intros ->).
  destruct (build_tree_leaves frequency Hne) as (root' & Hb' & Hl).
  rewrite Hb in Hb'. injection Hb' as <-.
  assert (Hp : NoDup (paths root []).*1).
  { rewrite paths_keys. by rewrite Hl. }
  split; [done|].
  rewrite _make_codes_helper_codes. by apply dict_set_all.
Qed.

Lemma frequency_two (text : pystr) c1 c2 :
  c1 ∈ text → c2 ∈ text → c1 ≠ c2 → 1 < length (_make_frequency_dict text).
Proof.
  intros H1 H2 Hne.
  pose proof (_make_frequency_dict_NoDup text) as Hnd.
  assert (Hk1 : [c1] ∈ (_make_frequency_dict text).*1).
  { apply _make_frequency_dict_keys. eauto. }
  assert (Hk2 : [c2] ∈ (_make_frequency_dict text).*1).
  { apply _make_frequency_dict_keys. eauto. }
  rewrite <- (length_fmap fst).
  destruct ((_make_frequency_dict text).*1) as [|k1 [|k2 l]]; simpl; [| |lia].
  - by apply elem_of_nil in Hk1.
  - apply list_elem_of_singleton in Hk1, Hk2. congruence.
Qed.

Lemma utf8_encode_nonempty (text : pystr) data :
  utf8_encode text = Ret data → text ≠ [] → data ≠ [].
Proof.
  destruct text as [|c text]; [done|]. intros H _. cbn [utf8_encode] in H.
  unfold utf8_encode_char in H.
  destruct (utf8_encode text) as [bs| |];
    repeat case_decide; simpl in H; by try injection H as <-.
Qed.

Lemma hex_ascii (s : pystr) : Forall is_hex s → Forall (λ c, 0 ≤ c < 128)%Z s.
Proof.
  intros H. eapply Forall_impl; [done|]. unfold is_hex. intros; lia.
Qed.

Lemma printable_ascii (s : pystr) :
  Forall printable s → Forall (λ c, 0 ≤ c < 128)%Z s.
Proof.
  intros H. eapply Forall_impl; [done|]. unfold printable. intros; lia.
Qed.

Lemma frequency_scalar (text : pystr) :
  Forall scalar text → Forall (Forall scalar) (_make_frequency_dict text).*1.
Proof.
  intros Hsc. apply Forall_forall. intros k Hk.
  apply _make_frequency_dict_keys in Hk as (c & Hc & ->).
  constructor; [|done]. by eapply Forall_forall in Hsc.
Qed.

Lemma frequency_wf (text : pystr) :
  Forall scalar text → wf_table (_make_frequency_dict text).
Proof.
  intros Hsc. split; [apply _make_frequency_dict_NoDup|].
  by apply frequency_scalar.
Qed.

Lemma dumps_frequency_printable (text : pystr) :
  Forall scalar text → Forall printable (json.dumps (_make_frequency_dict text)).
Proof.
  intros Hsc. apply dumps_printable.
  eapply Forall_impl; [by apply frequency_scalar|].
  intros k Hk. eapply Forall_impl; [done|]. apply scalar_code_point.
Qed.

(** A run of [compress_file] on a text that is not empty: the path it
    returns, the state it leaves and the container it writes. *)
Lemma compress_file_state path output_path w text :
  read_text (fs w) path = Ret text → text ≠ [] →
  ∃ data root enc bs,
    utf8_encode text = Ret data ∧
    build_tree (_make_frequency_dict text) = Ret root ∧
    encoding (paths root []) text = Some enc ∧
    _get_byte_array (_pad_encoded_text enc) = Ret bs ∧
    let out := default (path +:+ ".huffman") output_path in
    compress_file path output_path w
      = (Ret out,
         mkWorld (_make_codes_helper root [] (mkCompressor [root] [] []))
           (<[out := SHA256.hexdigest data ++ [10%Z]
                     ++ json.dumps (_make_frequency_dict text) ++ [10%Z]
                     ++ bs]> (fs w))).
Proof.
  intros Hread Hne.
  pose proof (read_text_scalar _ _ _ Hread) as Hsc.
  destruct (utf8_encode_scalar text Hsc) as [data Hdata].
  set (frequency := _make_frequency_dict text).
  assert (Hfne : frequency ≠ []).
  { intros H. by apply _make_frequency_dict_nil in H. }
  destruct (build_tree_leaves frequency Hfne) as (root & Hroot & Hleaves).
  pose proof (_make_frequency_dict_NoDup text) as Hnd.
  destruct (code_table_paths frequency root Hnd Hroot) as [Hpnd Hcodes].
  destruct (encoding_total (paths root []) text) as [enc Henc].
  { intros c Hc. rewrite paths_keys, Hleaves.
    apply _make_frequency_dict_keys. eauto. }
  destruct (_get_byte_array_pad enc) as (bs & Hbs & Hexp & _).
  exists data, root, enc, bs. split_and!; try done.
  cbv zeta. unfold compress_file.
  cbv [mbind M_bind lift get_self put_self modify_self open_w file_write raise
       mret M_ret].
  rewrite Hread, Hdata. cbn [self fs].
  fold frequency. rewrite (_merge_nodes_root frequency root Hroot).
  cbn [heap_root heap]. unfold _get_encoded_text.
  rewrite (_get_encoded_text_loop_encoding _ _ _ enc) by (by rewrite Hcodes).
  cbn [app]. rewrite Hbs.
  rewrite (utf8_encode_ascii (SHA256.hexdigest data))
    by apply hex_ascii, hexdigest_hex.
  rewrite (utf8_encode_ascii (json.dumps frequency))
    by (by apply printable_ascii, dumps_frequency_printable).
  rewrite decide_False.
  2:{ intros Hz. apply (utf8_encode_nonempty _ _ Hdata Hne).
      by apply length_zero_iff_nil. }
  f_equal. f_equal.
  rewrite !lookup_insert_eq, !insert_insert_eq. f_equal.
  cbn [default from_option id app]. by rewrite <- !(assoc_L (++)).
Qed.

Lemma compress_file_run path output_path w text :
  read_text (fs w) path = Ret text → text ≠ [] →
  ∃ data root enc bs,
    utf8_encode text = Ret data ∧
    build_tree (_make_frequency_dict text) = Ret root ∧
    encoding (paths root []) text = Some enc ∧
    _get_byte_array (_pad_encoded_text enc) = Ret bs ∧
    bs ≫= format_08b = _pad_encoded_text enc ∧
    let out := default (path +:+ ".huffman") output_path in
    ∃ s', compress_file path output_path w
          = (Ret out,
             mkWorld s'
               (<[out := SHA256.hexdigest data ++ [10%Z]
                         ++ json.dumps (_make_frequency_dict text) ++ [10%Z]
                         ++ bs]> (fs w))).
Proof.
  intros Hread Hne.
  destruct (compress_file_state path output_path w text Hread Hne)
    as (data & root & enc & bs & Hdata & Hroot & Henc & Hbs & Hrun).
  exists data, root, enc, bs. split_and!; try done.
  - destruct (_get_byte_array_pad enc) as (bs' & Hbs' & Hexp & _).
    rewrite Hbs in Hbs'. by injection Hbs' as <-.
  - cbv zeta. by eexists.
Qed.

(** *** [decompress_file] in three stages *)

Lemma build_tree_merge frequency :
  match build_tree frequency with
  | Ret root =>
      _merge_nodes (_build_heap frequency (mkCompressor [] [] []))
        = Ret (mkCompressor [root] [] [])
  | Raise e =>
      frequency = [] ∧
      _merge_nodes (_build_heap frequency (mkCompressor [] [] []))
        = Ret (mkCompressor [] [] [])
  | Unmodelled => False
  end.
Proof.
  destruct frequency as [|kv d]; [done|].
  destruct (build_tree_leaves (kv :: d)) as (root & Hb & _); [done|].
  rewrite Hb. by apply _merge_nodes_root.
Qed.

(** [decompress_file] returns the output path and writes the decoded text
    exactly when [decompress] succeeds; otherwise it leaves every file as
    it was. *)
Lemma decompress_file_stages path output_path w :
  let r := decompress_file path output_path w in
  match decompress (fs w) path with
  | Ret (text, decoded_bytes) =>
      r.1 = Ret (decompressed_path path output_path) ∧
      fs r.2 = <[decompressed_path path output_path := decoded_bytes]> (fs w)
  | Raise e => r.1 = Raise e ∧ fs r.2 = fs w
  | Unmodelled => r.1 = Unmodelled ∧ fs r.2 = fs w
  end.
Proof.
  cbv zeta.
  unfold decompress, decompress_file, parse_container, decode_payload, verify.
  cbv [mbind M_bind outcome_bind lift get_self put_self modify_self open_w
       file_write file_write_text raise mret M_ret].
  destruct (read_bytes (fs w) path) as [data| |]; [|done..].
  destruct (readline data) as [line1 data1].
  destruct (utf8_decode line1) as [s1| |]; [|done..].
  destruct (readline data1) as [line2 data2].
  destruct (utf8_decode line2) as [s2| |]; [|done..].
  destruct (json.loads (strip s2)) as [frequency| |]; [|done..].
  cbn [fst snd self fs].
  pose proof (build_tree_merge frequency) as Hm.
  destruct (build_tree frequency) as [root|e|] eqn:Hb;
    [|destruct Hm as [-> Hm]; rewrite Hm; by injection Hb as <-|done].
  rewrite Hm. cbn [heap_root heap self fs].
  destruct (int2 _) as [extra_padding| |]; [|done..].
  destruct (_decode_text _ root) as [text| |]; [|done..].
  destruct (utf8_encode text) as [decoded_bytes| |]; [|done..].
  case_decide; [done|]. cbn [fst snd self fs]. split; [done|].
  rewrite lookup_insert_eq, insert_insert_eq. done.
Qed.

(** *** The header of a container written by [compress_file] *)

Lemma isspace_hex c : is_hex c → isspace c = false.
Proof. unfold is_hex. intros H. apply bool_decide_eq_false_2. lia. Qed.

Lemma isspace_printable c : printable c → c ≠ 32%Z → isspace c = false.
Proof. unfold printable. intros H Hc. apply bool_decide_eq_false_2. lia. Qed.

Lemma parse_container_header (file_hash : pystr) (frequency : dict pystr Z)
    (payload : bytes) :
  Forall is_hex file_hash → wf_table frequency →
  parse_container (file_hash ++ [10%Z] ++ json.dumps frequency ++ [10%Z] ++ payload)
    = Ret (file_hash, frequency, payload).
Proof.
  intros Hhex Hwf. unfold parse_container.
  assert (Hp : Forall printable (json.dumps frequency)).
  { apply dumps_printable. destruct Hwf as [_ Hsc].
    eapply Forall_impl; [done|]. intros k Hk.
    eapply Forall_impl; [done|]. apply scalar_code_point. }
  cbn [app]. rewrite readline_line.
  2:{ intros Hin. eapply Forall_forall in Hhex; [|done].
      unfold is_hex in Hhex. lia. }
  rewrite utf8_decode_ascii.
  2:{ apply Forall_app. split; [by apply hex_ascii|by repeat constructor]. }
  cbn [mbind outcome_bind].
  rewrite readline_line.
  2:{ intros Hin. eapply Forall_forall in Hp; [|done].
      unfold printable in Hp. lia. }
  rewrite utf8_decode_ascii.
  2:{ apply Forall_app. split; [by apply printable_ascii|by repeat constructor]. }
  cbn [mbind outcome_bind].
  rewrite (strip_line (json.dumps frequency)).
  - rewrite loads_dumps by done. cbn [mbind outcome_bind].
    rewrite strip_line; [done| |].
    + intros c Hc. apply isspace_hex. eapply Forall_forall; [done|].
      by apply head_Some_elem_of.
    + intros c Hc. apply isspace_hex. eapply Forall_forall; [done|].
      by apply last_Some_elem_of.
  - by intros c [= <-].
  - unfold json.dumps. rewrite (assoc_L (++)), last_snoc. by intros c [= <-].
Qed.

(** *** Decoding the payload *)

Lemma decode_payload_packed (frequency : dict pystr Z) root (enc : bits) bs :
  build_tree frequency = Ret root →
  bs ≫= format_08b = _pad_encoded_text enc →
  decode_payload frequency bs = _decode_text enc root.
Proof.
  intros Hroot Hbs. unfold decode_payload. rewrite Hroot, Hbs.
  cbn [mbind outcome_bind].
  destruct (unpad_pad enc) as [Hcount Hstrip]. rewrite Hcount.
  cbn [mbind outcome_bind]. by rewrite Hstrip.
Qed.

Lemma subtrees_refl t : t ∈ subtrees t.
Proof. destruct t; left. Qed.

Lemma subtrees_children root f l r :
  Internal f l r ∈ subtrees root → l ∈ subtrees root ∧ r ∈ subtrees root.
Proof.
  induction root as [c' f'|f' l' IHl r' IHr]; cbn [subtrees].
  - by intros [[=]|[]%elem_of_nil]%elem_of_cons.
  - intros [[= -> -> ->]|[H|H]%elem_of_app]%elem_of_cons.
    + split; right; apply elem_of_app; [left|right]; apply subtrees_refl.
    + destruct (IHl H). split; right; apply elem_of_app; by left.
    + destruct (IHr H). split; right; apply elem_of_app; by right.
Qed.

Lemma subtrees_leaf root c f : Leaf c f ∈ subtrees root → c ∈ (leaves root).*1.
Proof.
  induction root as [c' f'|f' l' IHl r' IHr]; cbn [subtrees leaves].
  - intros [[= -> ->]|[]%elem_of_nil]%elem_of_cons. left.
  - rewrite fmap_app, elem_of_app.
    intros [[=]|[H|H]%elem_of_app]%elem_of_cons; auto.
Qed.

(** With an internal root the tree walk never fails, and it emits symbols
    of the tree only. *)
Lemma _decode_text_loop_total (P : Z → Prop) (encoded_text : bits) root current
    decoded :
  Node.char root = None → Forall (Forall P) (leaves root).*1 →
  current ∈ subtrees root → Node.char current = None → Forall P decoded →
  ∃ text, _decode_text_loop encoded_text root current decoded = Ret text ∧
          Forall P text.
Proof.
  intros Hroot Hkeys. revert current decoded.
  induction encoded_text as [|bit rest IH]; intros current decoded Hsub Hcur Hdec.
  { by exists decoded. }
  destruct current as [c f|f l r]; [done|].
  apply subtrees_children in Hsub as [Hl Hr].
  cbn [_decode_text_loop Node.left Node.right].
  assert (Hstep : ∀ child, child ∈ subtrees root →
    ∃ text, match Node.char child with
            | Some c => _decode_text_loop rest root root (decoded ++ c)
            | None => _decode_text_loop rest root child decoded
            end = Ret text ∧ Forall P text).
  { intros [c' f'|f' l' r'] Hchild; cbn [Node.char].
    - apply IH; [apply subtrees_refl|done|]. apply Forall_app. split; [done|].
      eapply Forall_forall in Hkeys; [done|]. by eapply subtrees_leaf.
    - by apply IH. }
  destruct bit; by apply Hstep.
Qed.

Lemma _decode_text_leaf (encoded_text : bits) c f :
  _decode_text encoded_text (Leaf c f)
    = if decide (encoded_text = []) then Ret [] else Raise AttributeError.
Proof. by destruct encoded_text as [|[] rest]. Qed.

(** ** Reading back a text that was written *)

Lemma utf8_decode_encode_char (c : Z) (b rest : bytes) :
  utf8_encode_char c = Ret b →
  utf8_decode (b ++ rest) = (s ← utf8_decode rest; Ret (c :: s)).
Proof.
  unfold utf8_encode_char.
  repeat case_decide; intros [= <-]; cbn [app utf8_decode]; unfold is_cont;
    repeat (first [ rewrite decide_True by (Z.to_euclidean_division_equations; lia)
                  | rewrite decide_False by (Z.to_euclidean_division_equations; lia)
                  | case_decide ]);
    try (exfalso; Z.to_euclidean_division_equations; lia);
    destruct (utf8_decode rest) as [s| |]; cbn [mbind outcome_bind]; try done;
    do 2 f_equal; Z.to_euclidean_division_equations; lia.
Qed.

Lemma utf8_decode_encode (text : pystr) (data : bytes) :
  utf8_encode text = Ret data → utf8_decode data = Ret text.
Proof.
  revert data. induction text as [|c text IH]; intros data.
  - by intros [= <-].
  - cbn [utf8_encode].
    destruct (utf8_encode_char c) as [b| |] eqn:Hc; [|done..].
    destruct (utf8_encode text) as [bs| |]; [|done..].
    intros [= <-]. rewrite (utf8_decode_encode_char c b bs Hc).
    by rewrite (IH bs).
Qed.

Lemma universal_newlines_no_cr (s : pystr) : 13%Z ∉ universal_newlines s.
Proof.
  remember (length s) as n eqn:Hn. revert s Hn.
  induction n as [n IH] using lt_wf_ind. intros s ->.
  destruct s as [|c rest]; cbn [universal_newlines]; [apply not_elem_of_nil|].
  case_decide.
  - destruct rest as [|c' rest']; [by intros [|[]%elem_of_nil]%elem_of_cons|].
    case_decide; apply not_elem_of_cons; (split; [done|]).
    + eapply (IH (length rest')); [simpl; lia|done].
    + eapply (IH (length (c' :: rest'))); [simpl; lia|done].
  - apply not_elem_of_cons. split; [done|].
    eapply (IH (length rest)); [simpl; lia|done].
Qed.

Lemma universal_newlines_id (s : pystr) : 13%Z ∉ s → universal_newlines s = s.
Proof.
  induction s as [|c s IH]; [done|]. intros [Hc Hs]%not_elem_of_cons.
  cbn [universal_newlines]. rewrite decide_False by done. by rewrite IH.
Qed.

Lemma read_text_written (files files' : gmap string bytes) path q text data :
  read_text files path = Ret text → utf8_encode text = Ret data →
  files' !! q = Some data → read_text files' q = Ret text.
Proof.
  intros Hread Hdata Hq. unfold read_text, read_bytes. rewrite Hq.
  cbn [mbind outcome_bind]. rewrite (utf8_decode_encode text data Hdata).
  cbn [mbind outcome_bind]. f_equal. apply universal_newlines_id.
  revert Hread. unfold read_text.
  destruct (read_bytes files path) as [d| |]; [|done..]. cbn [mbind outcome_bind].
  destruct (utf8_decode d) as [s| |]; [|done..]. intros [= <-].
  apply universal_newlines_no_cr.
Qed.

(** The container that [compress_file] leaves behind decompresses to the
    text that was read, when the text has two distinct symbols. *)
Lemma decompress_compressed (files : gmap string bytes) p (text : pystr) data
    root enc bs c1 c2 :
  Forall scalar text → c1 ∈ text → c2 ∈ text → c1 ≠ c2 →
  utf8_encode text = Ret data →
  build_tree (_make_frequency_dict text) = Ret root →
  encoding (paths root []) text = Some enc →
  bs ≫= format_08b = _pad_encoded_text enc →
  files !! p = Some (SHA256.hexdigest data ++ [10%Z]
                     ++ json.dumps (_make_frequency_dict text) ++ [10%Z] ++ bs) →
  decompress files p = Ret (text, data).
Proof.
  intros Hsc H1 H2 Hne Hdata Hroot Henc Hbs Hfile.
  unfold decompress, read_bytes. rewrite Hfile. cbn [mbind outcome_bind].
  rewrite parse_container_header;
    [|apply hexdigest_hex|by apply frequency_wf].
  cbn [mbind outcome_bind fst snd].
  rewrite (decode_payload_packed _ root enc bs Hroot Hbs).
  assert (Hchar : Node.char root = None).
  { assert (Hfne : _make_frequency_dict text ≠ []).
    { intros H. apply _make_frequency_dict_nil in H. subst.
      by apply elem_of_nil in H1. }
    destruct (build_tree_leaves _ Hfne) as (root' & Hroot' & Hleaves).
    rewrite Hroot in Hroot'. injection Hroot' as <-.
    destruct (leaves_internal root) as (f & l & r & ->); [|done].
    rewrite Hleaves. by apply (frequency_two text c1 c2). }
  unfold _decode_text.
  rewrite (_decode_text_loop_encoding root text enc [] Hchar Henc).
  cbn [mbind outcome_bind app]. unfold verify. rewrite Hdata.
  cbn [mbind outcome_bind]. by rewrite decide_False by (by intros ?).
Qed.

(** ** A container with an intact header *)

Lemma format_08b_nonempty n : format_08b n ≠ [].
Proof.
  unfold format_08b. intros H. apply app_eq_nil in H as [_ H].
  destruct n as [|p|p]; try done. by destruct p; simpl in H;
    try apply app_eq_nil in H as [_ H].
Qed.

Lemma padding_count_readable (bs : bytes) :
  bs ≠ [] → ∃ n, int2 (take 8 (bs ≫= format_08b)) = Ret n.
Proof.
  destruct bs as [|b bs]; [done|]. intros _. rewrite bind_cons.
  pose proof (format_08b_nonempty b) as Hb.
  destruct (format_08b b) as [|x l]; [done|]. by eexists.
Qed.

Lemma header_length_container (file_hash line payload : bytes) :
  10%Z ∉ file_hash → 10%Z ∉ line →
  header_length (file_hash ++ [10%Z] ++ line ++ [10%Z] ++ payload)
    = length (file_hash ++ [10%Z] ++ line ++ [10%Z]).
Proof.
  intros H1 H2. unfold header_length. cbn [app].
  rewrite readline_line by done. rewrite readline_line by done.
  rewrite !length_app. simpl. rewrite length_app. simpl. lia.
Qed.

(** ** [heapq] keeps the heap order *)

Lemma parent_edge pos : 0 < pos → edge ((pos - 1) / 2) pos.
Proof.
  intros Hpos. unfold edge.
  pose proof (Nat.div_mod_eq (pos - 1) 2) as Hd.
  pose proof (Nat.mod_upper_bound (pos - 1) 2) as Hm. lia.
Qed.

Section heapq_order.
Context {A : Type} (lt : A → A → bool) (key : A → Z).
Context (Hlt : ∀ a b, lt a b = (key a <? key b)%Z).
Implicit Types heap : list A.

Local Ltac lookups :=
  repeat match goal with
  | H : context [<[_:=_]> _ !! _] |- _ => rewrite list_lookup_insert in H
  | H : context [length (<[_:=_]> _)] |- _ => rewrite length_insert in H
  | |- context [<[_:=_]> _ !! _] => rewrite list_lookup_insert
  | |- context [length (<[_:=_]> _)] => rewrite length_insert
  end;
  repeat case_decide; destruct_and?; simplify_eq; try done;
  try (unfold edge in *; lia).

Lemma heap_ordered_root heap x :
  heap_ordered key heap → heap !! 0 = Some x →
  ∀ i y, heap !! i = Some y → (key x ≤ key y)%Z.
Proof.
  intros Hord Hx i. induction i as [i IH] using lt_wf_ind. intros y Hy.
  destruct (decide (i = 0)) as [->|Hi]; [by simplify_eq|].
  assert (Hp : (i - 1) / 2 < i).
  { apply Nat.Div0.div_lt_upper_bound. lia. }
  destruct (heap !! ((i - 1) / 2)) as [z|] eqn:Hz.
  - trans (key z); [by eapply IH|].
    eapply Hord; [|done..]. apply parent_edge. lia.
  - apply lookup_ge_None in Hz. apply lookup_lt_Some in Hy. lia.
Qed.

Lemma _siftdown_loop_ordered fuel heap pos newitem :
  pos < length heap → pos ≤ fuel →
  ordered_except key (<[pos:=newitem]> heap) pos →
  ordered_across key (<[pos:=newitem]> heap) pos →
  heap_ordered key (heapq._siftdown_loop lt fuel heap 0 pos newitem).
Proof.
  assert (Hroot : ∀ heap newitem,
    ordered_except key (<[0:=newitem]> heap) 0 →
    heap_ordered key (<[0:=newitem]> heap)).
  { intros h n H p c x y Hedge. apply H; [done|]. unfold edge in Hedge. lia. }
  revert heap pos.
  induction fuel as [|fuel IH]; intros heap pos Hpos Hfuel H1 H2;
    cbn [heapq._siftdown_loop].
  { assert (pos = 0) as -> by lia. by apply Hroot. }
  case_decide as Hlt0; [|assert (pos = 0) as -> by lia; by apply Hroot].
  pose proof (parent_edge pos Hlt0) as Hedge.
  set (pp := (pos - 1) / 2) in *.
  assert (Hpp : pp < pos) by (unfold edge in Hedge; lia).
  destruct (heap !! pp) as [parent|] eqn:Hparent;
    [|apply lookup_ge_None in Hparent; lia].
  rewrite Hlt. destruct (Z.ltb_spec (key newitem) (key parent)) as [Hk|Hk].
  - apply IH; [rewrite length_insert; lia|lia| |].
    + intros p c x y Hpc Hc Hx Hy.
      destruct (decide (c = pos)) as [->|Hcpos].
      * assert (p = pp) as -> by (unfold edge in *; lia).
        lookups.
      * destruct (decide (p = pp)) as [->|Hppp].
        -- assert (key parent ≤ key y)%Z; [|lookups].
           apply (H1 pp c); [done|done|lookups|lookups].
        -- destruct (decide (p = pos)) as [->|Hppos].
           ++ assert (key parent ≤ key y)%Z; [|lookups].
              apply (H2 pp c); [done|done|lookups|lookups].
           ++ apply (H1 p c); [done|done|lookups|lookups].
    + intros g c x y Hg Hc Hx Hy.
      assert (Hgpp : g < pp) by (unfold edge in *; lia).
      assert (key x ≤ key parent)%Z.
      { apply (H1 g pp); [done|lia|lookups|lookups]. }
      destruct (decide (c = pos)) as [->|Hcpos]; [lookups|].
      assert (key parent ≤ key y)%Z; [|lia].
      apply (H1 pp c); [done|done|lookups|].
      assert (pp < c) by (unfold edge in *; lia). lookups.
  - intros p c x y Hpc Hx Hy.
    destruct (decide (c = pos)) as [->|Hcpos]; [|by eapply H1].
    assert (p = pp) as -> by (unfold edge in *; lia).
    lookups.
Qed.

Lemma _siftup_loop_ordered fuel heap pos :
  pos < length heap → length heap ≤ fuel + pos →
  ordered_away key heap pos → ordered_across key heap pos →
  let r := heapq._siftup_loop lt fuel heap (length heap) pos in
  r.2 < length r.1 ∧ length r.1 = length heap ∧ length heap ≤ 2 * r.2 + 1 ∧
  ordered_away key r.1 r.2 ∧ ordered_across key r.1 r.2.
Proof.
  revert heap pos.
  induction fuel as [|fuel IH]; intros heap pos Hpos Hfuel H1 H2;
    cbn [heapq._siftup_loop]; [lia|].
  case_decide as Hchild; [|cbn [fst snd]; split_and!; (done || lia)].
  set (left := 2 * pos + 1) in *.
  destruct (heap !! left) as [cl|] eqn:Hcl;
    [|apply lookup_ge_None in Hcl; lia].
  set (childpos := match heap !! (left + 1) with
                   | Some r =>
                       if bool_decide (left + 1 < length heap) && negb (lt cl r)
                       then left + 1 else left
                   | None => left
                   end).
  assert (Hchoice : edge pos childpos ∧ childpos < length heap ∧
    ∃ c, heap !! childpos = Some c ∧
         ∀ d y, edge pos d → heap !! d = Some y → (key c ≤ key y)%Z).
  { unfold childpos.
    destruct (heap !! (left + 1)) as [cr|] eqn:Hcr.
    - pose proof (lookup_lt_Some _ _ _ Hcr) as Hr.
      rewrite bool_decide_eq_true_2 by done. rewrite Hlt. cbn [andb].
      destruct (Z.ltb_spec (key cl) (key cr)) as [Hk|Hk]; cbn [negb].
      + split_and!; [left; unfold left; lia|done|].
        exists cl. split; [done|]. intros d y [->| ->] Hy; fold left in Hy.
        * by simplify_eq.
        * replace (2 * pos + 2) with (left + 1) in Hy by (unfold left; lia).
          simplify_eq. lia.
      + split_and!; [right; unfold left; lia|done|].
        exists cr. split; [done|]. intros d y [->| ->] Hy; fold left in Hy.
        * simplify_eq. lia.
        * replace (2 * pos + 2) with (left + 1) in Hy by (unfold left; lia).
          by simplify_eq.
    - split_and!; [left; unfold left; lia|done|].
      exists cl. split; [done|]. intros d y [->| ->] Hy; fold left in Hy.
      + by simplify_eq.
      + replace (2 * pos + 2) with (left + 1) in Hy by (unfold left; lia).
        simplify_eq. }
  destruct Hchoice as (Hedge & Hlen & c & Hc & Hmin).
  rewrite Hc.
  assert (Hposc : pos < childpos) by (unfold edge in Hedge; lia).
  destruct (IH (<[pos:=c]> heap) childpos) as (R1 & R2 & R3 & R4 & R5).
  - rewrite length_insert. lia.
  - rewrite length_insert. lia.
  - intros p d x y Hpd Hd Hp Hx Hy.
    destruct (decide (d = pos)) as [->|Hdpos].
    + assert (key x ≤ key c)%Z; [|lookups].
      apply (H2 p childpos); [done|done|lookups|done].
    + destruct (decide (p = pos)) as [->|Hppos].
      * assert (key c ≤ key y)%Z; [|lookups].
        apply (Hmin d); [done|lookups].
      * apply (H1 p d); [done|done|done|lookups|lookups].
  - intros g d x y Hg Hd Hx Hy.
    assert (g = pos) as -> by (unfold edge in *; lia).
    assert (pos < d) by (unfold edge in *; lia).
    assert (key c ≤ key y)%Z; [|lookups].
    apply (H1 childpos d); [done|lia|lia|done|lookups].
  - rewrite length_insert in *. by split_and!.
Qed.

Lemma _siftup_ordered heap :
  ordered_away key heap 0 → heap_ordered key (heapq._siftup lt heap 0).
Proof.
  intros H1. unfold heapq._siftup.
  destruct (heap !! 0) as [newitem|] eqn:Hnew.
  2:{ apply lookup_ge_None in Hnew. destruct heap; [|simpl in Hnew; lia].
      by intros p c x y _ ?. }
  pose proof (lookup_lt_Some _ _ _ Hnew) as Hlen.
  pose proof (_siftup_loop_ordered (length heap) heap 0 Hlen) as Hloop.
  cbv zeta in Hloop.
  destruct (heapq._siftup_loop lt (length heap) heap (length heap) 0)
    as [h pos]. cbn [fst snd] in Hloop.
  destruct Hloop as (R1 & R2 & R3 & R4 & R5); [lia|done| |].
  { intros g c x y Hg. unfold edge in Hg. lia. }
  apply _siftdown_loop_ordered; [by rewrite length_insert|done| |].
  - intros p c x y Hpc Hc Hx Hy.
    destruct (decide (p = pos)) as [->|Hp].
    + apply lookup_lt_Some in Hy. rewrite !length_insert in Hy.
      unfold edge in Hpc. lia.
    + apply (R4 p c); [done|done|done|lookups|lookups].
  - intros g c x y Hg Hc Hx Hy.
    apply lookup_lt_Some in Hy. rewrite !length_insert in Hy.
    unfold edge in Hc. lia.
Qed.

Lemma heappush_ordered heap item :
  heap_ordered key heap → heap_ordered key (heapq.heappush lt heap item).
Proof.
  intros Hord. unfold heapq.heappush, heapq._siftdown.
  rewrite length_app. cbn [length].
  replace (length heap + 1 - 1) with (length heap) by lia.
  rewrite lookup_app_r, Nat.sub_diag by done. cbn [lookup list_lookup].
  assert (Hprefix : ∀ i x, i ≠ length heap →
    <[length heap:=item]> (heap ++ [item]) !! i = Some x → heap !! i = Some x).
  { intros i x Hi Hx. rewrite list_lookup_insert_ne in Hx by done.
    pose proof (lookup_lt_Some _ _ _ Hx) as Hl.
    rewrite length_app in Hl. cbn [length] in Hl.
    by rewrite lookup_app_l in Hx by lia. }
  apply _siftdown_loop_ordered; [rewrite length_app; simpl; lia|done| |].
  - intros p c x y Hpc Hc Hx Hy.
    apply Hprefix in Hy; [|done].
    apply Hprefix in Hx.
    + by eapply Hord.
    + apply lookup_lt_Some in Hy. unfold edge in Hpc. lia.
  - intros g c x y Hg Hc Hx Hy.
    apply lookup_lt_Some in Hy. rewrite length_insert, length_app in Hy.
    cbn [length] in Hy. unfold edge in Hc. lia.
Qed.

(** [heappop] returns a smallest element and leaves a heap. *)
Lemma heappop_ordered heap item heap' :
  heap_ordered key heap → heapq.heappop lt heap = Ret (item, heap') →
  heap_ordered key heap' ∧ ∀ y, y ∈ heap → (key item ≤ key y)%Z.
Proof.
  intros Hord. unfold heapq.heappop.
  destruct (last heap) as [lastelt|] eqn:Hlast; [|done].
  apply last_Some in Hlast as [l ->]. rewrite removelast_last.
  destruct l as [|returnitem l]; intros [= <- <-].
  - split; [by intros p c x y _ ?|].
    by intros y ->%list_elem_of_singleton.
  - split.
    + apply _siftup_ordered. intros p c x y Hpc Hc Hp Hx Hy.
      destruct p as [|p]; [done|]. destruct c as [|c]; [done|].
      eapply (Hord (S p) (S c)); [done|by apply lookup_app_l_Some..].
    + intros y [i Hy]%list_elem_of_lookup.
      by eapply (heap_ordered_root _ _ Hord).
Qed.
End heapq_order.

(** ** Rearranging frequencies over given depths *)

Lemma dot_app l1 l2 : dot (l1 ++ l2) = (dot l1 + dot l2)%Z.
Proof. unfold dot. induction l1 as [|p l1 IH]; simpl; lia. Qed.

Lemma dot_cons p l : dot (p :: l) = (p.1 * Z.of_nat p.2 + dot l)%Z.
Proof. done. Qed.

Global Instance dot_Permutation : Proper ((≡ₚ) ==> (=)) dot.
Proof.
  intros l1 l2 H. induction H as [|p l1 l2 _ IH|p q l|l1 l2 l3 _ IH1 _ IH2].
  - done.
  - by rewrite !dot_cons, IH.
  - rewrite !dot_cons. lia.
  - by rewrite IH1.
Qed.

Lemma Permutation_take_out (v : Z) (l1 l2 rest : list Z) :
  l1 ++ v :: l2 ≡ₚ v :: rest → l1 ++ l2 ≡ₚ rest.
Proof.
  intros H. rewrite <- Permutation_middle in H.
  by apply Permutation_cons_inv in H.
Qed.

Lemma elem_of_fmap_fst_split (PO : list (Z * nat)) (v : Z) :
  v ∈ PO.*1 → ∃ P1 d P2, PO = P1 ++ (v, d) :: P2.
Proof.
  intros ([v' d] & -> & Hin)%list_elem_of_fmap.
  apply list_elem_of_split in Hin as (P1 & P2 & ->). by exists P1, d, P2.
Qed.

(** One frequency [v] is taken out of the leaves and [u], which is not
    smaller, is put in its place. *)
Lemma exchange_one (PO : list (Z * nat)) (H : nat) (u v : Z) (rest : list Z) :
  Forall (λ d, d ≤ H) PO.*2 → (v ≤ u)%Z → u :: PO.*1 ≡ₚ v :: rest →
  ∃ PO', PO'.*2 = PO.*2 ∧ PO'.*1 ≡ₚ rest ∧
         (dot PO' ≤ dot PO + (u - v) * Z.of_nat H)%Z.
Proof.
  intros Hd Hvu Hperm. destruct (decide (v = u)) as [->|Hne].
  { exists PO. split_and!; [done|by apply Permutation_cons_inv in Hperm|nia]. }
  assert (Hin : v ∈ PO.*1).
  { assert (Hv : v ∈ u :: PO.*1) by (rewrite Hperm; left).
    by apply elem_of_cons in Hv as [?|?]. }
  apply elem_of_fmap_fst_split in Hin as (P1 & d & P2 & ->).
  exists (P1 ++ (u, d) :: P2). split_and!.
  - by rewrite !fmap_app, !fmap_cons.
  - rewrite !fmap_app, !fmap_cons in *. cbn [fst] in *.
    apply (Permutation_take_out v (u :: P1.*1)) in Hperm.
    by rewrite <- Permutation_middle.
  - rewrite fmap_app, fmap_cons in Hd.
    apply Forall_app in Hd as [_ Hd]. apply Forall_cons in Hd as [Hd _].
    rewrite !dot_app, !dot_cons. cbn [fst snd] in *. nia.
Qed.

(** The two smallest frequencies [a] and [b] are taken out of the leaves
    and [x] and [y] are put in their places. *)
Lemma exchange_two (PO : list (Z * nat)) (H : nat) (x y a b : Z)
    (rest : list Z) :
  Forall (λ d, d ≤ H) PO.*2 →
  x :: y :: PO.*1 ≡ₚ a :: b :: rest →
  Forall (λ z, a ≤ z)%Z (b :: rest) → Forall (λ z, b ≤ z)%Z rest →
  ∃ PO', PO'.*2 = PO.*2 ∧ PO'.*1 ≡ₚ rest ∧
         (dot PO' ≤ dot PO + (x + y - a - b) * Z.of_nat H)%Z.
Proof.
  intros Hd Hperm Ha Hb.
  assert (Hall : Forall (λ z, a ≤ z)%Z (x :: y :: PO.*1)).
  { rewrite Hperm. by constructor. }
  apply Forall_cons in Hall as [Hax Hall].
  apply Forall_cons in Hall as [Hay Hall].
  assert (Hstep : ∃ PO1 z, PO1.*2 = PO.*2 ∧ z :: PO1.*1 ≡ₚ b :: rest ∧
            (dot PO1 + z * Z.of_nat H ≤ dot PO + (x + y - a) * Z.of_nat H)%Z).
  { destruct (decide (a = x)) as [->|Hnx].
    { exists PO, y. split_and!; [done|by apply Permutation_cons_inv in Hperm|lia]. }
    destruct (decide (a = y)) as [->|Hny].
    { exists PO, x. split_and!; [done| |lia].
      rewrite (Permutation_swap y x) in Hperm.
      by apply Permutation_cons_inv in Hperm. }
    assert (Hin : a ∈ PO.*1).
    { assert (Hv : a ∈ x :: y :: PO.*1) by (rewrite Hperm; left).
      apply elem_of_cons in Hv as [?|Hv]; [done|].
      by apply elem_of_cons in Hv as [?|?]. }
    apply elem_of_fmap_fst_split in Hin as (P1 & d & P2 & ->).
    exists (P1 ++ (x, d) :: P2), y. split_and!.
    - by rewrite !fmap_app, !fmap_cons.
    - rewrite !fmap_app, !fmap_cons in *. cbn [fst] in *.
      apply (Permutation_take_out a (x :: y :: P1.*1)) in Hperm.
      rewrite <- Hperm, <- Permutation_middle. apply Permutation_swap.
    - rewrite fmap_app, fmap_cons in Hd.
      apply Forall_app in Hd as [_ Hd]. apply Forall_cons in Hd as [Hd _].
      rewrite !dot_app, !dot_cons. cbn [fst snd] in *. nia. }
  destruct Hstep as (PO1 & z & Hdep & Hperm1 & Hdot1).
  assert (Hbz : (b ≤ z)%Z).
  { assert (Hz : z ∈ b :: rest) by (rewrite <- Hperm1; left).
    apply elem_of_cons in Hz as [->|Hz]; [done|].
    by eapply Forall_forall in Hb. }
  destruct (exchange_one PO1 H z b rest) as (PO2 & H1 & H2 & H3);
    [by rewrite Hdep|done..|].
  exists PO2. split_and!; [congruence|done|lia].
Qed.

(** ** Trees and their leaf depths *)

Lemma leaf_depths_fst d t : (leaf_depths d t).*1 = (leaves t).*2.
Proof.
  revert d. induction t as [c f|f l IHl r IHr]; intros d; [done|].
  cbn [leaf_depths leaves]. by rewrite !fmap_app, IHl, IHr.
Qed.

Lemma leaf_depths_length d t : length (leaf_depths d t) = length (leaves t).
Proof. by rewrite <- (length_fmap fst), leaf_depths_fst, length_fmap. Qed.

Lemma leaf_depths_height d t :
  Forall (λ k, k ≤ d + height t) (leaf_depths d t).*2.
Proof.
  revert d. induction t as [c f|f l IHl r IHr]; intros d.
  - repeat constructor. simpl. lia.
  - cbn [leaf_depths height]. rewrite fmap_app. apply Forall_app. split.
    + eapply Forall_impl; [apply IHl|]. intros k Hk. simpl in Hk. lia.
    + eapply Forall_impl; [apply IHr|]. intros k Hk. simpl in Hk. lia.
Qed.

Lemma height_0 t : height t = 0 → ∃ c f, t = Leaf c f.
Proof. destruct t; [by eauto|done]. Qed.

(** A tree with two leaves or more has two sibling leaves at its greatest
    depth; merging them gives a tree with one leaf less. *)
Lemma deepest_pair t d :
  Node.char t = None →
  ∃ x y PO tm,
    1 ≤ height t ∧
    leaf_depths d t ≡ₚ (x, d + height t) :: (y, d + height t) :: PO ∧
    Forall (λ k, k ≤ d + height t) PO.*2 ∧
    leaf_depths d tm ≡ₚ ((x + y)%Z, d + height t - 1) :: PO.
Proof.
  revert d. induction t as [c f|f l IHl r IHr]; intros d Hchar; [done|].
  cbn [height leaf_depths].
  destruct (decide (height r ≤ height l)) as [Hle|Hgt].
  - rewrite Nat.max_l by done.
    destruct l as [cl fl|f' l1 l2].
    + apply Nat.le_0_r, height_0 in Hle as (cr & fr & ->).
      exists fl, fr, [], (Leaf [] (fl + fr)%Z). cbn [height leaf_depths].
      replace (d + 1) with (S d) by lia. replace (S d - 1) with d by lia.
      split_and!; done.
    + destruct (IHl (S d)) as (x & y & PO & tm & Hh & Hp & Hd & Hm); [done|].
      replace (d + S (height (Internal f' l1 l2)))
        with (S d + height (Internal f' l1 l2)) by lia.
      exists x, y, (PO ++ leaf_depths (S d) r), (Internal f tm r).
      split_and!.
      * lia.
      * by rewrite Hp.
      * rewrite fmap_app. apply Forall_app. split; [done|].
        eapply Forall_impl; [apply leaf_depths_height|].
        intros k Hk. simpl in Hk. lia.
      * cbn [leaf_depths]. by rewrite Hm.
  - rewrite Nat.max_r by lia.
    destruct r as [cr fr|f' r1 r2]; [simpl in Hgt; lia|].
    destruct (IHr (S d)) as (x & y & PO & tm & Hh & Hp & Hd & Hm); [done|].
    replace (d + S (height (Internal f' r1 r2)))
      with (S d + height (Internal f' r1 r2)) by lia.
    exists x, y, (leaf_depths (S d) l ++ PO), (Internal f l tm).
    split_and!.
    + lia.
    + rewrite Hp. by rewrite <- !Permutation_middle.
    + rewrite fmap_app. apply Forall_app. split; [|done].
      eapply Forall_impl; [apply leaf_depths_height|].
      intros k Hk. simpl in Hk. lia.
    + cbn [leaf_depths]. rewrite Hm. by rewrite <- Permutation_middle.
Qed.

Lemma leaves_relabel t (ws : list Z) :
  length ws = length (leaves t) →
  (leaves (relabel t ws)).*2 = ws ∧
  ∀ d, (leaf_depths d (relabel t ws)).*2 = (leaf_depths d t).*2.
Proof.
  revert ws. induction t as [c f|f l IHl r IHr]; intros ws Hlen.
  - destruct ws as [|w [|]]; done.
  - cbn [leaves] in Hlen. rewrite length_app in Hlen. cbn [relabel leaves].
    destruct (IHl (take (length (leaves l)) ws)) as [Hl1 Hl2].
    { rewrite length_take. lia. }
    destruct (IHr (drop (length (leaves l)) ws)) as [Hr1 Hr2].
    { rewrite length_drop. lia. }
    split.
    + by rewrite fmap_app, Hl1, Hr1, take_drop.
    + intros d. cbn [leaf_depths]. by rewrite !fmap_app, Hl2, Hr2.
Qed.

(** Any assignment of frequencies to the leaf depths of a tree is the
    leaf list of a tree. *)
Lemma realise (tm : HuffmanNode) (Q : list (Z * nat)) :
  Q.*2 ≡ₚ (leaf_depths 0 tm).*2 → ∃ t', leaf_depths 0 t' ≡ₚ Q.
Proof.
  intros Hperm. symmetry in Hperm.
  apply Permutation_map_inv in Hperm as (Q' & Hd & HQ).
  change (map snd Q') with (Q'.*2) in Hd.
  assert (Hlen : length Q'.*1 = length (leaves tm)).
  { rewrite length_fmap, <- (length_fmap snd), <- Hd, length_fmap.
    apply leaf_depths_length. }
  destruct (leaves_relabel tm Q'.*1 Hlen) as [Hw Hdep].
  exists (relabel tm Q'.*1). rewrite HQ.
  rewrite <- (zip_fst_snd (leaf_depths 0 (relabel tm Q'.*1))).
  rewrite leaf_depths_fst, Hw, Hdep, Hd. by rewrite zip_fst_snd.
Qed.

(** The exchange step of Huffman's argument: in any tree with two leaves
    or more the two smallest frequencies can be made siblings and merged,
    at a cost that drops by their sum at least. *)
Lemma exchange t (a b : Z) (rest : list Z) :
  1 < length (leaves t) →
  (leaves t).*2 ≡ₚ a :: b :: rest →
  Forall (λ z, a ≤ z)%Z (b :: rest) → Forall (λ z, b ≤ z)%Z rest →
  ∃ t', (leaves t').*2 ≡ₚ (a + b)%Z :: rest ∧ (cost t' + a + b ≤ cost t)%Z.
Proof.
  intros Hlen Hperm Ha Hb.
  destruct (leaves_internal t Hlen) as (f & l & r & ->).
  destruct (deepest_pair (Internal f l r) 0) as (x & y & PO & tm & Hh & Hp & Hd & Hm);
    [done|].
  set (H := height (Internal f l r)) in *. cbn [Nat.add] in *.
  destruct (exchange_two PO H x y a b rest) as (PO' & Hdep & Hrest & Hdot);
    [done| |done|done|].
  { rewrite <- Hperm, <- leaf_depths_fst with (d := 0), Hp. done. }
  destruct (realise tm (((a + b)%Z, H - 1) :: PO')) as [t' Ht'].
  { rewrite Hm, !fmap_cons. cbn [snd]. by rewrite Hdep. }
  exists t'. split.
  - rewrite <- leaf_depths_fst with (d := 0), Ht', fmap_cons. cbn [fst].
    by rewrite Hrest.
  - unfold cost. rewrite Ht', Hp, !dot_cons. cbn [fst snd].
    rewrite Nat2Z.inj_sub by lia. nia.
Qed.

(** ** The greedy merge is optimal *)

Lemma dot_leaf_depths_S d t :
  dot (leaf_depths (S d) t) = (dot (leaf_depths d t) + weight t)%Z.
Proof.
  revert d. induction t as [c f|f l IHl r IHr]; intros d.
  - cbn. lia.
  - cbn [leaf_depths weight]. rewrite !dot_app, (IHl (S d)), (IHr (S d)). lia.
Qed.

Lemma cost_Internal f l r :
  cost (Internal f l r) = (cost l + cost r + weight l + weight r)%Z.
Proof.
  unfold cost. cbn [leaf_depths]. rewrite dot_app, !dot_leaf_depths_S. lia.
Qed.

Lemma consistent_freq t : consistent t → Node.freq t = weight t.
Proof.
  induction t as [c f|f l IHl r IHr]; [done|].
  intros (-> & Hl & Hr). cbn [weight]. by rewrite IHl, IHr.
Qed.

Lemma sum_cost_cons t h : sum_cost (t :: h) = (cost t + sum_cost h)%Z.
Proof. done. Qed.

Global Instance sum_cost_Permutation : Proper ((≡ₚ) ==> (=)) sum_cost.
Proof.
  intros l1 l2 H. induction H as [|p l1 l2 _ IH|p q l|l1 l2 l3 _ IH1 _ IH2].
  - done.
  - by rewrite !sum_cost_cons, IH.
  - rewrite !sum_cost_cons. lia.
  - by rewrite IH1.
Qed.

Lemma cost_single_leaf t : length (leaves t) = 1 → cost t = 0%Z.
Proof.
  destruct t as [c f|f l r]; [intros _; cbn; lia|].
  cbn [leaves]. rewrite length_app.
  pose proof (leaves_nonempty l). pose proof (leaves_nonempty r). lia.
Qed.

Lemma heappop_min heap node heap' :
  heap_ordered Node.freq heap →
  heapq.heappop Node.__lt__ heap = Ret (node, heap') →
  heap_ordered Node.freq heap' ∧ heap ≡ₚ node :: heap' ∧
  Forall (λ z, Node.freq node ≤ z)%Z (Node.freq <$> heap').
Proof.
  intros Hord Hpop.
  destruct (heappop_ordered Node.__lt__ Node.freq (λ _ _, eq_refl)
              heap node heap' Hord Hpop) as [Hord' Hmin].
  pose proof (heappop_perm _ _ _ _ Hpop) as Hperm.
  split_and!; [done..|].
  apply Forall_fmap, Forall_forall. intros y Hy. apply Hmin.
  rewrite Hperm. by right.
Qed.

Lemma _merge_nodes_loop_optimal fuel (h : list HuffmanNode) :
  length h ≤ fuel → h ≠ [] →
  heap_ordered Node.freq h → Forall consistent h →
  ∃ root, _merge_nodes_loop fuel h = Ret [root] ∧
    ∀ t, (leaves t).*2 ≡ₚ Node.freq <$> h →
         (cost root ≤ sum_cost h + cost t)%Z.
Proof.
  revert h. induction fuel as [|fuel IH]; intros h Hlen Hne Hord Hcons.
  { destruct h; [done|simpl in Hlen; lia]. }
  cbn [_merge_nodes_loop]. case_decide as Hlt.
  - destruct (heappop_nonempty Node.__lt__ h Hne) as (node1 & h1 & Hpop1).
    destruct (heappop_min h node1 h1 Hord Hpop1) as (Hord1 & Hperm1 & Hmin1).
    assert (Hne1 : h1 ≠ []).
    { intros ->. apply Permutation_length in Hperm1. simpl in Hperm1. lia. }
    destruct (heappop_nonempty Node.__lt__ h1 Hne1) as (node2 & h2 & Hpop2).
    destruct (heappop_min h1 node2 h2 Hord1 Hpop2) as (Hord2 & Hperm2 & Hmin2).
    rewrite Hpop1. cbn [mbind outcome_bind fst snd]. rewrite Hpop2.
    cbn [mbind outcome_bind fst snd].
    set (merged := Internal (Node.freq node1 + Node.freq node2) node1 node2).
    assert (Hall : Forall consistent (node1 :: node2 :: h2)).
    { by rewrite <- Hperm2, <- Hperm1. }
    apply Forall_cons in Hall as [Hc1 Hall].
    apply Forall_cons in Hall as [Hc2 Hall].
    destruct (IH (heapq.heappush Node.__lt__ h2 merged))
      as (root & Hroot & Hopt).
    { rewrite heappush_length. apply Permutation_length in Hperm1, Hperm2.
      simpl in *. lia. }
    { intros Hnil. apply (f_equal length) in Hnil.
      by rewrite heappush_length in Hnil. }
    { by apply (heappush_ordered Node.__lt__ Node.freq (λ _ _, eq_refl)). }
    { rewrite heappush_perm. by constructor. }
    exists root. split; [done|]. intros t Ht.
    rewrite Hperm1, Hperm2, !fmap_cons in Ht.
    rewrite Hperm2, fmap_cons in Hmin1.
    destruct (exchange t (Node.freq node1) (Node.freq node2) (Node.freq <$> h2))
      as (t' & Ht' & Hcost); [|done..|].
    { rewrite <- (length_fmap snd), Ht. simpl. lia. }
    specialize (Hopt t'). rewrite heappush_perm in Hopt.
    rewrite fmap_cons, sum_cost_cons in Hopt. specialize (Hopt Ht').
    rewrite Hperm1, Hperm2, !sum_cost_cons.
    unfold merged in Hopt. rewrite cost_Internal in Hopt.
    rewrite <- !consistent_freq in Hopt by done. lia.
  - destruct h as [|root [|]]; [done| |simpl in Hlt; lia].
    exists root. split; [done|]. intros t Ht.
    rewrite sum_cost_cons. cbn [sum_cost foldr].
    rewrite (cost_single_leaf t); [lia|].
    by rewrite <- (length_fmap snd), Ht.
Qed.

Lemma _build_heap_ordered frequency :
  heap_ordered Node.freq (heap (_build_heap frequency (mkCompressor [] [] []))).
Proof.
  unfold _build_heap. cbn [heap].
  assert (Hnil : heap_ordered Node.freq []) by (by intros p c x y _ ?).
  revert Hnil. generalize (@nil HuffmanNode) as h.
  induction frequency as [|kv d IH]; intros h Hh; [done|].
  cbn [foldl]. apply IH.
  by apply (heappush_ordered Node.__lt__ Node.freq (λ _ _, eq_refl)).
Qed.

(** ** Counting characters *)

Lemma _make_frequency_dict_fold text :
  _make_frequency_dict text = foldl count_step [] text.
Proof. done. Qed.

Lemma count_step_keys (d : dict pystr Z) (text : pystr) :
  (foldl count_step d text).*1
    = d.*1 ++ ((λ c, [c]) <$> filter (λ c, [c] ∉ d.*1) (first_occurrences text)).
Proof.
  revert d. induction text as [|c text IH]; intros d.
  - cbn. by rewrite app_nil_r.
  - cbn [foldl first_occurrences]. rewrite IH. unfold count_step.
    rewrite !dict_set_keys. rewrite filter_cons. case_decide as Hin.
    + rewrite decide_False by (by intros ?). f_equal. f_equal.
      rewrite list_filter_filter. apply list_filter_iff.
      intros x. split; [|tauto]. intros Hx. split; [done|]. by intros ->.
    + rewrite decide_True by done. rewrite <- (assoc_L (++)). f_equal.
      cbn [fmap list_fmap app]. f_equal. f_equal.
      rewrite list_filter_filter. apply list_filter_iff.
      intros x. rewrite not_elem_of_app, list_elem_of_singleton.
      split; [intros [? Hx]|intros [Hx ?]]; (split; [done|]); congruence.
Qed.

Lemma str_count_notin c (text : pystr) : c ∉ text → str_count c text = 0%Z.
Proof.
  unfold str_count. induction text as [|c' text IH]; [done|].
  intros [Hne Hnin]%not_elem_of_cons.
  rewrite filter_cons_False by done. auto.
Qed.

Lemma filter_all {A} (P : A → Prop) `{!∀ x, Decision (P x)} (l : list A) :
  (∀ x, P x) → filter P l = l.
Proof.
  intros HP. induction l as [|x l IH]; [done|].
  by rewrite filter_cons_True, IH.
Qed.

Lemma count_step_get (d : dict pystr Z) (text : pystr) (c : Z) :
  PyDict.get (foldl count_step d text) [c]
    = if decide (c ∈ text)
      then Some (default 0%Z (PyDict.get d [c]) + str_count c text)%Z
      else PyDict.get d [c].
Proof.
  revert d. induction text as [|c' text IH]; intros d.
  - cbn [foldl]. rewrite decide_False by apply not_elem_of_nil. done.
  - cbn [foldl]. rewrite IH. unfold count_step. rewrite !dict_get_set.
    destruct (decide (c' = c)) as [->|Hne].
    + rewrite (decide_True (P := [c] = [c])) by done.
      rewrite (decide_True (P := c ∈ c :: text)) by left.
      assert (Hc : str_count c (c :: text) = (1 + str_count c text)%Z).
      { unfold str_count. rewrite filter_cons_True by done. simpl length. lia. }
      rewrite Hc. cbn [default from_option id]. case_decide as Hin.
      * f_equal. lia.
      * f_equal. rewrite (str_count_notin c text) by done. lia.
    + rewrite (decide_False (P := [c] = [c'])) by congruence.
      assert (Hc : str_count c (c' :: text) = str_count c text).
      { unfold str_count. by rewrite filter_cons_False. }
      rewrite Hc. case_decide as Hin.
      * by rewrite decide_True by (by right).
      * rewrite decide_False; [done|]. intros [?|?]%elem_of_cons; congruence.
Qed.

Lemma dict_set_total (d : dict pystr Z) (g : pystr → Z) k :
  foldr (λ kv acc, kv.2 * g kv.1 + acc)%Z 0%Z
        (PyDict.set d k (default 0 (PyDict.get d k) + 1)%Z)
    = (foldr (λ kv acc, kv.2 * g kv.1 + acc) 0 d + g k)%Z.
Proof.
  induction d as [|[k' v'] d IH]; cbn [PyDict.set PyDict.get foldr].
  - cbn. lia.
  - case_decide as Hk; cbn [foldr fst snd default from_option id].
    + subst. lia.
    + rewrite IH. lia.
Qed.

Lemma count_step_total (d : dict pystr Z) (g : pystr → Z) (text : pystr) :
  foldr (λ kv acc, kv.2 * g kv.1 + acc)%Z 0%Z (foldl count_step d text)
    = (foldr (λ kv acc, kv.2 * g kv.1 + acc) 0 d
       + foldr (λ c acc, g [c] + acc) 0 text)%Z.
Proof.
  revert d. induction text as [|c text IH]; intros d; cbn [foldl foldr].
  - lia.
  - rewrite IH. unfold count_step. rewrite dict_set_total. lia.
Qed.

Lemma total_values (d : dict pystr Z) :
  foldr Z.add 0%Z d.*2 = foldr (λ kv acc, kv.2 * 1 + acc)%Z 0%Z d.
Proof. induction d as [|[k v] d IH]; [done|]. cbn in *. rewrite IH. lia. Qed.

Lemma _make_frequency_dict_first (text : pystr) :
  (_make_frequency_dict text).*1 = (λ c, [c]) <$> first_occurrences text.
Proof.
  rewrite _make_frequency_dict_fold, count_step_keys.
  cbn [fmap list_fmap app]. f_equal.
  apply filter_all. intros x. apply not_elem_of_nil.
Qed.

Lemma _make_frequency_dict_get (text : pystr) (c : Z) :
  PyDict.get (_make_frequency_dict text) [c]
    = if decide (c ∈ text) then Some (str_count c text) else None.
Proof.
  rewrite _make_frequency_dict_fold, count_step_get. cbn. by case_decide.
Qed.

Lemma _make_frequency_dict_total (text : pystr) :
  foldr Z.add 0%Z (_make_frequency_dict text).*2 = Z.of_nat (length text).
Proof.
  rewrite _make_frequency_dict_fold.
  pose proof (count_step_total [] (λ _, 1%Z) text) as H. cbn beta in H.
  rewrite total_values, H. cbn [foldr]. clear H.
  induction text as [|c text IH]; cbn [foldr length]; lia.
Qed.

(** ** The merge loop *)

Lemma _merge_nodes_loop_nil fuel : _merge_nodes_loop fuel [] = Ret [].
Proof. by destruct fuel. Qed.

(** A property of nodes that every merge of the two least frequent nodes
    preserves holds of all nodes left by the loop. *)
Lemma _merge_nodes_loop_invariant (P : HuffmanNode → Prop) fuel
    (h h' : list HuffmanNode) :
  (∀ node1 node2, P node1 → P node2 →
     (Node.freq node1 ≤ Node.freq node2)%Z →
     P (Internal (Node.freq node1 + Node.freq node2) node1 node2)) →
  heap_ordered Node.freq h → Forall P h →
  _merge_nodes_loop fuel h = Ret h' → Forall P h'.
Proof.
  intros Hstep. revert h. induction fuel as [|fuel IH]; intros h Hord HP.
  { by intros [= <-]. }
  cbn [_merge_nodes_loop]. case_decide as Hlt; [|by intros [= <-]].
  destruct (heapq.heappop Node.__lt__ h) as [[node1 h1]| |] eqn:Hpop1;
    cbn [mbind outcome_bind fst snd]; [|done..].
  destruct (heappop_min h node1 h1 Hord Hpop1) as (Hord1 & Hperm1 & Hmin1).
  destruct (heapq.heappop Node.__lt__ h1) as [[node2 h2]| |] eqn:Hpop2;
    cbn [mbind outcome_bind fst snd]; [|done..].
  destruct (heappop_min h1 node2 h2 Hord1 Hpop2) as (Hord2 & Hperm2 & Hmin2).
  rewrite Hperm1, Hperm2 in HP.
  apply Forall_cons in HP as [HP1 HP]. apply Forall_cons in HP as [HP2 HP].
  apply IH.
  - by apply (heappush_ordered Node.__lt__ Node.freq (λ _ _, eq_refl)).
  - rewrite heappush_perm. constructor; [|done]. apply Hstep; [done..|].
    rewrite Hperm2, fmap_cons in Hmin1. by apply Forall_cons in Hmin1 as [? _].
Qed.

Lemma build_tree_invariant (P : HuffmanNode → Prop) frequency root :
  (∀ c f, P (Leaf c f)) →
  (∀ node1 node2, P node1 → P node2 →
     (Node.freq node1 ≤ Node.freq node2)%Z →
     P (Internal (Node.freq node1 + Node.freq node2) node1 node2)) →
  build_tree frequency = Ret root → P root.
Proof.
  intros Hleaf Hstep. unfold build_tree, _merge_nodes.
  set (s := _build_heap frequency _).
  destruct (_merge_nodes_loop _ (heap s)) as [h| |] eqn:Hloop;
    cbn [mbind outcome_bind]; [|done..].
  apply (_merge_nodes_loop_invariant P) in Hloop; [|done| |].
  - unfold heap_root. cbn [heap]. destruct h as [|root' h]; [done|].
    intros [= <-]. by apply Forall_cons in Hloop as [? _].
  - apply _build_heap_ordered.
  - pose proof (_build_heap_perm frequency (mkCompressor [] [] [])) as Hperm.
    fold s in Hperm. rewrite Hperm. cbn [heap]. rewrite app_nil_r.
    apply Forall_fmap, Forall_true. intros kv. apply Hleaf.
Qed.

Lemma weight_leaves t : weight t = foldr Z.add 0%Z (leaves t).*2.
Proof.
  induction t as [c f|f l IHl r IHr]; cbn [weight leaves].
  - cbn. lia.
  - rewrite fmap_app, foldr_app, IHl, IHr.
    generalize (leaves r).*2 as b. generalize (leaves l).*2 as a.
    intros a b. induction a as [|x a IH]; cbn [foldr]; [lia|]. rewrite <- IH. lia.
Qed.

Lemma sum_Permutation (l1 l2 : list Z) :
  l1 ≡ₚ l2 → foldr Z.add 0%Z l1 = foldr Z.add 0%Z l2.
Proof.
  induction 1 as [|x l1 l2 _ IH|x y l|l1 l2 l3 _ IH1 _ IH2]; cbn [foldr]; lia.
Qed.

Lemma _build_heap_ordered_from frequency s :
  heap_ordered Node.freq (heap s) →
  heap_ordered Node.freq (heap (_build_heap frequency s)).
Proof.
  unfold _build_heap. cbn [heap]. generalize (heap s) as h.
  induction frequency as [|kv d IH]; intros h Hh; [done|].
  cbn [foldl]. apply IH.
  by apply (heappush_ordered Node.__lt__ Node.freq (λ _ _, eq_refl)).
Qed.

(** ** The two mappings of [_make_codes_helper] *)

Lemma paths_codes_NoDup t code : NoDup (paths t code).*2.
Proof.
  revert code. induction t as [c f|f l IHl r IHr]; intros code; cbn [paths].
  - apply NoDup_singleton.
  - rewrite fmap_app. apply NoDup_app. split_and!; [apply IHl| |apply IHr].
    intros q ([k1 q1] & Heq1 & (q1' & Hq1 & _)%paths_extend)%list_elem_of_fmap
             ([k2 q2] & Heq2 & (q2' & Hq2 & _)%paths_extend)%list_elem_of_fmap.
    cbn [snd] in Heq1, Heq2. rewrite Heq1, Hq1, Hq2 in Heq2.
    rewrite <- !(assoc_L (++)) in Heq2.
    apply app_inv_head in Heq2. discriminate.
Qed.

Lemma _make_codes_helper_fresh root h :
  NoDup (leaves root).*1 →
  let s := _make_codes_helper root [] (mkCompressor h [] []) in
  codes s = paths root [] ∧
  reverse_mapping s = (λ kv, (kv.2, kv.1)) <$> paths root [].
Proof.
  intros Hnd. cbv zeta.
  rewrite _make_codes_helper_codes, _make_codes_helper_reverse_mapping.
  cbn [codes reverse_mapping]. split.
  - apply (dict_set_all []). by rewrite paths_keys.
  - transitivity (foldl (λ (d : dict bits pystr) kv, PyDict.set d kv.1 kv.2) []
                    ((λ kv : pystr * bits, (kv.2, kv.1)) <$> paths root [])).
    + generalize (@nil (bits * pystr)) as d.
      induction (paths root []) as [|kv l IH]; intros d; [done|].
      cbn [foldl fmap list_fmap fst snd]. apply IH.
    + apply (dict_set_all []). cbn [app fmap list_fmap].
      rewrite <- list_fmap_compose.
      erewrite list_fmap_ext; [apply (paths_codes_NoDup root [])|].
      by intros i [k q] _.
Qed.

(** ** Encoding a text *)

Lemma encoding_None (table : dict pystr bits) (text : pystr) :
  encoding table text = None ↔ ∃ c, c ∈ text ∧ [c] ∉ table.*1.
Proof.
  induction text as [|c text IH]; cbn [encoding].
  - split; [done|]. by intros (c & []%elem_of_nil & _).
  - destruct (PyDict.get table [c]) as [code|] eqn:Hget; cbn.
    + assert (Hin : [c] ∈ table.*1).
      { apply dict_get_Some in Hget. apply list_elem_of_fmap. by exists ([c], code). }
      destruct (encoding table text) as [rest|]; cbn.
      * split; [done|]. intros (c' & [->|Hc']%elem_of_cons & Hnin); [done|].
        assert (Hn : Some rest = None) by (apply IH; eauto). done.
      * split; [|done]. intros _. destruct (proj1 IH eq_refl) as (c' & Hc' & Hnin).
        exists c'. split; [by right|done].
    + split; [|done]. intros _. exists c. split; [left|].
      by apply dict_get_None.
Qed.

Lemma _get_encoded_text_loop_KeyError text s encoded_text :
  encoding (codes s) text = None →
  _get_encoded_text_loop text s encoded_text = Raise KeyError.
Proof.
  revert encoded_text. induction text as [|c text IH]; intros encoded_text; [done|].
  cbn [encoding _get_encoded_text_loop]. unfold PyDict.getitem.
  destruct (PyDict.get (codes s) [c]) as [code|]; cbn; [|done].
  destruct (encoding (codes s) text) as [rest|]; cbn; [done|].
  intros _. by apply IH.
Qed.

(** ** The length of the encoded text *)

Lemma encoding_length (table : dict pystr bits) (text : pystr) enc :
  encoding table text = Some enc →
  Z.of_nat (length enc) = foldr (λ c acc, code_length table [c] + acc)%Z 0%Z text.
Proof.
  revert enc. induction text as [|c text IH]; intros enc; cbn [encoding foldr].
  - by intros [= <-].
  - unfold code_length at 1.
    destruct (PyDict.get table [c]) as [code|]; cbn; [|done].
    destruct (encoding table text) as [rest|]; cbn; [|done].
    intros [= <-]. rewrite length_app, <- (IH rest) by done. lia.
Qed.

Lemma weighted_app (g : pystr → Z) (l1 l2 : dict pystr Z) :
  foldr (λ kv acc, kv.2 * g kv.1 + acc)%Z 0%Z (l1 ++ l2)
    = (foldr (λ kv acc, kv.2 * g kv.1 + acc) 0 l1
       + foldr (λ kv acc, kv.2 * g kv.1 + acc) 0 l2)%Z.
Proof. induction l1 as [|kv l1 IH]; cbn [app foldr]; lia. Qed.

Lemma weighted_Permutation (g : pystr → Z) (l1 l2 : dict pystr Z) :
  l1 ≡ₚ l2 →
  foldr (λ kv acc, kv.2 * g kv.1 + acc)%Z 0%Z l1
    = foldr (λ kv acc, kv.2 * g kv.1 + acc)%Z 0%Z l2.
Proof.
  induction 1 as [|x l1 l2 _ IH|x y l|l1 l2 l3 _ IH1 _ IH2]; cbn [foldr]; lia.
Qed.

Lemma weighted_leaves (table : dict pystr bits) t code :
  (∀ k q, (k, q) ∈ paths t code → PyDict.get table k = Some q) →
  foldr (λ kv acc, kv.2 * code_length table kv.1 + acc)%Z 0%Z (leaves t)
    = dot (leaf_depths (length code) t).
Proof.
  revert code. induction t as [c f|f l IHl r IHr]; intros code Hget;
    cbn [leaves leaf_depths paths] in *.
  - cbn [foldr fst snd]. unfold code_length.
    rewrite (Hget c code) by left. cbn. lia.
  - rewrite weighted_app, dot_app.
    rewrite (IHl (code ++ [false])), (IHr (code ++ [true])).
    + rewrite !length_app. cbn [length]. by rewrite !Nat.add_1_r.
    + intros k q Hin. apply Hget, elem_of_app. by right.
    + intros k q Hin. apply Hget, elem_of_app. by left.
Qed.

Lemma encoding_cost (text : pystr) root enc :
  build_tree (_make_frequency_dict text) = Ret root →
  encoding (paths root []) text = Some enc →
  Z.of_nat (length enc) = cost root.
Proof.
  intros Hroot Henc.
  pose proof (_make_frequency_dict_NoDup text) as Hnd.
  destruct (code_table_paths _ root Hnd Hroot) as [Hpnd Hcodes].
  assert (Hne : _make_frequency_dict text ≠ []) by (intros H; by rewrite H in Hroot).
  destruct (build_tree_leaves _ Hne) as (root' & Hroot' & Hleaves).
  rewrite Hroot in Hroot'. injection Hroot' as <-.
  rewrite (encoding_length _ _ _ Henc).
  pose proof (count_step_total [] (code_length (paths root [])) text) as Ht.
  cbn [foldr] in Ht. rewrite Z.add_0_l in Ht. rewrite <- Ht.
  rewrite <- _make_frequency_dict_fold.
  rewrite <- (weighted_Permutation _ _ _ Hleaves).
  rewrite (weighted_leaves (paths root []) root []); [done|].
  intros k q Hin. by apply dict_get_elem.
Qed.

(** ** Packing any bit string *)

Lemma bits_val_snoc (s : bits) (b : bool) :
  bits_val (s ++ [b]) = (2 * bits_val s + (if b then 1 else 0))%Z.
Proof. unfold bits_val. by rewrite foldl_app. Qed.

Lemma bits_val_bound (s : bits) : (0 ≤ bits_val s < 2 ^ Z.of_nat (length s))%Z.
Proof.
  induction s as [|b s IH] using rev_ind; [done|].
  rewrite bits_val_snoc, length_app, Nat2Z.inj_add, Z.pow_add_r by lia.
  change (2 ^ Z.of_nat (length [b]))%Z with 2%Z. destruct b; lia.
Qed.

Lemma _get_byte_array_loop_total (s : bits) (idx : list nat) (b : bytes) :
  Forall (λ i, i < length s) idx →
  _get_byte_array_loop s idx b
    = Ret (b ++ ((λ i, bits_val (slice s i (i + 8))) <$> idx)).
Proof.
  intros Hidx. revert b. induction Hidx as [|i idx Hi _ IH]; intros b.
  - cbn. by rewrite app_nil_r.
  - cbn [_get_byte_array_loop]. rewrite int2_bits_val.
    + cbn [mbind outcome_bind]. rewrite IH, <- (assoc_L (++)). done.
    + unfold slice. intros Hnil. apply (f_equal length) in Hnil.
      rewrite length_take, length_drop in Hnil. simpl in Hnil. lia.
Qed.

Lemma range8_bound (n i : nat) : i ∈ range8 n → i < n.
Proof.
  unfold range8. intros (k & -> & Hk)%list_elem_of_fmap.
  apply elem_of_seq in Hk.
  assert (k * 8 + 1 ≤ n + 7 - 7); [|lia].
  pose proof (Nat.div_mod_eq (n + 7) 8) as Hd.
  pose proof (Nat.mod_upper_bound (n + 7) 8). lia.
Qed.

Lemma format_08b_byte (b : Z) :
  (0 ≤ b < 256)%Z → length (format_08b b) = 8 ∧ bits_val (format_08b b) = b.
Proof.
  intros Hb.
  assert (Hall : Forall (λ b, length (format_08b b) = 8 ∧ bits_val (format_08b b) = b)
                        (seqZ 0 256)).
  { apply (bool_decide_unpack _). by vm_compute. }
  eapply Forall_forall in Hall; [done|]. apply elem_of_seqZ. lia.
Qed.

Lemma _get_byte_array_loop_bytes (bs b : bytes) :
  Forall (λ x, 0 ≤ x < 256)%Z bs →
  _get_byte_array_loop (bs ≫= format_08b)
                       (range8 (length (bs ≫= format_08b))) b
    = Ret (b ++ bs).
Proof.
  intros Hbs. revert b. induction Hbs as [|x bs Hx _ IH]; intros b.
  - cbn. by rewrite app_nil_r.
  - destruct (format_08b_byte x Hx) as [Hlen Hval].
    rewrite bind_cons, length_app, Hlen, range8_add8.
    cbn [_get_byte_array_loop]. unfold slice at 1. rewrite drop_0.
    replace (0 + 8 - 0) with 8 by lia.
    rewrite take_app_length' by done.
    rewrite int2_bits_val by (intros Hnil; by rewrite Hnil in Hlen).
    cbn [mbind outcome_bind]. rewrite _get_byte_array_loop_shift by done.
    rewrite IH, Hval, <- (assoc_L (++)). done.
Qed.

Lemma _get_byte_array_any (padded_encoded_text : bits) :
  ∃ b, _get_byte_array padded_encoded_text = Ret b ∧
       length b = (length padded_encoded_text + 7) / 8 ∧
       Forall (λ x, 0 ≤ x < 256)%Z b ∧
       ∀ k, k < length b →
            b !! k = Some (bits_val (take 8 (drop (8 * k) padded_encoded_text))).
Proof.
  unfold _get_byte_array.
  rewrite _get_byte_array_loop_total
    by (apply Forall_forall; intros i; apply range8_bound).
  eexists. split; [done|]. cbn [app]. split_and!.
  - unfold range8. by rewrite !length_fmap, length_seq.
  - apply Forall_fmap, Forall_forall. intros i _. cbn.
    pose proof (bits_val_bound (slice padded_encoded_text i (i + 8))) as Hb.
    assert (length (slice padded_encoded_text i (i + 8)) ≤ 8).
    { unfold slice. rewrite length_take. lia. }
    assert (2 ^ Z.of_nat (length (slice padded_encoded_text i (i + 8))) ≤ 2 ^ 8)%Z
      by (apply Z.pow_le_mono_r; lia).
    lia.
  - intros k Hk. unfold range8 in *. rewrite !length_fmap, length_seq in Hk.
    rewrite <- list_fmap_compose, list_lookup_fmap, lookup_seq_lt by done.
    cbn. unfold slice. do 3 f_equal. lia.
Qed.

(** ** Walking the tree *)

Lemma _decode_text_loop_app root text enc rest decoded :
  Node.char root = None →
  encoding (paths root []) text = Some enc →
  _decode_text_loop (enc ++ rest) root root decoded
    = _decode_text_loop rest root root (decoded ++ text).
Proof.
  intros Hroot. revert enc decoded.
  induction text as [|c text IH]; intros enc decoded; cbn [encoding].
  - intros [= <-]. by rewrite app_nil_r.
  - destruct (PyDict.get (paths root []) [c]) as [code|] eqn:Hget; cbn; [|done].
    destruct (encoding (paths root []) text) as [enc'|]; cbn; [|done].
    intros [= <-]. apply dict_get_Some in Hget.
    rewrite <- (assoc_L (++)).
    rewrite (_decode_text_loop_code root [c] code) by done.
    rewrite (IH enc') by done. by rewrite <- (assoc_L (++)).
Qed.

(** A proper prefix of a code leads from the root to an internal node and
    emits nothing. *)
Lemma _decode_text_loop_partial t c q q' root decoded :
  (c, q ++ q') ∈ paths t [] → q' ≠ [] →
  _decode_text_loop q root t decoded = Ret decoded.
Proof.
  revert t. induction q as [|b q IH]; intros t Hin Hq'; [done|].
  destruct t as [c' f|f l r].
  { by apply list_elem_of_singleton in Hin as [= -> ?]. }
  cbn [paths app] in Hin.
  assert (Hchild : ∀ child, (c, q ++ q') ∈ paths child [] →
            match Node.char child with
            | Some c0 => _decode_text_loop q root root (decoded ++ c0)
            | None => _decode_text_loop q root child decoded
            end = Ret decoded).
  { intros [c' f'|f' l' r'] Hc; cbn [Node.char].
    - apply list_elem_of_singleton in Hc as [= -> Hnil].
      by apply app_eq_nil in Hnil as [_ ->].
    - by apply IH. }
  apply elem_of_app in Hin as [(p & Hp & Hin)%paths_extend
                              |(p & Hp & Hin)%paths_extend];
    cbn [app] in Hp; injection Hp as -> <-;
    cbn [_decode_text_loop Node.left Node.right]; by apply Hchild.
Qed.

(** ** The outcomes of [compress_file] *)

Lemma utf8_decode_outcome (bs : bytes) :
  (∃ s, utf8_decode bs = Ret s ∧ (s = [] → bs = [])) ∨
  utf8_decode bs = Raise UnicodeDecodeError.
Proof.
  remember (length bs) as n eqn:Hn. revert bs Hn.
  induction n as [n IH] using lt_wf_ind. intros bs ->.
  destruct bs as [|b0 r0]; [left; by exists []|].
  assert (Hrec : ∀ r, length r < length (b0 :: r0) →
            (∃ s, utf8_decode r = Ret s) ∨ utf8_decode r = Raise UnicodeDecodeError).
  { intros r Hr. destruct (IH (length r) Hr r eq_refl) as [(s & Hs & _)|Hs]; eauto. }
  cbn [utf8_decode].
  repeat (first
    [ by right
    | match goal with
      | |- context [match ?r with [] => _ | _ :: _ => _ end] => is_var r; destruct r
      | |- context [decide ?P] => destruct (decide P)
      | |- context [utf8_decode ?r] =>
          let H := fresh in
          destruct (Hrec r) as [[? H]|H]; [simpl; lia|rewrite H..];
          cbn [mbind outcome_bind]
      end ]).
  all: left; eexists; split; [done|done].
Qed.

Lemma universal_newlines_nil (s : pystr) : universal_newlines s = [] → s = [].
Proof.
  destruct s as [|c [|c' s]]; [done|..]; cbn [universal_newlines];
    repeat case_decide; done.
Qed.

Lemma read_text_outcome (files : gmap string bytes) path :
  match files !! path with
  | None => read_text files path = Raise FileNotFoundError
  | Some data =>
      (∃ text, read_text files path = Ret text ∧ (text = [] ↔ data = []) ∧
               ∃ s, utf8_decode data = Ret s) ∨
      (read_text files path = Raise UnicodeDecodeError ∧
       utf8_decode data = Raise UnicodeDecodeError)
  end.
Proof.
  unfold read_text, read_bytes. destruct (files !! path) as [data|]; [|done].
  cbn [mbind outcome_bind].
  destruct (utf8_decode_outcome data) as [(s & Hs & Hnil)|Hs]; rewrite Hs;
    cbn [mbind outcome_bind]; [left|by right].
  eexists. split_and!; [done| |by exists s]. split.
  - intros H%universal_newlines_nil. auto.
  - intros ->. by injection Hs as <-.
Qed.

Lemma compress_file_cases path output_path w :
  let r := compress_file path output_path w in
  let out := default (path +:+ ".huffman") output_path in
  match fs w !! path with
  | None => r = (Raise FileNotFoundError, w)
  | Some data =>
      match utf8_decode data with
      | Ret s =>
          if decide (data = [])
          then r = (Raise IndexError, mkWorld (mkCompressor [] [] []) (fs w))
          else ∃ s' container, r = (Ret out, mkWorld s' (<[out := container]> (fs w)))
      | _ => utf8_decode data = Raise UnicodeDecodeError ∧
             r = (Raise UnicodeDecodeError, w)
      end
  end.
Proof.
  cbv zeta. pose proof (read_text_outcome (fs w) path) as Hread.
  destruct (fs w !! path) as [data|] eqn:Hfile.
  - destruct Hread as [(text & Hread & Hnil & s & Hs)|[Hread Hs]]; rewrite Hs.
    + case_decide as Hd.
      * apply Hnil in Hd. subst text. unfold compress_file.
        cbv [mbind M_bind lift get_self put_self modify_self raise mret M_ret].
        by rewrite Hread.
      * assert (Hne : text ≠ []) by (by intros ?%Hnil).
        destruct (compress_file_state path output_path w text Hread Hne)
          as (d & root & enc & bs & _ & _ & _ & _ & Hrun).
        cbv zeta in Hrun. rewrite Hrun. by eexists _, _.
    + split; [done|]. unfold compress_file.
      cbv [mbind M_bind lift]. by rewrite Hread.
  - unfold compress_file. cbv [mbind M_bind lift]. by rewrite Hread.
Qed.

(** ** The container *)

Lemma length_bind_const {A B} (f : A → list B) (n : nat) (l : list A) :
  (∀ x, length (f x) = n) → length (l ≫= f) = n * length l.
Proof.
  intros Hf. induction l as [|x l IH]; [simpl; lia|].
  rewrite bind_cons, length_app, Hf, IH. simpl. lia.
Qed.

Lemma round_length st kw : length st = 8 → length (SHA256.round st kw) = 8.
Proof.
  intros H. do 8 (destruct st as [|? st]; [done|]). by destruct st.
Qed.

Lemma compress_length hs block :
  length hs = 8 → length (SHA256.compress hs block) = 8.
Proof.
  intros H. unfold SHA256.compress. rewrite length_zip_with, H.
  assert (Hst : ∀ l st, length st = 8 → length (foldl SHA256.round st l) = 8).
  { intros l. induction l as [|kw l IH]; intros st Hst; [done|].
    cbn [foldl]. by apply IH, round_length. }
  rewrite Hst by done. done.
Qed.

Lemma digest_length msg : length (SHA256.digest msg) = 32.
Proof.
  unfold SHA256.digest. cbv zeta.
  rewrite (length_bind_const _ 4) by done.
  assert (H : ∀ l hs, length hs = 8 → length (foldl SHA256.compress hs l) = 8).
  { intros l. induction l as [|b l IH]; intros hs Hhs; [done|].
    cbn [foldl]. by apply IH, compress_length. }
  by rewrite H.
Qed.

Lemma hexdigest_length msg : length (SHA256.hexdigest msg) = 64.
Proof.
  unfold SHA256.hexdigest. rewrite (length_bind_const _ 2) by done.
  by rewrite digest_length.
Qed.

Lemma packed_length (enc : bits) (bs : bytes) :
  _get_byte_array (_pad_encoded_text enc) = Ret bs →
  length bs = length enc / 8 + 2.
Proof.
  intros Hbs. destruct (_get_byte_array_any (_pad_encoded_text enc))
    as (bs' & Hbs' & Hlen & _).
  rewrite Hbs in Hbs'. injection Hbs' as <-. rewrite Hlen.
  unfold _pad_encoded_text.
  destruct (padding_count_range (length enc)) as [Hr _].
  destruct (format_08b_count _ Hr) as [Hl _].
  rewrite !length_app, Hl, length_replicate.
  pose proof (Nat.div_mod_eq (length enc) 8) as Hd.
  pose proof (Nat.mod_upper_bound (length enc) 8).
  replace (8 + (length enc + (8 - length enc `mod` 8)) + 7)
    with (7 + (length enc / 8 + 2) * 8) by lia.
  rewrite Nat.div_add by done. done.
Qed.

(** ** A text with a single distinct symbol *)

Lemma count_step_replicate (c : Z) (k : Z) (n : nat) :
  foldl count_step [([c], k)] (replicate n c) = [([c], (k + Z.of_nat n)%Z)].
Proof.
  revert k. induction n as [|n IH]; intros k.
  - cbn. do 2 f_equal. lia.
  - cbn [replicate foldl]. unfold count_step at 2. cbn [PyDict.get PyDict.set].
    rewrite !decide_True by done. cbn [default from_option id].
    rewrite IH. do 2 f_equal. lia.
Qed.

Lemma _make_frequency_dict_replicate (c : Z) (n : nat) :
  _make_frequency_dict (replicate (S n) c) = [([c], Z.of_nat (S n))].
Proof.
  rewrite _make_frequency_dict_fold. cbn [replicate foldl].
  unfold count_step at 2. cbn [PyDict.get PyDict.set default from_option id].
  rewrite count_step_replicate. do 2 f_equal. lia.
Qed.

Lemma encoding_replicate (c : Z) (n : nat) :
  encoding [([c], [])] (replicate n c) = Some [].
Proof.
  induction n as [|n IH]; [done|]. cbn [replicate encoding PyDict.get].
  rewrite decide_True by done. cbn. by rewrite IH.
Qed.

Lemma decode_payload_single (c : Z) (m : Z) :
  decode_payload [([c], m)] [8; 0]%Z = Ret [].
Proof. by vm_compute. Qed.

Lemma code_table_single (c : Z) (m : Z) : code_table [([c], m)] = Ret [([c], [])].
Proof. by vm_compute. Qed.

Lemma verify_encoded (file_hash text : pystr) (data : bytes) :
  utf8_encode text = Ret data →
  verify file_hash text
    = if decide (SHA256.hexdigest data ≠ file_hash)
      then Raise ValueError_integrity else Ret (text, data).
Proof. intros H. unfold verify. by rewrite H. Qed.

Lemma decompress_single (files : gmap string bytes) p (c m : Z) (data : bytes) :
  wf_table [([c], m)] →
  files !! p = Some (SHA256.hexdigest data ++ [10%Z]
                     ++ json.dumps [([c], m)] ++ [10%Z] ++ [8; 0]%Z) →
  decompress files p
    = if decide (SHA256.hexdigest [] ≠ SHA256.hexdigest data)
      then Raise ValueError_integrity else Ret ([], []).
Proof.
  intros Hwf Hfile. unfold decompress, read_bytes. rewrite Hfile.
  cbn [mbind outcome_bind].
  rewrite parse_container_header; [|apply hexdigest_hex|done].
  cbn [mbind outcome_bind fst snd]. rewrite decode_payload_single.
  cbn [mbind outcome_bind]. by apply verify_encoded.
Qed.

(** ** The bytes of the decompressed file *)

Lemma utf8_encode_decode (bs : bytes) (s : pystr) :
  utf8_decode bs = Ret s → utf8_encode s = Ret bs.
Proof.
  remember (length bs) as n eqn:Hn. revert bs s Hn.
  induction n as [n IH] using lt_wf_ind. intros bs s -> Hdec.
  destruct bs as [|b0 r0]; [by injection Hdec as <-|].
  cbn [utf8_decode] in Hdec. unfold is_cont in Hdec.
  repeat (first
    [ done
    | match type of Hdec with
      | context [match ?r with [] => _ | _ :: _ => _ end] => is_var r; destruct r
      | context [decide ?P] => destruct (decide P)
      | context [utf8_decode ?r] => destruct (utf8_decode r) eqn:?
      end ]; cbn [mbind outcome_bind] in Hdec).
  all: injection Hdec as <-; cbn [utf8_encode].
  all: match goal with
       | H : utf8_decode ?r = Ret ?s' |- _ =>
           rewrite (IH (length r) ltac:(simpl; lia) r s' eq_refl H)
       end.
  all: unfold utf8_encode_char.
  all: repeat case_decide; try (exfalso; Z.to_euclidean_division_equations; lia).
  all: cbn [mbind outcome_bind app]; do 2 f_equal;
    repeat (f_equal; try (Z.to_euclidean_division_equations; lia)).
Qed.

Lemma utf8_encode_char_low (c x : Z) (b : bytes) :
  utf8_encode_char c = Ret b → (0 ≤ x < 128)%Z → x ∈ b ↔ x = c.
Proof.
  unfold utf8_encode_char. intros H Hx.
  repeat case_decide; try done; injection H as <-;
    rewrite ?elem_of_cons, elem_of_nil;
    split; intros; destruct_or?; try done; subst;
    try (exfalso; Z.to_euclidean_division_equations; lia); auto.
Qed.

Lemma utf8_encode_low (s : pystr) (bs : bytes) (x : Z) :
  utf8_encode s = Ret bs → (0 ≤ x < 128)%Z → x ∈ bs ↔ x ∈ s.
Proof.
  intros H Hx. revert bs H. induction s as [|c s IH]; intros bs.
  - by intros [= <-].
  - cbn [utf8_encode].
    destruct (utf8_encode_char c) as [b| |] eqn:Hc; [|done..].
    destruct (utf8_encode s) as [bs'| |]; [|done..].
    cbn [mbind outcome_bind]. intros [= <-].
    rewrite elem_of_app, elem_of_cons, (utf8_encode_char_low c x b Hc Hx).
    by rewrite (IH bs').
Qed.

Lemma frequency_two_inv (text : pystr) :
  1 < length (_make_frequency_dict text) →
  ∃ c1 c2, c1 ∈ text ∧ c2 ∈ text ∧ c1 ≠ c2.
Proof.
  intros Hlen. pose proof (_make_frequency_dict_NoDup text) as Hnd.
  rewrite <- (length_fmap fst) in Hlen.
  destruct ((_make_frequency_dict text).*1) as [|k1 [|k2 l]] eqn:Hk;
    [simpl in Hlen; lia..|].
  assert (H1 : k1 ∈ (_make_frequency_dict text).*1) by (rewrite Hk; left).
  assert (H2 : k2 ∈ (_make_frequency_dict text).*1) by (rewrite Hk; right; left).
  apply _make_frequency_dict_keys in H1 as (c1 & Hc1 & ->).
  apply _make_frequency_dict_keys in H2 as (c2 & Hc2 & ->).
  exists c1, c2. split_and!; [done..|]. intros ->.
  apply NoDup_cons in Hnd as [Hnin _]. apply Hnin. left.
Qed.

(** Compressing and then decompressing a text with two distinct symbols:
    the files left behind. *)
Lemma round_trip_files path output_path output_path' w (text : pystr) c1 c2 :
  read_text (fs w) path = Ret text → c1 ∈ text → c2 ∈ text → c1 ≠ c2 →
  let p := default (path +:+ ".huffman") output_path in
  let q := decompressed_path p output_path' in
  ∃ data container s',
    utf8_encode text = Ret data ∧
    compress_file path output_path w
      = (Ret p, mkWorld s' (<[p := container]> (fs w))) ∧
    (decompress_file p output_path'
       (mkWorld s' (<[p := container]> (fs w)))).1 = Ret q ∧
    fs (decompress_file p output_path'
          (mkWorld s' (<[p := container]> (fs w)))).2
      = <[q := data]> (<[p := container]> (fs w)).
Proof.
  intros Hread H1 H2 Hne. cbv zeta.
  assert (Htext : text ≠ []) by (intros ->; by apply elem_of_nil in H1).
  destruct (compress_file_run path output_path w text Hread Htext)
    as (data & root & enc & bs & Hdata & Hroot & Henc & _ & Hbs & Hrun).
  cbv zeta in Hrun. destruct Hrun as [s' Hrun].
  set (p := default (path +:+ ".huffman") output_path) in *.
  eexists data, _, s'. split; [done|]. split; [exact Hrun|].
  match goal with |- context [decompress_file ?p0 ?o ?w0] =>
    pose proof (decompress_file_stages p0 o w0) as Hst end.
  cbv zeta in Hst. cbn [fs] in Hst.
  rewrite (decompress_compressed _ p text data root enc bs c1 c2) in Hst;
    [|by eapply read_text_scalar|done..|by rewrite lookup_insert_eq].
  exact Hst.
Qed.

(** ** The default output path of [decompress_file] *)

Lemma str_replace_absent (s old new : string) :
  str_contains s old = false → str_replace s old new = s.
Proof.
  unfold str_replace. induction s as [|c s IH]; [done|].
  cbn [str_contains]. intros [Hp Hc]%orb_false_elim.
  cbn [str_replace_from]. rewrite Hp. by rewrite IH.
Qed.

Lemma prefix_huffman_straddle (c : Ascii.ascii) (x : string) :
  String.prefix ".huffman" (String c (x +:+ ".huffman")) = true →
  String.prefix ".huffman" (String c x) = true.
Proof.
  intros H. cbn [String.prefix] in H |- *.
  match type of H with
  | context [Ascii.ascii_dec ?a ?b] => destruct (Ascii.ascii_dec a b); [|done]
  end.
  do 7 (destruct x as [|? x]; [by vm_compute in H|];
        match type of H with
        | context [String ?a ?s +:+ ?t] =>
            change (String a s +:+ t) with (String a (s +:+ t)) in H
        end;
        cbn [String.prefix] in H |- *;
        match type of H with
        | context [Ascii.ascii_dec ?a ?b] =>
            destruct (Ascii.ascii_dec a b); [|done]
        end).
  by destruct x.
Qed.

Lemma str_replace_suffix (base : string) :
  str_contains base ".huffman" = false →
  str_replace (base +:+ ".huffman") ".huffman" ".decompressed"
    = base +:+ ".decompressed".
Proof.
  unfold str_replace. induction base as [|c base IH]; [done|].
  cbn [str_contains]. intros [Hp Hc]%orb_false_elim.
  change (String c base +:+ ".huffman") with (String c (base +:+ ".huffman")).
  cbn [str_replace_from].
  destruct (String.prefix ".huffman" (String c (base +:+ ".huffman"))) eqn:Hs.
  - apply prefix_huffman_straddle in Hs. congruence.
  - by rewrite IH.
Qed.

(** ** [main] *)

Lemma frequency_one (text : pystr) :
  text ≠ [] → ¬ 1 < length (_make_frequency_dict text) →
  ∃ c n, text = replicate (S n) c.
Proof.
  destruct text as [|c text]; [done|]. intros _ Hlen.
  exists c, (length text).
  assert (Hall : ∀ c', c' ∈ c :: text → c' = c).
  { intros c' Hc'.
    assert (H1 : [c] ∈ (_make_frequency_dict (c :: text)).*1).
    { apply _make_frequency_dict_keys. exists c. split; [left|done]. }
    assert (H2 : [c'] ∈ (_make_frequency_dict (c :: text)).*1).
    { apply _make_frequency_dict_keys. eauto. }
    rewrite <- (length_fmap fst) in Hlen.
    destruct ((_make_frequency_dict (c :: text)).*1) as [|k [|k' l]];
      [by apply elem_of_nil in H1| |simpl in Hlen; lia].
    apply list_elem_of_singleton in H1, H2. congruence. }
  cbn [replicate]. f_equal.
  assert (Ht : ∀ c', c' ∈ text → c' = c) by (intros c' Hc'; apply Hall; by right).
  clear Hall Hlen. induction text as [|c' text IH]; [done|].
  cbn [length replicate]. f_equal.
  - apply Ht. left.
  - apply IH. intros c'' Hc''. apply Ht. by right.
Qed.

(** ** Frequent symbols have short codes *)

Lemma build_tree_optimal (frequency : dict pystr Z) root :
  build_tree frequency = Ret root →
  ∀ t, (leaves t).*2 ≡ₚ frequency.*2 → (cost root ≤ cost t)%Z.
Proof.
  intros Hroot.
  assert (Hne : frequency ≠ []) by (by intros ->).
  set (s := _build_heap frequency (mkCompressor [] [] [])).
  pose proof (_build_heap_perm frequency (mkCompressor [] [] [])) as Hperm.
  fold s in Hperm. cbn [heap] in Hperm. rewrite app_nil_r in Hperm.
  destruct (_merge_nodes_loop_optimal (length (heap s)) (heap s))
    as (root' & Hroot' & Hopt); [done| |apply _build_heap_ordered| |].
  { intros Hnil. rewrite Hnil in Hperm. symmetry in Hperm.
    apply Permutation_nil_r in Hperm. by destruct frequency. }
  { rewrite Hperm. apply Forall_fmap, Forall_true. done. }
  assert (root' = root) as ->.
  { revert Hroot. unfold build_tree, _merge_nodes. fold s.
    rewrite Hroot'. cbn. congruence. }
  intros t Ht. specialize (Hopt t).
  assert (Hzero : sum_cost (heap s) = 0%Z).
  { rewrite Hperm. clear. induction frequency as [|kv d IH]; [done|].
    rewrite fmap_cons, sum_cost_cons, IH. cbn. lia. }
  rewrite Hzero in Hopt. rewrite Z.add_0_l in Hopt. apply Hopt.
  rewrite Ht, Hperm, <- list_fmap_compose. done.
Qed.

(** The leaves of a tree with their symbols, frequencies and codes. *)
Lemma leaf_table t code :
  ∃ T : list (pystr * Z * bits),
    leaves t = (λ x, (x.1.1, x.1.2)) <$> T ∧
    paths t code = (λ x, (x.1.1, x.2)) <$> T ∧
    leaf_depths (length code) t = (λ x, (x.1.2, length x.2)) <$> T.
Proof.
  revert code. induction t as [c f|f l IHl r IHr]; intros code.
  - by exists [(c, f, code)].
  - destruct (IHl (code ++ [false])) as (Tl & Hl1 & Hl2 & Hl3).
    destruct (IHr (code ++ [true])) as (Tr & Hr1 & Hr2 & Hr3).
    rewrite length_app, Nat.add_1_r in Hl3, Hr3.
    exists (Tl ++ Tr). cbn [leaves paths leaf_depths].
    by rewrite !fmap_app, Hl1, Hl2, Hl3, Hr1, Hr2, Hr3.
Qed.

Lemma two_out {A} (l : list A) (x y : A) :
  x ∈ l → y ∈ l → x ≠ y → ∃ l', l ≡ₚ x :: y :: l'.
Proof.
  intros (l1 & l2 & ->)%list_elem_of_split Hy Hne.
  rewrite elem_of_app, elem_of_cons in Hy.
  assert (Hy' : y ∈ l1 ++ l2).
  { apply elem_of_app. destruct Hy as [Hy|[Hy|Hy]]; [by left|by destruct Hne|by right]. }
  apply list_elem_of_split in Hy' as (m1 & m2 & Hm).
  exists (m1 ++ m2). rewrite <- Permutation_middle, Hm.
  by rewrite <- Permutation_middle.
Qed.

Lemma code_lengths_monotone (frequency : dict pystr Z) root k1 k2 f1 f2 q1 q2 :
  NoDup frequency.*1 → build_tree frequency = Ret root →
  (k1, f1) ∈ frequency → (k2, f2) ∈ frequency →
  (k1, q1) ∈ paths root [] → (k2, q2) ∈ paths root [] →
  (f1 < f2)%Z → length q2 ≤ length q1.
Proof.
  intros Hnd Hroot Hf1 Hf2 Hq1 Hq2 Hlt.
  assert (Hne : frequency ≠ []) by (by intros ->).
  destruct (build_tree_leaves frequency Hne) as (root' & Hroot' & Hleaves).
  rewrite Hroot in Hroot'. injection Hroot' as <-.
  destruct (leaf_table root []) as (T & HL & HP & HD). cbn [length] in HD.
  assert (HndT : NoDup ((λ x : pystr * Z * bits, x.1.1) <$> T)).
  { assert (He : (λ x : pystr * Z * bits, x.1.1) <$> T = (leaves root).*1).
    { rewrite HL, <- list_fmap_compose. done. }
    rewrite He, Hleaves. done. }
  assert (Hfind : ∀ k f q, (k, f) ∈ frequency → (k, q) ∈ paths root [] →
                           (k, f, q) ∈ T).
  { intros k f q Hf Hq. rewrite <- Hleaves, HL in Hf. rewrite HP in Hq.
    apply list_elem_of_fmap in Hf as ([[k' f'] q'] & [= -> ->] & Hin1).
    apply list_elem_of_fmap in Hq as ([[k'' f''] q''] & [= -> ->] & Hin2).
    cbn [fst snd] in *.
    assert ((k'', f', q') = (k'', f'', q'')) as [= -> ->]; [|done].
    apply list_elem_of_lookup in Hin1 as [i Hi], Hin2 as [j Hj].
    assert (i = j) as ->; [|congruence].
    eapply (NoDup_lookup _ i j k'' HndT); by rewrite list_lookup_fmap, ?Hi, ?Hj. }
  pose proof (Hfind k1 f1 q1 Hf1 Hq1) as H1.
  pose proof (Hfind k2 f2 q2 Hf2 Hq2) as H2.
  destruct (two_out T (k1, f1, q1) (k2, f2, q2) H1 H2) as [T' HT'].
  { intros [= -> -> ->]. lia. }
  set (g := λ x : pystr * Z * bits, (x.1.2, length x.2)) in *.
  destruct (realise root ((f2, length q1) :: (f1, length q2) :: (g <$> T')))
    as [t' Ht'].
  { rewrite HD, HT'. rewrite !fmap_cons. done. }
  pose proof (build_tree_optimal frequency root Hroot t') as Hopt.
  assert (Hcost : (cost root ≤ cost t')%Z).
  { apply Hopt. rewrite <- Hleaves, <- (leaf_depths_fst 0 t'), Ht'.
    rewrite <- (leaf_depths_fst 0 root), HD, HT'. rewrite !fmap_cons.
    cbn [g fst snd]. apply perm_swap. }
  unfold cost in Hcost. rewrite Ht', HD, HT' in Hcost.
  rewrite !fmap_cons, !dot_cons in Hcost. cbn [g fst snd] in Hcost. nia.
Qed.

(** ** One bit of the payload flipped *)

Lemma flip_byte (b : Z) (k : nat) :
  (0 ≤ b < 256)%Z → k < 8 →
  (0 ≤ Z.lxor b (2 ^ Z.of_nat k) < 256)%Z ∧
  Z.lxor b (2 ^ Z.of_nat k) ≠ b ∧
  format_08b (Z.lxor b (2 ^ Z.of_nat k)) = alter negb (7 - k) (format_08b b).
Proof.
  intros Hb Hk.
  assert (Hall : Forall (λ b, Forall (λ k,
            (0 ≤ Z.lxor b (2 ^ Z.of_nat k) < 256)%Z ∧
            Z.lxor b (2 ^ Z.of_nat k) ≠ b ∧
            format_08b (Z.lxor b (2 ^ Z.of_nat k))
              = alter negb (7 - k) (format_08b b)) (seq 0 8)) (seqZ 0 256)).
  { apply (bool_decide_unpack _). by vm_compute. }
  rewrite Forall_forall in Hall.
  assert (Hin : b ∈ seqZ 0 256) by (apply elem_of_seqZ; lia).
  specialize (Hall b Hin). rewrite Forall_forall in Hall.
  apply Hall, elem_of_seq. lia.
Qed.

Lemma flip_bytes_range (bs : bytes) (i k : nat) :
  Forall (λ b, 0 ≤ b < 256)%Z bs → k < 8 →
  Forall (λ b, 0 ≤ b < 256)%Z (alter (λ b, Z.lxor b (2 ^ Z.of_nat k)) i bs).
Proof.
  intros Hbs Hk. apply Forall_alter; [done|].
  intros b Hb Hr. by apply flip_byte.
Qed.

Lemma flip_bytes_ne (bs : bytes) (i k : nat) :
  Forall (λ b, 0 ≤ b < 256)%Z bs → k < 8 → i < length bs →
  alter (λ b, Z.lxor b (2 ^ Z.of_nat k)) i bs ≠ bs.
Proof.
  intros Hbs Hk Hi Heq.
  destruct (lookup_lt_is_Some_2 bs i Hi) as [b Hb].
  assert (Hi' : alter (λ b, Z.lxor b (2 ^ Z.of_nat k)) i bs !! i
                = Some (Z.lxor b (2 ^ Z.of_nat k))).
  { rewrite list_lookup_alter, decide_True, Hb by done. reflexivity. }
  rewrite Heq, Hb in Hi'. injection Hi' as Hi'.
  eapply Forall_lookup in Hbs; [|done].
  by destruct (flip_byte b k Hbs Hk) as (_ & Hne & _).
Qed.

Lemma length_format_bytes (bs : bytes) :
  Forall (λ b, 0 ≤ b < 256)%Z bs → length (bs ≫= format_08b) = 8 * length bs.
Proof.
  induction 1 as [|b bs Hb _ IH]; [done|].
  rewrite bind_cons, length_app, IH.
  destruct (format_08b_byte b Hb) as [-> _]. simpl. lia.
Qed.

(** Flipping bit [k] of byte [i] flips one bit of the bit string. *)
Lemma flip_bits (bs : bytes) (i k : nat) :
  Forall (λ b, 0 ≤ b < 256)%Z bs → k < 8 → i < length bs →
  alter (λ b, Z.lxor b (2 ^ Z.of_nat k)) i bs ≫= format_08b
    = alter negb (8 * i + (7 - k)) (bs ≫= format_08b).
Proof.
  intros Hbs Hk. revert i. induction Hbs as [|b bs Hb _ IH]; intros i Hi.
  { simpl in Hi. lia. }
  destruct (flip_byte b k Hb Hk) as (_ & _ & Hfmt).
  destruct (format_08b_byte b Hb) as [Hlen _].
  destruct i as [|i]; cbn [alter list_alter]; rewrite !bind_cons.
  - rewrite Hfmt. by rewrite alter_app_l by (rewrite Hlen; lia).
  - rewrite IH by (simpl in Hi; lia).
    rewrite alter_app_r_alt by (rewrite Hlen; lia).
    rewrite Hlen. do 2 f_equal. lia.
Qed.

(** A flipped padding bit is dropped with the padding. *)
Lemma decode_payload_padding_flip (frequency : dict pystr Z) (enc : bits)
    (bs : bytes) (k : nat) :
  bs ≫= format_08b = _pad_encoded_text enc →
  Forall (λ b, 0 ≤ b < 256)%Z bs →
  k < 8 - length enc `mod` 8 →
  decode_payload frequency (alter (λ b, Z.lxor b (2 ^ Z.of_nat k))
                              (length bs - 1) bs)
    = decode_payload frequency bs.
Proof.
  intros Hbs Hrange Hk.
  pose proof (length_format_bytes bs Hrange) as Hlen.
  destruct (padding_count_range (length enc)) as [Hr _].
  destruct (format_08b_count _ Hr) as [Hl _].
  destruct (unpad_pad enc) as [Hcount _]. cbv zeta in Hcount.
  assert (Hpad : length (_pad_encoded_text enc)
                 = 8 + length enc + (8 - length enc `mod` 8)).
  { unfold _pad_encoded_text. rewrite !length_app, Hl, length_replicate. lia. }
  rewrite Hbs, Hpad in Hlen.
  unfold decode_payload. destruct (build_tree frequency) as [root| |]; [|done..].
  cbn [mbind outcome_bind].
  rewrite flip_bits by (try done; lia). rewrite Hbs.
  set (pos := 8 * (length bs - 1) + (7 - k)).
  set (B := _pad_encoded_text enc) in *.
  rewrite take_alter_ge by (unfold pos; lia). rewrite Hcount.
  cbn [mbind outcome_bind]. f_equal.
  unfold slice_to_neg. rewrite !decide_False by lia.
  rewrite Nat2Z.id, !length_drop, length_alter.
  rewrite !take_drop_commute. f_equal.
  apply take_alter_ge. unfold pos. lia.
Qed.

(** [decompress] on a container with the header that [compress_file]
    writes. *)
Lemma decompress_container (files : gmap string bytes) p (data : bytes)
    (frequency : dict pystr Z) (payload : bytes) :
  wf_table frequency →
  files !! p = Some (SHA256.hexdigest data ++ [10%Z]
                     ++ json.dumps frequency ++ [10%Z] ++ payload) →
  decompress files p
    = (text ← decode_payload frequency payload;
       verify (SHA256.hexdigest data) text).
Proof.
  intros Hwf Hfile. unfold decompress, read_bytes. rewrite Hfile.
  cbn [mbind outcome_bind].
  rewrite parse_container_header; [|apply hexdigest_hex|done].
  done.
Qed.

Lemma single_symbol_payload (c : Z) (n : nat) root enc bs :
  build_tree (_make_frequency_dict (replicate (S n) c)) = Ret root →
  encoding (paths root []) (replicate (S n) c) = Some enc →
  _get_byte_array (_pad_encoded_text enc) = Ret bs →
  bs = [8; 0]%Z.
Proof.
  rewrite _make_frequency_dict_replicate. intros [= <-]. cbn [paths].
  rewrite encoding_replicate. intros [= <-].
  assert (Hpk : _get_byte_array (_pad_encoded_text []) = Ret [8; 0]%Z)
    by (by vm_compute).
  rewrite Hpk. by intros [= <-].
Qed.

Lemma decode_payload_single_flip (c m : Z) (i k : nat) :
  k < 8 →
  decode_payload [([c], m)] (alter (λ b, Z.lxor b (2 ^ Z.of_nat k)) i [8; 0]%Z)
    = Ret [].
Proof.
  intros Hk.
  destruct i as [|[|i]]; [| |apply decode_payload_single];
    do 8 (destruct k as [|k]; [by vm_compute|]); lia.
Qed.

Lemma payload_first_byte (enc : bits) (bs : bytes) :
  bs ≫= format_08b = _pad_encoded_text enc →
  Forall (λ b, 0 ≤ b < 256)%Z bs →
  bs !! 0 = Some (Z.of_nat (8 - length enc `mod` 8)).
Proof.
  intros Hbs Hrange.
  destruct (padding_count_range (length enc)) as [Hr _].
  destruct (format_08b_count _ Hr) as [Hl _].
  destruct bs as [|b bs].
  { unfold _pad_encoded_text in Hbs. symmetry in Hbs.
    apply app_eq_nil in Hbs as [Hnil _]. by rewrite Hnil in Hl. }
  apply Forall_cons in Hrange as [Hb _].
  destruct (format_08b_byte b Hb) as [Hlen Hval].
  rewrite bind_cons in Hbs. unfold _pad_encoded_text in Hbs.
  apply app_inj_1 in Hbs as [Hfmt _]; [|by rewrite Hl].
  cbn. f_equal. rewrite <- Hval, Hfmt.
  apply format_08b_byte. lia.
Qed.

(** ** A text with a single distinct symbol *)

Lemma single_symbol_run path output_path w (c : Z) (n : nat) :
  read_text (fs w) path = Ret (replicate (S n) c) →
  let p := default (path +:+ ".huffman") output_path in
  ∃ data s',
    utf8_encode (replicate (S n) c) = Ret data ∧
    compress_file path output_path w
      = (Ret p,
         mkWorld s'
           (<[p := SHA256.hexdigest data ++ [10%Z]
                   ++ json.dumps [([c], Z.of_nat (S n))] ++ [10%Z]
                   ++ [8; 0]%Z]> (fs w))).
Proof.
  intros Hread. cbv zeta.
  assert (Hne : replicate (S n) c ≠ []) by done.
  destruct (compress_file_state path output_path w _ Hread Hne)
    as (data & root & enc & bs & Hdata & Hroot & Henc & Hbs & Hrun).
  pose proof (single_symbol_payload c n root enc bs Hroot Henc Hbs) as ->.
  cbv zeta in Hrun. rewrite _make_frequency_dict_replicate in Hrun.
  by eexists data, _.
Qed.

(** [decompress_file] on the container of such a text. *)
Lemma single_symbol_decompress p output_path w (c m : Z) (data : bytes) :
  wf_table [([c], m)] →
  fs w !! p = Some (SHA256.hexdigest data ++ [10%Z]
                    ++ json.dumps [([c], m)] ++ [10%Z] ++ [8; 0]%Z) →
  let r := decompress_file p output_path w in
  let q := decompressed_path p output_path in
  (SHA256.hexdigest data ≠ SHA256.hexdigest [] →
   r.1 = Raise ValueError_integrity ∧ fs r.2 = fs w) ∧
  (SHA256.hexdigest data = SHA256.hexdigest [] →
   r.1 = Ret q ∧ fs r.2 = <[q := []]> (fs w)).
Proof.
  intros Hwf Hfile. cbv zeta.
  pose proof (decompress_file_stages p output_path w) as Hst.
  cbv zeta in Hst.
  rewrite (decompress_single _ p c m data Hwf Hfile) in Hst.
  destruct (decide (SHA256.hexdigest [] ≠ SHA256.hexdigest data)) as [Hh|Hh].
  - split; [intros _; exact Hst|].
    intros Heq. exfalso. apply Hh. symmetry. exact Heq.
  - split; [|intros _; exact Hst].
    intros Hne. exfalso. apply Hh. intros Heq. apply Hne. symmetry. exact Heq.
Qed.

(** * The claims *)

(** C1, for texts with at least two distinct symbols.  Compressing a file
    that reads as [text] and decompressing the container succeeds, and
    the decompressed file holds the UTF-8 encoding of [text] and reads
    back as [text]. *)
Theorem round_trip path output_path output_path' w (text : pystr) c1 c2 :
  read_text (fs w) path = Ret text → c1 ∈ text → c2 ∈ text → c1 ≠ c2 →
  let r := compress_file path output_path w in
  let p := default (path +:+ ".huffman") output_path in
  let r' := decompress_file p output_path' r.2 in
  let q := decompressed_path p output_path' in
  r.1 = Ret p ∧ r'.1 = Ret q ∧
  (∃ data, utf8_encode text = Ret data ∧ fs r'.2 !! q = Some data) ∧
  read_text (fs r'.2) q = Ret text.
Proof.
  intros Hread H1 H2 Hne. cbv zeta.
  assert (Htext : text ≠ []) by (intros ->; by apply elem_of_nil in H1).
  destruct (compress_file_run path output_path w text Hread Htext)
    as (data & root & enc & bs & Hdata & Hroot & Henc & _ & Hbs & Hrun).
  cbv zeta in Hrun. destruct Hrun as [s' Hrun]. rewrite Hrun. cbn [fst snd].
  set (p := default (path +:+ ".huffman") output_path) in *.
  pose proof (decompress_file_stages p output_path'
                (mkWorld s' (<[p := SHA256.hexdigest data ++ [10%Z]
                   ++ json.dumps (_make_frequency_dict text) ++ [10%Z] ++ bs]>
                   (fs w)))) as Hst.
  cbv zeta in Hst. cbn [fs] in Hst.
  rewrite (decompress_compressed _ p text data root enc bs c1 c2) in Hst;
    [|by eapply read_text_scalar|done..|by rewrite lookup_insert_eq].
  destruct Hst as [Hr Hfs]. rewrite Hfs.
  split_and!; [done|done| |].
  - exists data. by rewrite lookup_insert_eq.
  - eapply read_text_written; [done..|]. by rewrite lookup_insert_eq.
Qed.

Lemma round_trip_witness :
  let r := compress_file "example.txt" None (example_world aaabbc) in
  let r' := decompress_file "example.txt.huffman" None r.2 in
  r.1 = Ret "example.txt.huffman"%string ∧
  r'.1 = Ret "example.txt.decompressed"%string ∧
  (∃ data, utf8_encode aaabbc = Ret data ∧
           fs r'.2 !! "example.txt.decompressed"%string = Some data) ∧
  read_text (fs r'.2) "example.txt.decompressed" = Ret aaabbc.
Proof.
  apply (round_trip "example.txt" None None (example_world aaabbc) aaabbc 97 98).
  - reflexivity.
  - left.
  - do 3 right. left.
  - done.
Defined.

Lemma round_trip_empty_counterexample :
  let r := compress_file "example.txt" None (example_world []) in
  read_text (fs (example_world [])) "example.txt" = Ret [] ∧
  r.1 = Raise IndexError ∧ (∀ p, r.1 ≠ Ret p) ∧
  fs r.2 !! "example.txt.huffman"%string = None.
Proof. by vm_compute. Qed.

(** C2 on the code.  A table with a single symbol gives that symbol the
    empty code, not a code of one bit; the container written for ["zzzz"]
    therefore carries no encoded bits, and decompressing it raises the
    integrity failure instead of giving ["zzzz"] back. *)
Theorem single_symbol_zzzz :
  (∀ k n, code_table [(k, n)] = Ret [(k, [])]) ∧
  _make_frequency_dict zzzz = [([122%Z], 4%Z)] ∧
  let r := compress_file "example.txt" None (example_world zzzz) in
  let r' := decompress_file "example.txt.huffman" None r.2 in
  r.1 = Ret "example.txt.huffman"%string ∧
  decode_payload [([122%Z], 4%Z)] [8; 0]%Z = Ret [] ∧
  r'.1 = Raise ValueError_integrity ∧
  fs r'.2 !! "example.txt.decompressed"%string = None.
Proof. split; [done|]. by vm_compute. Qed.

(** C3, as the code has it.  Compressing a file whose content is empty
    fails before any output file is opened, and the file system is left as
    it was.  The failure is the built-in [IndexError] that [self.heap[0]]
    raises on the empty heap: its text is ['list index out of range']
    whatever the path, so it names neither the path nor the empty
    frequency table. *)
Theorem compress_file_empty path output_path w :
  read_text (fs w) path = Ret [] →
  compress_file path output_path w
    = (Raise IndexError, mkWorld (mkCompressor [] [] []) (fs w)) ∧
  message IndexError = Some "list index out of range"%string.
Proof.
  intros Hread. split; [|done]. unfold compress_file.
  cbv [mbind M_bind lift get_self put_self modify_self raise mret M_ret].
  by rewrite Hread.
Qed.

Lemma compress_file_empty_witness :
  read_text (fs empty_world) "empty.txt" = Ret [] ∧
  compress_file "empty.txt" None empty_world
    = (Raise IndexError, mkWorld (mkCompressor [] [] []) (fs empty_world)) ∧
  message IndexError = Some "list index out of range"%string.
Proof.
  split; [reflexivity|]. apply (compress_file_empty "empty.txt" None empty_world).
  reflexivity.
Defined.

(** The exception of ['empty.txt'] does not mention the path, and a file
    of another name gives the same exception. *)
Lemma compress_file_empty_counterexample :
  let r := compress_file "empty.txt" None empty_world in
  let r' := compress_file "other.txt" None
              (mkWorld __init__ {[ "other.txt"%string := [] ]}) in
  read_text (fs empty_world) "empty.txt" = Ret [] ∧
  r.1 = Raise IndexError ∧
  message IndexError = Some "list index out of range"%string ∧
  str_contains "list index out of range" "empty.txt" = false ∧
  r'.1 = r.1.
Proof. by vm_compute. Qed.

(** C4. Padding appends [extra = 8 - L mod 8] zero bits, a count between 1
    and 8, and prepends the count as an 8-bit big-endian field; the padded
    length is a multiple of 8; reading the first 8 bits as the count,
    dropping them and dropping the last [extra] bits gives the encoded
    bits back, also after packing into bytes and expanding the bytes. *)
Theorem padding_round_trip (encoded_text : bits) :
  let extra := 8 - length encoded_text `mod` 8 in
  let padded := _pad_encoded_text encoded_text in
  1 ≤ extra ≤ 8 ∧
  padded = format_08b (Z.of_nat extra) ++ encoded_text ++ replicate extra false ∧
  length (format_08b (Z.of_nat extra)) = 8 ∧
  int2 (format_08b (Z.of_nat extra)) = Ret (Z.of_nat extra) ∧
  length padded `mod` 8 = 0 ∧
  int2 (take 8 padded) = Ret (Z.of_nat extra) ∧
  slice_to_neg (drop 8 padded) (Z.of_nat extra) = encoded_text ∧
  ∃ byte_array, _get_byte_array padded = Ret byte_array ∧
                Forall (λ b, 0 ≤ b < 256)%Z byte_array ∧
                byte_array ≫= format_08b = padded.
Proof.
  cbv zeta.
  destruct (padding_count_range (length encoded_text)) as [Hr _].
  destruct (format_08b_count _ Hr) as [Hlen Hint].
  destruct (unpad_pad encoded_text) as [Hcount Hstrip].
  destruct (_get_byte_array_pad encoded_text) as (bs & Hbs & Hexp & Hrange).
  split_and!; try done; try lia.
  - apply _pad_encoded_text_length.
  - by exists bs.
Qed.

(** C5, as the code has it.  Take the container written by
    [compress_file] for a non-empty text; its payload starts with the
    padding count [extra], between 1 and 8.  Flipping bit [k < 8] of a
    payload byte changes the container, and [decompress_file] on the
    result either raises the integrity failure and writes nothing, or
    returns and writes bytes whose SHA-256 digest is the digest of the
    original text: it raises no other exception.  When the text has two
    distinct symbols and the bit is one of the [extra] padding bits of the
    last byte, [decompress_file] returns and writes the original text. *)
Theorem payload_bit_flip path output_path w (text : pystr) p' output_path' w'
    j k :
  read_text (fs w) path = Ret text → text ≠ [] → k < 8 →
  let r := compress_file path output_path w in
  let p := default (path +:+ ".huffman") output_path in
  ∃ container data (extra : nat),
    r.1 = Ret p ∧ fs r.2 !! p = Some container ∧ utf8_encode text = Ret data ∧
    container !! header_length container = Some (Z.of_nat extra) ∧
    1 ≤ extra ≤ 8 ∧
    (header_length container ≤ j < length container →
     fs w' !! p' = Some (flip_bit container j k) →
     let r' := decompress_file p' output_path' w' in
     let q := decompressed_path p' output_path' in
     flip_bit container j k ≠ container ∧
     ((r'.1 = Raise ValueError_integrity ∧ fs r'.2 = fs w') ∨
      ∃ decoded_bytes,
        r'.1 = Ret q ∧ fs r'.2 = <[q := decoded_bytes]> (fs w') ∧
        SHA256.hexdigest decoded_bytes = SHA256.hexdigest data) ∧
     (1 < length (_make_frequency_dict text) →
      j = length container - 1 → k < extra →
      r'.1 = Ret q ∧ fs r'.2 = <[q := data]> (fs w'))).
Proof.
  intros Hread Hne Hk. cbv zeta.
  destruct (compress_file_state path output_path w text Hread Hne)
    as (data & root & enc & bs & Hdata & Hroot & Henc & Hbs & Hrun).
  destruct (_get_byte_array_pad enc) as (bs' & Hbs' & Hexp & Hrange).
  rewrite Hbs in Hbs'. injection Hbs' as <-.
  cbv zeta in Hrun. rewrite Hrun. cbn [fst snd fs].
  pose proof (read_text_scalar _ _ _ Hread) as Hsc.
  pose proof (frequency_wf text Hsc) as Hwf.
  set (frequency := _make_frequency_dict text) in *.
  set (file_hash := SHA256.hexdigest data).
  set (line := json.dumps frequency).
  set (header := file_hash ++ [10%Z] ++ line ++ [10%Z]).
  assert (Hcont : file_hash ++ [10%Z] ++ line ++ [10%Z] ++ bs = header ++ bs).
  { unfold header. by rewrite <- !(assoc_L (++)). }
  assert (H1 : 10%Z ∉ file_hash).
  { intros Hin. pose proof (hexdigest_hex data) as Hhex.
    eapply Forall_forall in Hhex; [|done]. unfold is_hex in Hhex. lia. }
  assert (H2 : 10%Z ∉ line).
  { intros Hin. pose proof (dumps_frequency_printable text Hsc) as Hp.
    eapply Forall_forall in Hp; [|done]. unfold printable in Hp. lia. }
  destruct (padding_count_range (length enc)) as [Hextra _].
  exists (file_hash ++ [10%Z] ++ line ++ [10%Z] ++ bs), data,
    (8 - length enc `mod` 8).
  rewrite header_length_container by done. fold header. rewrite Hcont.
  split_and!; [done|by rewrite lookup_insert_eq|done| |lia..|].
  { rewrite lookup_app_r by done. rewrite Nat.sub_diag.
    by apply payload_first_byte. }
  rewrite length_app. intros Hj Hfile.
  set (i := j - length header).
  assert (Hi : i < length bs) by (unfold i; lia).
  assert (Hflip : flip_bit (header ++ bs) j k
                  = header ++ alter (λ b, Z.lxor b (2 ^ Z.of_nat k)) i bs).
  { unfold flip_bit. by rewrite alter_app_r_alt by lia. }
  rewrite Hflip in Hfile |- *.
  pose proof (decompress_file_stages p' output_path' w') as Hst.
  cbv zeta in Hst.
  assert (Hdec : decompress (fs w') p'
    = (text' ← decode_payload frequency
                 (alter (λ b, Z.lxor b (2 ^ Z.of_nat k)) i bs);
       verify file_hash text')).
  { apply decompress_container; [done|].
    rewrite Hfile. unfold header. by rewrite <- !(assoc_L (++)). }
  rewrite Hdec in Hst.
  assert (Hverify : ∀ text', Forall scalar text' →
    verify file_hash text' = Raise ValueError_integrity ∨
    ∃ decoded_bytes,
      verify file_hash text' = Ret (text', decoded_bytes) ∧
      SHA256.hexdigest decoded_bytes = file_hash).
  { intros text' [decoded_bytes Hd]%utf8_encode_scalar.
    rewrite (verify_encoded _ _ _ Hd). case_decide as Hh; [by left|].
    right. exists decoded_bytes. split; [done|exact Hh]. }
  assert (Hfne : frequency ≠ []).
  { intros H. by apply _make_frequency_dict_nil in H. }
  destruct (build_tree_leaves frequency Hfne) as (root' & Hroot' & Hleaves).
  rewrite Hroot in Hroot'. injection Hroot' as <-.
  split_and!.
  - intros Heq. apply app_inv_head in Heq.
    by apply (flip_bytes_ne bs i k).
  - assert (Hdecoded : ∃ text', decode_payload frequency
               (alter (λ b, Z.lxor b (2 ^ Z.of_nat k)) i bs) = Ret text'
               ∧ Forall scalar text').
    { destruct (decide (1 < length frequency)) as [Htwo|Hone].
      - destruct (leaves_internal root) as (f & l & r & ->).
        { by rewrite Hleaves. }
        unfold decode_payload. rewrite Hroot. cbn [mbind outcome_bind].
        destruct (padding_count_readable
                    (alter (λ b, Z.lxor b (2 ^ Z.of_nat k)) i bs)) as [n ->].
        { intros Hnil. apply (f_equal length) in Hnil.
          rewrite length_alter in Hnil. simpl in Hnil. lia. }
        cbn [mbind outcome_bind].
        apply (_decode_text_loop_total scalar);
          [done| |apply subtrees_refl|done|done].
        rewrite Hleaves. by apply frequency_scalar.
      - destruct (frequency_one text Hne Hone) as (c & n & ->).
        pose proof (single_symbol_payload c n root enc bs Hroot Henc Hbs) as ->.
        unfold frequency. rewrite _make_frequency_dict_replicate.
        exists []. split; [by apply decode_payload_single_flip|done]. }
    destruct Hdecoded as (text' & Hdecoded & Hsc').
    rewrite Hdecoded in Hst. cbn [mbind outcome_bind] in Hst.
    destruct (Hverify text' Hsc') as [Hv|(decoded_bytes & Hv & Hh)];
      rewrite Hv in Hst; [by left|right].
    exists decoded_bytes. by destruct Hst.
  - intros Htwo -> Hkx.
    assert (Hchar : Node.char root = None).
    { destruct (leaves_internal root) as (f & l & r & ->); [|done].
      by rewrite Hleaves. }
    replace i with (length bs - 1) in Hst by (unfold i; lia).
    rewrite (decode_payload_padding_flip frequency enc bs k) in Hst by done.
    rewrite (decode_payload_packed frequency root enc bs Hroot Hexp) in Hst.
    unfold _decode_text in Hst.
    rewrite (_decode_text_loop_encoding root text enc [] Hchar Henc) in Hst.
    cbn [mbind outcome_bind app] in Hst.
    rewrite (verify_encoded _ _ _ Hdata) in Hst.
    rewrite decide_False in Hst by (by intros ?). exact Hst.
Qed.

Lemma payload_bit_flip_witness :
  let r := compress_file "example.txt" None (example_world ab) in
  let j := length (compressed_container ab) - 1 in
  ∃ container data (extra : nat),
    r.1 = Ret "example.txt.huffman"%string ∧
    fs r.2 !! "example.txt.huffman"%string = Some container ∧
    utf8_encode ab = Ret data ∧
    container !! header_length container = Some (Z.of_nat extra) ∧
    1 ≤ extra ≤ 8 ∧
    (header_length container ≤ j < length container →
     fs flipped_world !! "example.txt.huffman"%string
       = Some (flip_bit container j 0) →
     let r' := decompress_file "example.txt.huffman" None flipped_world in
     let q := decompressed_path "example.txt.huffman" None in
     flip_bit container j 0 ≠ container ∧
     ((r'.1 = Raise ValueError_integrity ∧ fs r'.2 = fs flipped_world) ∨
      ∃ decoded_bytes,
        r'.1 = Ret q ∧ fs r'.2 = <[q := decoded_bytes]> (fs flipped_world) ∧
        SHA256.hexdigest decoded_bytes = SHA256.hexdigest data) ∧
     (1 < length (_make_frequency_dict ab) →
      j = length container - 1 → 0 < extra →
      r'.1 = Ret q ∧ fs r'.2 = <[q := data]> (fs flipped_world))).
Proof.
  apply (payload_bit_flip "example.txt" None (example_world ab) ab
           "example.txt.huffman" None flipped_world
           (length (compressed_container ab) - 1) 0).
  - reflexivity.
  - done.
  - lia.
Defined.

Lemma payload_bit_flip_counterexample :
  let container := compressed_container ab in
  let j := length container - 1 in
  let r' := decompress_file "example.txt.huffman" None flipped_world in
  fs (compressed_world ab) !! "example.txt.huffman"%string = Some container ∧
  header_length container ≤ j < length container ∧
  flip_bit container j 0 ≠ container ∧
  r'.1 = Ret "example.txt.decompressed"%string ∧
  (∀ e, r'.1 ≠ Raise e) ∧
  fs r'.2 !! "example.txt.decompressed"%string = Some ab.
Proof. vm_compute. split_and!; try done; lia. Qed.

(** C6. The frequency table that comes back from the JSON line is the
    table that was written, entry for entry and in the same order, so the
    tree rebuilt for decompression yields the code table of the tree built
    for compression. *)
Theorem rebuilt_code_table (frequency : dict pystr Z) :
  wf_table frequency → frequency ≠ [] →
  ∃ table, code_table frequency = Ret table ∧
           json.loads (json.dumps frequency) = Ret frequency ∧
           (json.loads (json.dumps frequency) ≫= code_table) = Ret table.
Proof.
  intros Hwf Hne. unfold code_table at 1.
  destruct (build_tree_leaves frequency Hne) as (root & Hroot & _).
  rewrite Hroot. eexists. split; [done|].
  rewrite loads_dumps by done. split; [done|].
  cbn [mbind outcome_bind]. unfold code_table. by rewrite Hroot.
Qed.

Lemma rebuilt_code_table_witness :
  wf_table [([97], 3); ([10], 2); ([128512], 1)]%Z ∧
  ∃ table, code_table [([97], 3); ([10], 2); ([128512], 1)]%Z = Ret table ∧
           json.loads (json.dumps [([97], 3); ([10], 2); ([128512], 1)]%Z)
             = Ret [([97], 3); ([10], 2); ([128512], 1)]%Z ∧
           (json.loads (json.dumps [([97], 3); ([10], 2); ([128512], 1)]%Z)
              ≫= code_table) = Ret table.
Proof.
  assert (Hwf : wf_table [([97], 3); ([10], 2); ([128512], 1)]%Z).
  { split.
    - apply (bool_decide_unpack _). by vm_compute.
    - repeat constructor; unfold scalar; lia. }
  split; [done|].
  by apply (rebuilt_code_table [([97], 3); ([10], 2); ([128512], 1)]%Z Hwf).
Defined.

(** C7. The code table generated from a frequency table with distinct
    keys holds exactly one code for every symbol of the table, and the
    codes of two distinct symbols are never a prefix of one another.  A
    table is generated for every non-empty frequency table. *)
Theorem code_table_prefix_free (frequency : dict pystr Z) :
  NoDup frequency.*1 →
  (frequency ≠ [] → ∃ table, code_table frequency = Ret table) ∧
  ∀ table, code_table frequency = Ret table →
    table.*1 ≡ₚ frequency.*1 ∧ NoDup table.*1 ∧
    (∀ k, k ∈ frequency.*1 → ∃ code, PyDict.get table k = Some code) ∧
    ∀ k1 k2 code1 code2, k1 ≠ k2 →
      PyDict.get table k1 = Some code1 → PyDict.get table k2 = Some code2 →
      ¬ code1 `prefix_of` code2 ∧ ¬ code2 `prefix_of` code1.
Proof.
  intros Hnd. split.
  - intros Hne. unfold code_table.
    destruct (build_tree_leaves frequency Hne) as (root & -> & _). by eexists.
  - intros table. unfold code_table.
    destruct (build_tree frequency) as [root| |] eqn:Hroot; [|done..].
    cbn [mbind outcome_bind]. intros [= <-].
    destruct (code_table_paths frequency root Hnd Hroot) as [Hpnd ->].
    assert (Hne : frequency ≠ []) by (by intros ->).
    destruct (build_tree_leaves frequency Hne) as (root' & Hroot' & Hleaves).
    rewrite Hroot in Hroot'. injection Hroot' as <-.
    assert (Hkeys : (paths root []).*1 ≡ₚ frequency.*1).
    { by rewrite paths_keys, Hleaves. }
    split_and!; [done..| |].
    + intros k Hk. rewrite <- Hkeys in Hk.
      apply list_elem_of_fmap in Hk as ([k' code] & -> & Hin).
      exists code. by apply dict_get_elem.
    + intros k1 k2 code1 code2 Hne12 H1%dict_get_Some H2%dict_get_Some.
      by eapply paths_prefix_free.
Qed.

Lemma code_table_prefix_free_witness :
  NoDup ([([97], 3); ([98], 2); ([99], 1)]%Z : dict pystr Z).*1 ∧
  ((∃ table, code_table [([97], 3); ([98], 2); ([99], 1)]%Z = Ret table) ∧
   ∀ k1 k2 code1 code2, k1 ≠ k2 →
     PyDict.get [([97], [false]); ([99], [true; false]); ([98], [true; true])]%Z k1
       = Some code1 →
     PyDict.get [([97], [false]); ([99], [true; false]); ([98], [true; true])]%Z k2
       = Some code2 →
     ¬ code1 `prefix_of` code2 ∧ ¬ code2 `prefix_of` code1).
Proof.
  assert (Hnd : NoDup ([([97], 3); ([98], 2); ([99], 1)]%Z : dict pystr Z).*1).
  { apply (bool_decide_unpack _). by vm_compute. }
  split; [done|].
  destruct (code_table_prefix_free [([97], 3); ([98], 2); ([99], 1)]%Z Hnd)
    as [Htotal Hprop].
  split; [by apply Htotal|].
  apply (Hprop [([97], [false]); ([99], [true; false]); ([98], [true; true])]%Z).
  reflexivity.
Defined.

(** C8. The tree built from a non-empty frequency table has the least
    weighted sum of leaf depths among all trees with the same leaf
    frequencies, and the table of the reference distribution gets codes of
    lengths 4, 4, 3, 3, 3 and 1. *)
Theorem huffman_optimal (frequency : dict pystr Z) :
  frequency ≠ [] →
  (∃ root, build_tree frequency = Ret root ∧
           leaves root ≡ₚ frequency ∧
           ∀ t, (leaves t).*2 ≡ₚ frequency.*2 → (cost root ≤ cost t)%Z) ∧
  ∃ table, code_table reference_table = Ret table ∧
           code_lengths table reference_table.*1
             = [Some 4; Some 4; Some 3; Some 3; Some 3; Some 1].
Proof.
  intros Hne. split; [|by eexists; split; vm_compute].
  destruct (build_tree_leaves frequency Hne) as (root & Hroot & Hleaves).
  exists root. split_and!; [done..|].
  set (s := _build_heap frequency (mkCompressor [] [] [])).
  pose proof (_build_heap_perm frequency (mkCompressor [] [] [])) as Hperm.
  fold s in Hperm. cbn [heap] in Hperm. rewrite app_nil_r in Hperm.
  destruct (_merge_nodes_loop_optimal (length (heap s)) (heap s))
    as (root' & Hroot' & Hopt); [done| |apply _build_heap_ordered| |].
  { intros Hnil. rewrite Hnil in Hperm. symmetry in Hperm.
    apply Permutation_nil_r in Hperm. by destruct frequency. }
  { rewrite Hperm. apply Forall_fmap, Forall_true. done. }
  assert (root' = root) as ->.
  { revert Hroot. unfold build_tree, _merge_nodes. fold s.
    rewrite Hroot'. cbn. congruence. }
  intros t Ht. specialize (Hopt t).
  assert (Hzero : sum_cost (heap s) = 0%Z).
  { rewrite Hperm. clear. induction frequency as [|kv d IH]; [done|].
    rewrite fmap_cons, sum_cost_cons, IH. cbn. lia. }
  rewrite Hzero in Hopt. rewrite Z.add_0_l in Hopt. apply Hopt.
  rewrite Ht, Hperm, <- list_fmap_compose. done.
Qed.

Lemma huffman_optimal_witness :
  ([([97], 5); ([98], 9); ([99], 12)]%Z : dict pystr Z) ≠ [] ∧
  ∃ root, build_tree [([97], 5); ([98], 9); ([99], 12)]%Z = Ret root ∧
          leaves root ≡ₚ [([97], 5); ([98], 9); ([99], 12)]%Z ∧
          ∀ t, (leaves t).*2 ≡ₚ [5; 9; 12]%Z → (cost root ≤ cost t)%Z.
Proof.
  split; [done|].
  apply (huffman_optimal [([97], 5); ([98], 9); ([99], 12)]%Z). done.
Defined.

(** C9. Once the text is decoded, [decompress_file] recomputes the hash
    of the decoded text and compares it with the hash stored in the
    container.  It raises the integrity failure exactly when the two
    differ, and then no file is written; when they agree it returns the
    output path, and the output file holds the decoded text. *)
Theorem integrity_check path output_path w data file_hash frequency payload
    text decoded_bytes :
  read_bytes (fs w) path = Ret data →
  parse_container data = Ret (file_hash, frequency, payload) →
  decode_payload frequency payload = Ret text →
  utf8_encode text = Ret decoded_bytes →
  let r := decompress_file path output_path w in
  let current_hash := SHA256.hexdigest decoded_bytes in
  (r.1 = Raise ValueError_integrity ↔ current_hash ≠ file_hash) ∧
  (current_hash ≠ file_hash → fs r.2 = fs w) ∧
  (current_hash = file_hash →
     r.1 = Ret (decompressed_path path output_path) ∧
     fs r.2 = <[decompressed_path path output_path := decoded_bytes]> (fs w)).
Proof.
  intros Hread Hparse Hdecode Henc. cbv zeta.
  pose proof (decompress_file_stages path output_path w) as H.
  cbv zeta in H. unfold decompress, verify in H.
  rewrite Hread in H. cbn [mbind outcome_bind] in H.
  rewrite Hparse in H. cbn [mbind outcome_bind fst snd] in H.
  rewrite Hdecode in H. cbn [mbind outcome_bind] in H.
  rewrite Henc in H. cbn [mbind outcome_bind] in H.
  destruct (decide (SHA256.hexdigest decoded_bytes ≠ file_hash)) as [Hne|Heq].
  - destruct H as [-> ->]. split_and!; [done|done|]. by intros ?.
  - apply dec_stable in Heq. destruct H as [-> ->].
    split_and!; [|by intros ?|done]. split; [done|]. by intros ?.
Qed.

Lemma integrity_check_witness :
  let w := compressed_world aaabbc in
  let r := decompress_file "example.txt.huffman" None w in
  let current_hash := SHA256.hexdigest aaabbc in
  (r.1 = Raise ValueError_integrity ↔ current_hash ≠ SHA256.hexdigest aaabbc) ∧
  (current_hash ≠ SHA256.hexdigest aaabbc → fs r.2 = fs w) ∧
  (current_hash = SHA256.hexdigest aaabbc →
     r.1 = Ret (decompressed_path "example.txt.huffman" None) ∧
     fs r.2 = <[decompressed_path "example.txt.huffman" None := aaabbc]> (fs w)).
Proof.
  apply (integrity_check "example.txt.huffman" None (compressed_world aaabbc)
           (compressed_container aaabbc) (SHA256.hexdigest aaabbc)
           [([97], 3); ([98], 2); ([99], 1)]%Z [7; 31; 0]%Z aaabbc aaabbc);
    by vm_compute.
Defined.

(** C10. The JSON line of the frequency table of a text consists of
    printable ASCII characters only, so it holds no newline byte, and the
    line-oriented reader of [decompress_file] parses the frequency table
    back with the same keys, the same counts and the same order. *)
Theorem frequency_line_framing (text : pystr) :
  Forall scalar text →
  let frequency := _make_frequency_dict text in
  ∃ line, utf8_encode (json.dumps frequency) = Ret line ∧
          Forall printable line ∧ (10%Z ∉ line) ∧
          ∀ file_hash payload, Forall is_hex file_hash →
            parse_container (file_hash ++ [10%Z] ++ line ++ [10%Z] ++ payload)
              = Ret (file_hash, frequency, payload).
Proof.
  intros Hsc. cbv zeta.
  pose proof (dumps_frequency_printable text Hsc) as Hp.
  exists (json.dumps (_make_frequency_dict text)). split_and!.
  - by apply utf8_encode_ascii, printable_ascii.
  - done.
  - intros Hin. eapply Forall_forall in Hp; [|done]. unfold printable in Hp. lia.
  - intros file_hash payload Hhex. apply parse_container_header; [done|].
    by apply frequency_wf.
Qed.

Lemma frequency_line_framing_witness :
  Forall scalar [97; 10; 98; 10; 13; 128512]%Z ∧
  ∃ line, utf8_encode (json.dumps (_make_frequency_dict [97; 10; 98; 10; 13; 128512]%Z))
            = Ret line ∧
          Forall printable line ∧ (10%Z ∉ line) ∧
          ∀ file_hash payload, Forall is_hex file_hash →
            parse_container (file_hash ++ [10%Z] ++ line ++ [10%Z] ++ payload)
              = Ret (file_hash, _make_frequency_dict [97; 10; 98; 10; 13; 128512]%Z,
                     payload).
Proof.
  assert (Hsc : Forall scalar [97; 10; 98; 10; 13; 128512]%Z).
  { repeat constructor; unfold scalar; lia. }
  split; [done|].
  exact (frequency_line_framing [97; 10; 98; 10; 13; 128512]%Z Hsc).
Defined.

(** * Further properties of the code *)

(** X1. The frequency table of a text has one key for every character of
    the text, in the order of first occurrence; the value stored for a
    character is the number of its occurrences, a character that does not
    occur has no entry, and the values add up to the length of the text. *)
Theorem _make_frequency_dict_counts (text : pystr) :
  let frequency := _make_frequency_dict text in
  frequency.*1 = (λ c, [c]) <$> first_occurrences text ∧
  (∀ c, PyDict.get frequency [c]
        = if decide (c ∈ text) then Some (str_count c text) else None) ∧
  foldr Z.add 0%Z frequency.*2 = Z.of_nat (length text).
Proof.
  cbv zeta. split_and!.
  - apply _make_frequency_dict_first.
  - apply _make_frequency_dict_get.
  - apply _make_frequency_dict_total.
Qed.

(** X2. [_build_heap] keeps the heap order.  Pushing the entries of a
    frequency table onto a heap that is ordered by frequency leaves a heap
    that is ordered, that holds one new leaf per entry beside the nodes it
    had, and whose node at index 0 is one of least frequency; [codes] and
    [reverse_mapping] are not touched. *)
Theorem _build_heap_invariant frequency (s : HuffmanCompressor) :
  heap_ordered Node.freq (heap s) →
  let s' := _build_heap frequency s in
  heap_ordered Node.freq (heap s') ∧
  heap s' ≡ₚ ((λ kv, Leaf kv.1 kv.2) <$> frequency) ++ heap s ∧
  codes s' = codes s ∧ reverse_mapping s' = reverse_mapping s ∧
  ∀ root, heap_root s' = Ret root →
    Forall (λ node, Node.freq root ≤ Node.freq node)%Z (heap s').
Proof.
  intros Hord. cbv zeta.
  pose proof (_build_heap_ordered_from frequency s Hord) as Hord'.
  split_and!; [done|apply _build_heap_perm|done|done|].
  intros root Hroot. unfold heap_root in Hroot.
  destruct (heap (_build_heap frequency s)) as [|node h] eqn:Hh; [done|].
  injection Hroot as ->. apply Forall_forall. intros y Hy.
  apply list_elem_of_lookup in Hy as [i Hi].
  by apply (heap_ordered_root Node.freq _ root Hord' eq_refl i y).
Qed.

Lemma _build_heap_invariant_witness :
  heap_ordered Node.freq (heap __init__) ∧
  let s' := _build_heap reference_table __init__ in
  heap_ordered Node.freq (heap s') ∧
  heap s' ≡ₚ ((λ kv, Leaf kv.1 kv.2) <$> reference_table) ++ heap __init__ ∧
  codes s' = codes __init__ ∧ reverse_mapping s' = reverse_mapping __init__ ∧
  ∀ root, heap_root s' = Ret root →
    Forall (λ node, Node.freq root ≤ Node.freq node)%Z (heap s').
Proof.
  assert (H : heap_ordered Node.freq (heap __init__)) by (by intros p c x y _ ?).
  split; [done|]. apply (_build_heap_invariant reference_table __init__ H).
Defined.

(** X3. [_merge_nodes] never raises, whatever the heap: an empty heap
    stays empty, any other heap is reduced to a single node, the leaves of
    the nodes are kept, and [codes] and [reverse_mapping] are not
    touched. *)
Theorem _merge_nodes_total (s : HuffmanCompressor) :
  ∃ h, _merge_nodes s = Ret (mkCompressor h (codes s) (reverse_mapping s)) ∧
       length h = length (heap s) `min` 1 ∧
       h ≫= leaves ≡ₚ heap s ≫= leaves.
Proof.
  unfold _merge_nodes. destruct (heap s) as [|node h] eqn:Hh.
  - exists []. by rewrite _merge_nodes_loop_nil.
  - destruct (_merge_nodes_loop_root (length (node :: h)) (node :: h))
      as (root & -> & Hleaves); [done..|].
    exists [root]. split_and!; [done|simpl; lia|].
    rewrite bind_cons. simpl. by rewrite app_nil_r.
Qed.

(** X4. In the tree built from a frequency table every internal node
    stores the sum of the frequencies stored in its two children, so the
    root stores the sum of all frequencies of the table: for the table of
    a text, the length of the text. *)
Theorem build_tree_frequencies (frequency : dict pystr Z) root :
  build_tree frequency = Ret root →
  consistent root ∧
  Node.freq root = foldr Z.add 0%Z frequency.*2 ∧
  ∀ text, frequency = _make_frequency_dict text →
          Node.freq root = Z.of_nat (length text).
Proof.
  intros Hroot.
  assert (Hc : consistent root).
  { apply (build_tree_invariant consistent frequency root); [done| |done].
    intros node1 node2 H1 H2 _. by split. }
  assert (Hne : frequency ≠ []) by (by intros ->).
  destruct (build_tree_leaves frequency Hne) as (root' & Hroot' & Hleaves).
  rewrite Hroot in Hroot'. injection Hroot' as <-.
  assert (Hsum : Node.freq root = foldr Z.add 0%Z frequency.*2).
  { rewrite consistent_freq, weight_leaves by done.
    apply sum_Permutation. by rewrite Hleaves. }
  split_and!; [done..|].
  intros text ->. rewrite Hsum.
  apply _make_frequency_dict_total.
Qed.

Lemma build_tree_frequencies_witness :
  ∃ root, build_tree (_make_frequency_dict aaabbc) = Ret root ∧
    consistent root ∧
    Node.freq root = foldr Z.add 0%Z (_make_frequency_dict aaabbc).*2 ∧
    ∀ text, _make_frequency_dict aaabbc = _make_frequency_dict text →
            Node.freq root = Z.of_nat (length text).
Proof.
  eexists. split; [vm_compute; reflexivity|].
  apply (build_tree_frequencies (_make_frequency_dict aaabbc)). reflexivity.
Defined.

(** X5. Every merge puts the less frequent of the two nodes on the left:
    in the tree built from a frequency table the left child of an
    internal node is never more frequent than the right child. *)
Theorem build_tree_lighter_left (frequency : dict pystr Z) root :
  build_tree frequency = Ret root → lighter_left root.
Proof.
  apply (build_tree_invariant lighter_left); [done|].
  intros node1 node2 H1 H2 Hle. by split.
Qed.

Lemma build_tree_lighter_left_witness :
  ∃ root, build_tree reference_table = Ret root ∧ lighter_left root.
Proof.
  eexists. split; [vm_compute; reflexivity|].
  apply (build_tree_lighter_left reference_table). reflexivity.
Defined.

(** X6. On a tree with distinct symbols and with fresh mappings,
    [_make_codes_helper] leaves [reverse_mapping] the inverse of [codes]:
    a symbol has a code exactly when the code maps back to the symbol. *)
Theorem reverse_mapping_inverse root h :
  NoDup (leaves root).*1 →
  let s := _make_codes_helper root [] (mkCompressor h [] []) in
  ∀ k code, PyDict.get (codes s) k = Some code
            ↔ PyDict.get (reverse_mapping s) code = Some k.
Proof.
  intros Hnd. cbv zeta.
  destruct (_make_codes_helper_fresh root h Hnd) as [-> ->].
  assert (Hk : NoDup (paths root []).*1) by (by rewrite paths_keys).
  assert (Hq : NoDup ((λ kv : pystr * bits, (kv.2, kv.1)) <$> paths root []).*1).
  { rewrite <- list_fmap_compose.
    erewrite list_fmap_ext; [apply (paths_codes_NoDup root [])|].
    by intros i [k q] _. }
  intros k code. split.
  - intros H%dict_get_Some. apply dict_get_elem; [done|].
    apply list_elem_of_fmap. by exists (k, code).
  - intros ([k' q] & [= -> ->] & Hin)%dict_get_Some%list_elem_of_fmap.
    by apply dict_get_elem.
Qed.

Lemma reverse_mapping_inverse_witness :
  ∃ root, build_tree reference_table = Ret root ∧
    NoDup (leaves root).*1 ∧
    let s := _make_codes_helper root [] (mkCompressor [root] [] []) in
    ∀ k code, PyDict.get (codes s) k = Some code
              ↔ PyDict.get (reverse_mapping s) code = Some k.
Proof.
  eexists. split; [vm_compute; reflexivity|].
  match goal with |- NoDup ?l ∧ _ =>
    assert (Hnd : NoDup l) by (apply (bool_decide_unpack _); by vm_compute)
  end.
  split; [done|]. apply (reverse_mapping_inverse _ _ Hnd).
Defined.

(** X7. [_get_encoded_text] raises [KeyError] exactly when the text has a
    character without a code, and it raises nothing else; when every
    character has a code it returns the concatenation of the codes. *)
Theorem _get_encoded_text_KeyError (text : pystr) (s : HuffmanCompressor) :
  (_get_encoded_text text s = Raise KeyError
   ↔ ∃ c, c ∈ text ∧ [c] ∉ (codes s).*1) ∧
  ((∀ c, c ∈ text → [c] ∈ (codes s).*1) →
   ∃ enc, _get_encoded_text text s = Ret enc ∧
          encoding (codes s) text = Some enc) ∧
  ∀ e, _get_encoded_text text s = Raise e → e = KeyError.
Proof.
  unfold _get_encoded_text.
  destruct (encoding (codes s) text) as [enc|] eqn:Henc.
  - rewrite (_get_encoded_text_loop_encoding text s [] enc Henc). split_and!.
    + split; [done|]. intros H%encoding_None. congruence.
    + intros _. by exists enc.
    + done.
  - rewrite (_get_encoded_text_loop_KeyError text s [] Henc). split_and!.
    + split; [|done]. intros _. by apply encoding_None.
    + intros Hall. apply encoding_None in Henc as (c & Hc & Hnin).
      destruct Hnin. by apply Hall.
    + by intros e [= <-].
Qed.

(** X8. The encoded text has as many bits as the weighted sum of the leaf
    depths of the tree, the cost that the merge minimises. *)
Theorem encoded_text_length (text : pystr) root :
  build_tree (_make_frequency_dict text) = Ret root →
  ∃ enc, _get_encoded_text text
           (_make_codes_helper root [] (mkCompressor [root] [] [])) = Ret enc ∧
         Z.of_nat (length enc) = cost root.
Proof.
  intros Hroot.
  pose proof (_make_frequency_dict_NoDup text) as Hnd.
  destruct (code_table_paths _ root Hnd Hroot) as [Hpnd Hcodes].
  assert (Hne : _make_frequency_dict text ≠ []) by (intros H; by rewrite H in Hroot).
  destruct (build_tree_leaves _ Hne) as (root' & Hroot' & Hleaves).
  rewrite Hroot in Hroot'. injection Hroot' as <-.
  destruct (encoding_total (paths root []) text) as [enc Henc].
  { intros c Hc. rewrite paths_keys, Hleaves.
    apply _make_frequency_dict_keys. eauto. }
  exists enc. split.
  - unfold _get_encoded_text.
    by rewrite (_get_encoded_text_loop_encoding _ _ _ enc) by (by rewrite Hcodes).
  - by apply (encoding_cost text root enc).
Qed.

Lemma encoded_text_length_witness :
  ∃ root, build_tree (_make_frequency_dict aaabbc) = Ret root ∧
    ∃ enc, _get_encoded_text aaabbc
             (_make_codes_helper root [] (mkCompressor [root] [] [])) = Ret enc ∧
           Z.of_nat (length enc) = cost root.
Proof.
  eexists. split; [vm_compute; reflexivity|].
  apply (encoded_text_length aaabbc). reflexivity.
Defined.

(** X9. [_get_byte_array] never fails.  Any bit string, of whatever
    length, is packed into as many bytes as it has groups of 8 bits, the
    last group counted when it is short; every byte lies in [0, 256) and
    is the value of its group.  Packing the bits that [decompress_file]
    expands from a byte string gives the byte string back. *)
Theorem _get_byte_array_total :
  (∀ padded_encoded_text : bits,
     ∃ b, _get_byte_array padded_encoded_text = Ret b ∧
          length b = (length padded_encoded_text + 7) / 8 ∧
          Forall (λ x, 0 ≤ x < 256)%Z b ∧
          ∀ k, k < length b →
               b !! k = Some (bits_val (take 8 (drop (8 * k) padded_encoded_text)))) ∧
  (∀ b : bytes, Forall (λ x, 0 ≤ x < 256)%Z b →
     _get_byte_array (b ≫= format_08b) = Ret b).
Proof.
  split.
  - apply _get_byte_array_any.
  - intros b Hb. apply (_get_byte_array_loop_bytes b [] Hb).
Qed.

(** X10. [_decode_text] with a leaf as root returns the empty text on
    the empty bit string and raises [AttributeError] on any other input;
    with an internal node as root it never raises, whatever the bits, and
    the text it returns is made of characters of the symbols of the
    tree. *)
Theorem _decode_text_outcome (encoded_text : bits) (root : HuffmanNode) :
  match root with
  | Leaf _ _ =>
      _decode_text encoded_text root
        = if decide (encoded_text = []) then Ret [] else Raise AttributeError
  | Internal _ _ _ =>
      ∃ text, _decode_text encoded_text root = Ret text ∧
              Forall (λ ch, ∃ k, k ∈ (leaves root).*1 ∧ ch ∈ k) text
  end.
Proof.
  destruct root as [c f|f l r]; [apply _decode_text_leaf|].
  apply (_decode_text_loop_total _ encoded_text (Internal f l r) (Internal f l r) []);
    [done| |apply subtrees_refl|done|done].
  apply Forall_forall. intros k Hk. apply Forall_forall. intros ch Hch. eauto.
Qed.

(** X11. Bits that stop in the middle of a code are dropped silently: the
    encoded text followed by a proper prefix of a code decodes to the
    text, without an error. *)
Theorem _decode_text_truncated root (text : pystr) enc c code q :
  Node.char root = None →
  encoding (paths root []) text = Some enc →
  (c, code) ∈ paths root [] → q `prefix_of` code → q ≠ code →
  _decode_text (enc ++ q) root = Ret text.
Proof.
  intros Hroot Henc Hin [q' ->] Hne. unfold _decode_text.
  rewrite (_decode_text_loop_app root text enc q []) by done. cbn [app].
  apply (_decode_text_loop_partial root c q q'); [done|].
  intros ->. by rewrite app_nil_r in Hne.
Qed.

Lemma _decode_text_truncated_witness :
  ∃ root, build_tree (_make_frequency_dict aaabbc) = Ret root ∧
    Node.char root = None ∧
    encoding (paths root []) aaabbc
      = Some [false; false; false; true; true; true; true; true; false] ∧
    ([99%Z], [true; false]) ∈ paths root [] ∧
    [true] `prefix_of` [true; false] ∧ [true] ≠ [true; false] ∧
    _decode_text ([false; false; false; true; true; true; true; true; false]
                  ++ [true]) root = Ret aaabbc.
Proof.
  eexists. split; [vm_compute; reflexivity|].
  assert (H1 : ([99%Z], [true; false])
               ∈ paths (Internal 6 (Leaf [97] 3)
                          (Internal 3 (Leaf [99] 1) (Leaf [98] 2)))%Z []).
  { cbn. right. left. }
  assert (H2 : [true] `prefix_of` [true; false]) by (by exists [false]).
  split_and!; [done|by vm_compute|done|done|done|].
  by apply (_decode_text_truncated _ aaabbc _ [99%Z] [true; false] [true]).
Defined.


(** X13. Each of the two methods writes one file at most: a path other
    than the output path holds after the call what it held before,
    whether the call returns or raises. *)
Theorem other_files_untouched path output_path w q :
  (q ≠ default (path +:+ ".huffman") output_path →
   fs (compress_file path output_path w).2 !! q = fs w !! q) ∧
  (q ≠ decompressed_path path output_path →
   fs (decompress_file path output_path w).2 !! q = fs w !! q).
Proof.
  split; intros Hq.
  - pose proof (compress_file_cases path output_path w) as H. cbv zeta in H.
    destruct (fs w !! path) as [data|]; [|by rewrite H].
    destruct (utf8_decode data) as [s| |];
      [|destruct H as [_ ->]; done..].
    case_decide; [by rewrite H|].
    destruct H as (s' & container & ->). cbn [snd fs].
    by rewrite lookup_insert_ne.
  - pose proof (decompress_file_stages path output_path w) as H. cbv zeta in H.
    destruct (decompress (fs w) path) as [[text d]|e|]; destruct H as [_ ->];
      [|done..].
    by rewrite lookup_insert_ne.
Qed.

Lemma other_files_untouched_witness :
  fs (compress_file "example.txt" None (example_world aaabbc)).2
    !! "notes.txt"%string = fs (example_world aaabbc) !! "notes.txt"%string ∧
  fs (decompress_file "example.txt" None (example_world aaabbc)).2
    !! "notes.txt"%string = fs (example_world aaabbc) !! "notes.txt"%string.
Proof.
  destruct (other_files_untouched "example.txt" None (example_world aaabbc)
              "notes.txt") as [H1 H2].
  split; [apply H1|apply H2]; done.
Defined.

(** X14. Both methods reset the state of the compressor: the result of
    a call, the files it leaves and, when it returns, the fields of the
    compressor do not depend on the fields before the call. *)
Theorem state_is_reset path output_path (s1 s2 : HuffmanCompressor)
    (files : gmap string bytes) :
  (let r1 := compress_file path output_path (mkWorld s1 files) in
   let r2 := compress_file path output_path (mkWorld s2 files) in
   r1.1 = r2.1 ∧ fs r1.2 = fs r2.2 ∧
   ((∃ p, r1.1 = Ret p) → self r1.2 = self r2.2)) ∧
  (let r1 := decompress_file path output_path (mkWorld s1 files) in
   let r2 := decompress_file path output_path (mkWorld s2 files) in
   r1.1 = r2.1 ∧ fs r1.2 = fs r2.2 ∧
   ((∃ p, r1.1 = Ret p) → self r1.2 = self r2.2)).
Proof.
  split; cbv zeta.
  - pose proof (compress_file_cases path output_path (mkWorld s1 files)) as H1.
    pose proof (compress_file_cases path output_path (mkWorld s2 files)) as H2.
    cbv zeta in H1, H2. cbn [fs] in H1, H2.
    pose proof (read_text_outcome files path) as Hread.
    destruct (files !! path) as [data|].
    + destruct (utf8_decode data) as [s| |] eqn:Hs.
      * case_decide as Hd; [by rewrite H1, H2|].
        destruct Hread as [(text & Hread & Hnil & _)|[_ [=]]].
        assert (Hne : text ≠ []) by (by intros ?%Hnil).
        destruct (compress_file_state path output_path (mkWorld s1 files) text
                    Hread Hne) as (d1 & root1 & enc1 & bs1 & Hd1 & Hr1 & He1 & Hb1 & ->).
        destruct (compress_file_state path output_path (mkWorld s2 files) text
                    Hread Hne) as (d2 & root2 & enc2 & bs2 & Hd2 & Hr2 & He2 & Hb2 & ->).
        cbn [fst snd fs self].
        rewrite Hd1 in Hd2. injection Hd2 as <-.
        rewrite Hr1 in Hr2. injection Hr2 as <-.
        rewrite He1 in He2. injection He2 as <-.
        rewrite Hb1 in Hb2. injection Hb2 as <-. by split_and!.
      * destruct H1 as [_ ->], H2 as [_ ->]. split_and!; try done.
        by intros [p [=]].
      * by destruct H1.
    + rewrite H1, H2. split_and!; try done. by intros [p [=]].
  - unfold decompress_file.
    cbv [mbind M_bind lift get_self put_self modify_self open_w file_write
         file_write_text raise mret M_ret].
    cbn [self fs].
    destruct (read_bytes files path) as [data| |];
      [|split_and!; try done; by intros [p [=]]..].
    destruct (readline data) as [line1 data1].
    destruct (utf8_decode line1) as [t1| |];
      [|split_and!; try done; by intros [p [=]]..].
    destruct (readline data1) as [line2 data2].
    destruct (utf8_decode line2) as [t2| |];
      [|split_and!; try done; by intros [p [=]]..].
    destruct (json.loads (strip t2)) as [frequency| |];
      [|split_and!; try done; by intros [p [=]]..].
    cbn [self fs].
    destruct (_merge_nodes _) as [s'| |];
      [|split_and!; try done; by intros [p [=]]..].
    destruct (heap_root s') as [root| |];
      [|split_and!; try done; by intros [p [=]]..].
    cbn [self fs].
    destruct (int2 _) as [extra_padding| |];
      [|split_and!; try done; by intros [p [=]]..].
    destruct (_decode_text _ root) as [text| |];
      [|split_and!; try done; by intros [p [=]]..].
    destruct (utf8_encode text) as [decoded_bytes| |];
      [|split_and!; try done; by intros [p [=]]..].
    case_decide; [split_and!; try done; by intros [p [=]]|].
    cbn [self fs]. by split_and!.
Qed.

(** X15. The container that [compress_file] writes: the SHA-256 digest
    of the UTF-8 text as 64 hexadecimal digits, a newline, the JSON line
    of the frequency table in printable ASCII, a newline, and a payload
    of cost / 8 + 2 bytes (the quotient rounded down), where cost is the
    weighted sum of the leaf depths of the tree. *)
Theorem container_layout path output_path w (text : pystr) :
  read_text (fs w) path = Ret text → text ≠ [] →
  let r := compress_file path output_path w in
  let p := default (path +:+ ".huffman") output_path in
  let line := json.dumps (_make_frequency_dict text) in
  ∃ data root payload,
    utf8_encode text = Ret data ∧
    build_tree (_make_frequency_dict text) = Ret root ∧
    r.1 = Ret p ∧
    fs r.2 !! p = Some (SHA256.hexdigest data ++ [10%Z] ++ line ++ [10%Z]
                        ++ payload) ∧
    length (SHA256.hexdigest data) = 64 ∧
    Forall is_hex (SHA256.hexdigest data) ∧
    Forall printable line ∧
    Z.of_nat (length payload) = (cost root / 8 + 2)%Z ∧
    Forall (λ b, 0 ≤ b < 256)%Z payload.
Proof.
  intros Hread Hne. cbv zeta.
  destruct (compress_file_state path output_path w text Hread Hne)
    as (data & root & enc & bs & Hdata & Hroot & Henc & Hbs & Hrun).
  cbv zeta in Hrun. rewrite Hrun. cbn [fst snd fs].
  exists data, root, bs. split_and!; try done.
  - by rewrite lookup_insert_eq.
  - apply hexdigest_length.
  - apply hexdigest_hex.
  - apply dumps_frequency_printable. by eapply read_text_scalar.
  - rewrite (packed_length enc bs Hbs), <- (encoding_cost text root enc) by done.
    rewrite Nat2Z.inj_add, Nat2Z.inj_div. done.
  - destruct (_get_byte_array_pad enc) as (bs' & Hbs' & _ & Hrange).
    rewrite Hbs in Hbs'. by injection Hbs' as <-.
Qed.

Lemma container_layout_witness :
  let r := compress_file "example.txt" None (example_world aaabbc) in
  let line := json.dumps (_make_frequency_dict aaabbc) in
  ∃ data root payload,
    utf8_encode aaabbc = Ret data ∧
    build_tree (_make_frequency_dict aaabbc) = Ret root ∧
    r.1 = Ret "example.txt.huffman"%string ∧
    fs r.2 !! "example.txt.huffman"%string
      = Some (SHA256.hexdigest data ++ [10%Z] ++ line ++ [10%Z] ++ payload) ∧
    length (SHA256.hexdigest data) = 64 ∧
    Forall is_hex (SHA256.hexdigest data) ∧
    Forall printable line ∧
    Z.of_nat (length payload) = (cost root / 8 + 2)%Z ∧
    Forall (λ b, 0 ≤ b < 256)%Z payload.
Proof.
  apply (container_layout "example.txt" None (example_world aaabbc) aaabbc).
  - reflexivity.
  - done.
Defined.

(** X16. After [compress_file] has returned, the heap holds the root of
    the tree alone, [codes] is the code table of the frequency table of
    the text, with a code for every character of the text, and
    [reverse_mapping] holds the same pairs the other way round. *)
Theorem compress_file_final_state path output_path w (text : pystr) :
  read_text (fs w) path = Ret text → text ≠ [] →
  ∃ root,
    build_tree (_make_frequency_dict text) = Ret root ∧
    self (compress_file path output_path w).2
      = mkCompressor [root] (paths root [])
          ((λ kv, (kv.2, kv.1)) <$> paths root []) ∧
    code_table (_make_frequency_dict text) = Ret (paths root []) ∧
    ∀ c, c ∈ text → ∃ code, ([c], code) ∈ paths root [].
Proof.
  intros Hread Hne.
  destruct (compress_file_state path output_path w text Hread Hne)
    as (data & root & enc & bs & Hdata & Hroot & Henc & Hbs & Hrun).
  cbv zeta in Hrun. rewrite Hrun. cbn [snd self].
  assert (Hfne : _make_frequency_dict text ≠ []).
  { intros H. by apply _make_frequency_dict_nil in H. }
  destruct (build_tree_leaves _ Hfne) as (root' & Hroot' & Hleaves).
  rewrite Hroot in Hroot'. injection Hroot' as <-.
  assert (Hnd : NoDup (leaves root).*1).
  { rewrite Hleaves. apply _make_frequency_dict_NoDup. }
  destruct (_make_codes_helper_fresh root [root] Hnd) as [Hcodes Hrev].
  exists root. split_and!; [done| | |].
  - destruct (_make_codes_helper root [] _) as [h cs rm] eqn:Hs.
    cbn [codes reverse_mapping] in Hcodes, Hrev. subst cs rm. f_equal.
    apply (f_equal heap) in Hs. by rewrite _make_codes_helper_heap in Hs.
  - unfold code_table. rewrite Hroot. cbn [mbind outcome_bind]. by rewrite Hcodes.
  - intros c Hc.
    assert (Hk : [c] ∈ (paths root []).*1).
    { rewrite paths_keys, Hleaves. apply _make_frequency_dict_keys. eauto. }
    apply list_elem_of_fmap in Hk as ([k code] & -> & Hin). by exists code.
Qed.

Lemma compress_file_final_state_witness :
  ∃ root,
    build_tree (_make_frequency_dict aaabbc) = Ret root ∧
    self (compress_file "example.txt" None (example_world aaabbc)).2
      = mkCompressor [root] (paths root [])
          ((λ kv, (kv.2, kv.1)) <$> paths root []) ∧
    code_table (_make_frequency_dict aaabbc) = Ret (paths root []) ∧
    ∀ c, c ∈ aaabbc → ∃ code, ([c], code) ∈ paths root [].
Proof.
  apply (compress_file_final_state "example.txt" None (example_world aaabbc)
           aaabbc).
  - reflexivity.
  - done.
Defined.

(** X17. A text that repeats one character, whatever its length, is
    compressed to a container that consists of the digest line, the JSON
    line of the table and the payload of the two bytes 8 and 0: the only
    code is the empty one.  This payload decodes to the empty text, so
    [decompress_file] does not give the text back: it raises the
    integrity failure and writes nothing when the digest of the text
    differs from the digest of the empty text, and writes an empty file
    when the two digests are equal. *)
Theorem single_symbol_text path output_path output_path' w (c : Z) (n : nat) :
  read_text (fs w) path = Ret (replicate (S n) c) →
  let text := replicate (S n) c in
  let frequency := _make_frequency_dict text in
  let r := compress_file path output_path w in
  let p := default (path +:+ ".huffman") output_path in
  let r' := decompress_file p output_path' r.2 in
  let q := decompressed_path p output_path' in
  ∃ data container,
    utf8_encode text = Ret data ∧
    r.1 = Ret p ∧ fs r.2 !! p = Some container ∧
    container = SHA256.hexdigest data ++ [10%Z] ++ json.dumps frequency
                  ++ [10%Z] ++ [8; 0]%Z ∧
    parse_container container = Ret (SHA256.hexdigest data, frequency, [8; 0]%Z) ∧
    code_table frequency = Ret [([c], [])] ∧
    decode_payload frequency [8; 0]%Z = Ret [] ∧
    (SHA256.hexdigest data ≠ SHA256.hexdigest [] →
     r'.1 = Raise ValueError_integrity ∧ fs r'.2 = fs r.2) ∧
    (SHA256.hexdigest data = SHA256.hexdigest [] →
     r'.1 = Ret q ∧ fs r'.2 = <[q := []]> (fs r.2)).
Proof.
  intros Hread. cbv zeta.
  destruct (single_symbol_run path output_path w c n Hread)
    as (data & s' & Hdata & Hrun).
  cbv zeta in Hrun. rewrite Hrun. cbn [fst snd fs].
  pose proof (frequency_wf _ (read_text_scalar _ _ _ Hread)) as Hwf.
  rewrite _make_frequency_dict_replicate in *.
  match goal with
  | |- context [decompress_file ?p ?o ?w'] =>
      destruct (single_symbol_decompress p o w' c (Z.of_nat (S n)) data Hwf)
        as [Hbad Hgood]; [apply lookup_insert_eq|]
  end.
  cbv zeta in Hbad, Hgood. cbn [fs] in Hbad, Hgood.
  eexists data, _. split_and!; [done|done|apply lookup_insert_eq|done| | | | |].
  - apply parse_container_header; [apply hexdigest_hex|done].
  - apply code_table_single.
  - apply decode_payload_single.
  - exact Hbad.
  - exact Hgood.
Qed.

Lemma single_symbol_text_witness :
  let w := example_world zzzz in
  let r := compress_file "example.txt" None w in
  let r' := decompress_file "example.txt.huffman" None r.2 in
  r.1 = Ret "example.txt.huffman"%string ∧
  fs r.2 !! "example.txt.huffman"%string
    = Some (SHA256.hexdigest zzzz ++ [10%Z]
            ++ json.dumps [([122%Z], 4%Z)] ++ [10%Z] ++ [8; 0]%Z) ∧
  r'.1 = Raise ValueError_integrity ∧ fs r'.2 = fs r.2.
Proof.
  destruct (single_symbol_text "example.txt" None None (example_world zzzz)
              122 3)
    as (data & container & Hdata & Hr & Hfile & Hc & _ & _ & _ & Hbad & _);
    [reflexivity|].
  cbv zeta.
  assert (Hz : data = zzzz) by (vm_compute in Hdata; injection Hdata as <-; reflexivity).
  subst data.
  split; [exact Hr|]. split; [subst container; exact Hfile|].
  apply Hbad. by vm_compute.
Defined.

(** X18. For a file with two distinct characters, the decompressed file
    holds the UTF-8 encoding of the text as it was read, with universal
    newlines: it has no carriage return, and it equals the original file
    byte for byte exactly when the original has no carriage return. *)
Theorem decompressed_bytes path output_path output_path' w (data : bytes)
    (text : pystr) c1 c2 :
  fs w !! path = Some data → read_text (fs w) path = Ret text →
  c1 ∈ text → c2 ∈ text → c1 ≠ c2 →
  let r := compress_file path output_path w in
  let p := default (path +:+ ".huffman") output_path in
  let r' := decompress_file p output_path' r.2 in
  let q := decompressed_path p output_path' in
  ∃ data', r'.1 = Ret q ∧ fs r'.2 !! q = Some data' ∧
           utf8_encode text = Ret data' ∧
           (13%Z ∉ data') ∧ (data' = data ↔ 13%Z ∉ data).
Proof.
  intros Hfile Hread H1 H2 Hne. cbv zeta.
  destruct (round_trip_files path output_path output_path' w text c1 c2
              Hread H1 H2 Hne) as (data' & container & s' & Hdata & -> & Hr & Hfs).
  cbn [snd]. exists data'. rewrite Hfs, lookup_insert_eq.
  assert (H13 : (0 ≤ 13 < 128)%Z) by lia.
  revert Hread. unfold read_text, read_bytes. rewrite Hfile.
  cbn [mbind outcome_bind].
  destruct (utf8_decode data) as [s| |] eqn:Hs; [|done..].
  cbn [mbind outcome_bind]. intros [= <-].
  assert (Hno : 13%Z ∉ data').
  { rewrite (utf8_encode_low _ _ _ Hdata H13). apply universal_newlines_no_cr. }
  split_and!; [done..|]. split; [by intros <-|].
  intros Hnin. apply utf8_encode_decode in Hs.
  rewrite universal_newlines_id in Hdata by (by rewrite <- (utf8_encode_low _ _ _ Hs H13)).
  congruence.
Qed.

Lemma decompressed_bytes_witness :
  let w := example_world [97; 13; 10; 98]%Z in
  let r := compress_file "example.txt" None w in
  let r' := decompress_file "example.txt.huffman" None r.2 in
  ∃ data', r'.1 = Ret "example.txt.decompressed"%string ∧
           fs r'.2 !! "example.txt.decompressed"%string = Some data' ∧
           utf8_encode [97; 10; 98]%Z = Ret data' ∧
           (13%Z ∉ data') ∧ (data' = [97; 13; 10; 98]%Z ↔ 13%Z ∉ [97; 13; 10; 98]%Z).
Proof.
  apply (decompressed_bytes "example.txt" None None
           (example_world [97; 13; 10; 98]%Z) [97; 13; 10; 98]%Z
           [97; 10; 98]%Z 97 98).
  - reflexivity.
  - reflexivity.
  - left.
  - right. right. left.
  - done.
Defined.

(** X19. [decompress_file] on a missing file raises [FileNotFoundError];
    on a container whose frequency table is empty it raises the
    [IndexError] of [self.heap[0]]; on a container with a table and no
    payload it raises the [ValueError] of [int('', 2)].  No file is
    written in these cases. *)
Theorem decompress_file_malformed path output_path w :
  let r := decompress_file path output_path w in
  (fs w !! path = None → r = (Raise FileNotFoundError, w)) ∧
  (∀ data file_hash payload,
     fs w !! path = Some data →
     parse_container data = Ret (file_hash, [], payload) →
     r.1 = Raise IndexError ∧ fs r.2 = fs w) ∧
  (∀ data file_hash frequency,
     fs w !! path = Some data →
     parse_container data = Ret (file_hash, frequency, []) →
     frequency ≠ [] →
     r.1 = Raise ValueError_int ∧ fs r.2 = fs w).
Proof.
  cbv zeta. split_and!.
  - intros Hfile. unfold decompress_file. cbv [mbind M_bind].
    unfold read_bytes. by rewrite Hfile.
  - intros data file_hash payload Hfile Hparse.
    pose proof (decompress_file_stages path output_path w) as Hst.
    cbv zeta in Hst. unfold decompress, read_bytes in Hst.
    rewrite Hfile in Hst. cbn [mbind outcome_bind] in Hst.
    rewrite Hparse in Hst. exact Hst.
  - intros data file_hash frequency Hfile Hparse Hne.
    pose proof (decompress_file_stages path output_path w) as Hst.
    cbv zeta in Hst. unfold decompress, read_bytes in Hst.
    rewrite Hfile in Hst. cbn [mbind outcome_bind] in Hst.
    rewrite Hparse in Hst. cbn [mbind outcome_bind fst snd] in Hst.
    unfold decode_payload in Hst.
    destruct (build_tree_leaves frequency Hne) as (root & Hroot & _).
    rewrite Hroot in Hst. exact Hst.
Qed.

Lemma decompress_file_malformed_witness :
  let w1 := mkWorld __init__ {[ "a.huffman"%string := [48; 10; 123; 125; 10; 8; 0]%Z ]} in
  let w2 := mkWorld __init__
              {[ "a.huffman"%string := [48; 10; 123; 34; 97; 34; 58; 32; 49; 125; 10]%Z ]} in
  (decompress_file "b.huffman" None w1 = (Raise FileNotFoundError, w1)) ∧
  ((decompress_file "a.huffman" None w1).1 = Raise IndexError ∧
   fs (decompress_file "a.huffman" None w1).2 = fs w1) ∧
  ((decompress_file "a.huffman" None w2).1 = Raise ValueError_int ∧
   fs (decompress_file "a.huffman" None w2).2 = fs w2).
Proof.
  intros w1 w2.
  destruct (decompress_file_malformed "b.huffman" None w1) as (Ha & _ & _).
  destruct (decompress_file_malformed "a.huffman" None w1) as (_ & Hb & _).
  destruct (decompress_file_malformed "a.huffman" None w2) as (_ & _ & Hc).
  split; [|split].
  - apply Ha. reflexivity.
  - eapply Hb; [reflexivity|]. vm_compute. reflexivity.
  - eapply Hc; [reflexivity| |].
    + vm_compute. reflexivity.
    + done.
Defined.

(** X20. The stored padding count is not checked against the payload:
    when the first byte of the payload is 0, or is not less than the
    number of bits that follow, the payload decodes to the empty text. *)
Theorem padding_count_out_of_range (frequency : dict pystr Z) root
    (count : Z) (rest : bytes) :
  build_tree frequency = Ret root →
  (0 ≤ count < 256)%Z → Forall (λ b, 0 ≤ b < 256)%Z rest →
  (count = 0 ∨ 8 * Z.of_nat (length rest) ≤ count)%Z →
  decode_payload frequency (count :: rest) = Ret [].
Proof.
  intros Hroot Hcount Hrest Hout. unfold decode_payload. rewrite Hroot.
  cbn [mbind outcome_bind]. rewrite bind_cons.
  destruct (format_08b_byte count Hcount) as [Hlen Hval].
  rewrite take_app_length', drop_app_length' by done.
  rewrite int2_bits_val by (intros Hnil; by rewrite Hnil in Hlen).
  rewrite Hval. cbn [mbind outcome_bind].
  assert (Hl : length (rest ≫= format_08b) = 8 * length rest).
  { clear Hout. induction Hrest as [|b rest Hb _ IH]; [done|].
    rewrite bind_cons, length_app, IH.
    destruct (format_08b_byte b Hb) as [-> _]. simpl. lia. }
  replace (slice_to_neg (rest ≫= format_08b) count) with (@nil bool); [done|].
  unfold slice_to_neg. case_decide; [done|].
  rewrite Hl. replace (8 * length rest - Z.to_nat count) with 0 by lia. done.
Qed.

Lemma padding_count_out_of_range_witness :
  decode_payload [([97], 3); ([98], 2); ([99], 1)]%Z [0; 31; 0]%Z = Ret [] ∧
  decode_payload [([97], 3); ([98], 2); ([99], 1)]%Z [16; 31; 0]%Z = Ret [].
Proof.
  split.
  - eapply (padding_count_out_of_range _ _ 0 [31; 0]%Z);
      [vm_compute; reflexivity|lia|repeat constructor; lia|by left].
  - eapply (padding_count_out_of_range _ _ 16 [31; 0]%Z);
      [vm_compute; reflexivity|lia|repeat constructor; lia|right; simpl; lia].
Defined.

(** X21. The output path of a successful [decompress_file]: an explicit
    output path is used as it is; by default a path that ends in
    ['.huffman'], with no other occurrence of it, gets ['.decompressed']
    in its place, and a path without ['.huffman'] is its own output path,
    so that the decoded text overwrites the container. *)
Theorem default_output_path path w (text : pystr) (decoded_bytes : bytes) :
  decompress (fs w) path = Ret (text, decoded_bytes) →
  (∀ out, (decompress_file path (Some out) w).1 = Ret out) ∧
  (str_contains path ".huffman" = false →
   (decompress_file path None w).1 = Ret path ∧
   fs (decompress_file path None w).2 = <[path := decoded_bytes]> (fs w)) ∧
  (∀ base, path = base +:+ ".huffman" →
     str_contains base ".huffman" = false →
     (decompress_file path None w).1 = Ret (base +:+ ".decompressed")).
Proof.
  intros Hdec. split_and!.
  - intros out. pose proof (decompress_file_stages path (Some out) w) as Hst.
    cbv zeta in Hst. rewrite Hdec in Hst. by destruct Hst.
  - intros Habs. pose proof (decompress_file_stages path None w) as Hst.
    cbv zeta in Hst. rewrite Hdec in Hst. unfold decompressed_path in Hst.
    cbn [default from_option id] in Hst.
    by rewrite str_replace_absent in Hst.
  - intros base -> Habs.
    pose proof (decompress_file_stages (base +:+ ".huffman") None w) as Hst.
    cbv zeta in Hst. rewrite Hdec in Hst. unfold decompressed_path in Hst.
    cbn [default from_option id] in Hst.
    rewrite str_replace_suffix in Hst by done. by destruct Hst.
Qed.

Lemma default_output_path_witness :
  let w := mkWorld __init__
             {[ "example.bin"%string := compressed_container aaabbc ]} in
  (decompress_file "example.bin" None w).1 = Ret "example.bin"%string ∧
  fs (decompress_file "example.bin" None w).2
    = <[ "example.bin"%string := aaabbc ]> (fs w).
Proof.
  intros w.
  destruct (default_output_path "example.bin" w aaabbc aaabbc) as (_ & H & _);
    [by vm_compute|].
  apply H. reflexivity.
Defined.

(** X22. [main] never raises and never changes ['example.txt'].  When
    the file cannot be read it reports the exception, and when the file
    is empty it reports the [IndexError]; no file is written.  For a text
    with two distinct characters it reports both paths and leaves the
    container and the decompressed file, which holds the UTF-8 text.  For
    a text that repeats one character it leaves the container and, when
    the digest of the text differs from the digest of the empty text,
    reports the integrity failure and writes no other file; when the two
    digests are equal it reports both paths and leaves an empty
    decompressed file. *)
Theorem main_outcome (files : gmap string bytes) :
  let r := main files in
  let huffman := "example.txt.huffman"%string in
  let decompressed := "example.txt.decompressed"%string in
  r.2 !! "example.txt"%string = files !! "example.txt"%string ∧
  match read_text files "example.txt" with
  | Ret text =>
      if decide (text = []) then r = (Ret [An_error_occurred IndexError], files)
      else
        ∃ data container,
          utf8_encode text = Ret data ∧
          if decide (1 < length (_make_frequency_dict text)) then
            r = (Ret [Compressed_file_saved_as huffman;
                      Decompressed_file_saved_as decompressed],
                 <[decompressed := data]> (<[huffman := container]> files))
          else if decide (SHA256.hexdigest data = SHA256.hexdigest []) then
            r = (Ret [Compressed_file_saved_as huffman;
                      Decompressed_file_saved_as decompressed],
                 <[decompressed := []]> (<[huffman := container]> files))
          else
            r = (Ret [Compressed_file_saved_as huffman;
                      An_error_occurred ValueError_integrity],
                 <[huffman := container]> files)
  | Raise e => r = (Ret [An_error_occurred e], files)
  | Unmodelled => False
  end.
Proof.
  cbv zeta.
  assert (Hmain : match read_text files "example.txt" with
    | Ret text =>
      if decide (text = [])
      then main files = (Ret [An_error_occurred IndexError], files)
      else
        ∃ data container,
          utf8_encode text = Ret data ∧
          if decide (1 < length (_make_frequency_dict text)) then
            main files
              = (Ret [Compressed_file_saved_as "example.txt.huffman";
                      Decompressed_file_saved_as "example.txt.decompressed"],
                 <["example.txt.decompressed"%string := data]>
                   (<["example.txt.huffman"%string := container]> files))
          else if decide (SHA256.hexdigest data = SHA256.hexdigest []) then
            main files
              = (Ret [Compressed_file_saved_as "example.txt.huffman";
                      Decompressed_file_saved_as "example.txt.decompressed"],
                 <["example.txt.decompressed"%string := []]>
                   (<["example.txt.huffman"%string := container]> files))
          else
            main files
              = (Ret [Compressed_file_saved_as "example.txt.huffman";
                      An_error_occurred ValueError_integrity],
                 <["example.txt.huffman"%string := container]> files)
    | Raise e => main files = (Ret [An_error_occurred e], files)
    | Unmodelled => False
    end).
  { unfold main. cbv zeta.
    set (w := mkWorld __init__ files).
    destruct (read_text files "example.txt") as [text|e|] eqn:Hread.
    - case_decide as Hnil.
      + subst text. unfold compress_file.
        cbv [mbind M_bind lift get_self put_self modify_self raise mret M_ret].
        cbn [fs w]. by rewrite Hread.
      + pose proof (read_text_scalar _ _ _ Hread) as Hsc.
        destruct (utf8_encode_scalar text Hsc) as [data Hdata].
        case_decide as Htwo.
        * destruct (frequency_two_inv text Htwo) as (c1 & c2 & H1 & H2 & Hne).
          destruct (round_trip_files "example.txt" None None w text c1 c2
                      Hread H1 H2 Hne)
            as (data' & container & s' & Hdata' & Hrun & Hr & Hfs).
          cbv zeta in Hrun, Hr, Hfs. cbn [default from_option id] in *.
          change ("example.txt" +:+ ".huffman")%string
            with "example.txt.huffman"%string in *.
          change (decompressed_path "example.txt.huffman" None)
            with "example.txt.decompressed"%string in *.
          rewrite Hdata in Hdata'. injection Hdata' as <-.
          exists data, container. split; [done|].
          rewrite Hrun. cbv beta iota. subst w. cbn [fs] in *.
          set (r' := decompress_file _ _ _) in *.
          rewrite (surjective_pairing r'), Hr, Hfs. done.
        * destruct (frequency_one text Hnil Htwo) as (c & n & ->).
          destruct (single_symbol_run "example.txt" None w c n Hread)
            as (data' & s' & Hdata' & Hrun).
          cbv zeta in Hrun. cbn [default from_option id] in Hrun.
          change ("example.txt" +:+ ".huffman")%string
            with "example.txt.huffman"%string in Hrun.
          rewrite Hdata in Hdata'. injection Hdata' as <-.
          pose proof (frequency_wf _ Hsc) as Hwf.
          rewrite _make_frequency_dict_replicate in Hwf.
          match type of Hrun with _ = (_, ?w1) =>
            destruct (single_symbol_decompress "example.txt.huffman" None w1
                        c (Z.of_nat (S n)) data Hwf)
              as [Hbad Hgood]; [apply lookup_insert_eq|]
          end.
          cbv zeta in Hbad, Hgood.
          change (decompressed_path "example.txt.huffman" None)
            with "example.txt.decompressed"%string in Hbad, Hgood.
          eexists data, _. split; [done|].
          rewrite Hrun. cbv beta iota. subst w. cbn [fs] in *.
          set (r' := decompress_file _ _ _) in *.
          rewrite (surjective_pairing r').
          case_decide as Hh.
          -- destruct (Hgood Hh) as [H1 H2]. clear Hh Hbad Hgood.
             rewrite H1, H2. reflexivity.
          -- destruct (Hbad Hh) as [H1 H2]. clear Hh Hbad Hgood.
             rewrite H1, H2. reflexivity.
    - unfold compress_file. cbv [mbind M_bind lift]. cbn [fs w]. by rewrite Hread.
    - pose proof (read_text_outcome files "example.txt") as Ho.
      destruct (files !! "example.txt"%string) as [d|];
        [destruct Ho as [(t & Ht & _)|[Ht _]]|]; congruence. }
  split; [|exact Hmain].
  destruct (read_text files "example.txt") as [text|e|]; [| |done].
  - case_decide; [by rewrite Hmain|].
    destruct Hmain as (data & container & _ & Hmain).
    case_decide; [|case_decide as Hh; clear Hh]; rewrite Hmain; cbn [snd];
      by rewrite ?lookup_insert_ne by done.
  - by rewrite Hmain.
Qed.

(** X23. A more frequent symbol never gets a longer code than a less
    frequent one. *)
Theorem frequent_symbols_short_codes (frequency : dict pystr Z)
    (table : dict pystr bits) k1 k2 f1 f2 code1 code2 :
  NoDup frequency.*1 → code_table frequency = Ret table →
  PyDict.get frequency k1 = Some f1 → PyDict.get frequency k2 = Some f2 →
  PyDict.get table k1 = Some code1 → PyDict.get table k2 = Some code2 →
  (f1 < f2)%Z → length code2 ≤ length code1.
Proof.
  intros Hnd Htable Hf1%dict_get_Some Hf2%dict_get_Some Hc1 Hc2 Hlt.
  unfold code_table in Htable.
  destruct (build_tree frequency) as [root| |] eqn:Hroot; [|done..].
  cbn [mbind outcome_bind] in Htable. injection Htable as <-.
  destruct (code_table_paths frequency root Hnd Hroot) as [_ Hcodes].
  rewrite Hcodes in Hc1, Hc2.
  apply dict_get_Some in Hc1, Hc2.
  by eapply (code_lengths_monotone frequency root k1 k2 f1 f2).
Qed.

Lemma frequent_symbols_short_codes_witness :
  ∃ table, code_table reference_table = Ret table ∧
    PyDict.get table [97%Z] = Some [true; true; false; false] ∧
    PyDict.get table [102%Z] = Some [false] ∧
    length [false] ≤ length [true; true; false; false].
Proof.
  eexists. split; [vm_compute; reflexivity|]. split; [reflexivity|].
  split; [reflexivity|].
  assert (Hnd : NoDup reference_table.*1).
  { apply (bool_decide_unpack _). by vm_compute. }
  eapply (frequent_symbols_short_codes reference_table _ [97%Z] [102%Z] 5 45);
    [exact Hnd|vm_compute; reflexivity|reflexivity..|lia].
Defined.
